(** * Evidence grouping, scoring and fetching of the workflow popularity pipeline

    A shallow embedding of [app/processing/score.py], [app/processing/ingest.py]
    and the two [_get] helpers of [app/collectors], together with the
    properties the specification states about them, followed by further
    properties of the same code, of the canonical records and the upsert of
    [run_ingest], of the forum collector, of the growth figures of the
    trends collector and of the file fallback of the API.

    Conventions of the embedding.
    - A Python exception escaping a function is the result [None] of an
      [option]-valued function (or a dedicated [Raised] constructor where the
      kind of failure matters).
    - JSON numbers read from the raw evidence are exact rationals ([Q]);
      the results of [math.log1p], [math.tanh] and [math.exp] are real
      numbers ([R]).  Rounding is outside the model.  [score] reads the
      floats without their range; [score_range] reads the same functions
      with the range of IEEE doubles: the conversions that raise
      [OverflowError], and the underflow of [math.exp].
    - Strings are byte strings; only ASCII letters are case-folded.
    - [datetime.now] is an explicit argument [now] (a frozen clock) and
      [uuid.uuid4] an explicit supply of identifiers. *)

From Stdlib Require Import List String Ascii Bool Arith ZArith QArith Lia.
From Stdlib Require Import Qabs Qreals Reals Lra Permutation.
From Stdlib Require Lqa.
Import ListNotations.

Local Open Scope string_scope.
Local Open Scope list_scope.

(** ** Option as the exception monad *)

Definition obind {A B : Type} (o : option A) (k : A -> option B) : option B :=
  match o with
  | Some a => k a
  | None => None
  end.

Notation "'do' x <- e ; k" := (obind e (fun x => k))
  (at level 10, x name, e at level 100, k at level 200).

Fixpoint mapM {A B : Type} (f : A -> option B) (l : list A) : option (list B) :=
  match l with
  | [] => Some []
  | a :: l' => do b <- f a; do bs <- mapM f l'; Some (b :: bs)
  end.

(** ** Python values held by the metrics mapping *)

Inductive pyval : Type :=
| PNone                 (* key absent, or JSON null *)
| PBool (b : bool)
| PInt (z : Z)
| PFloat (q : Q)
| PStr (s : string)
| PColl (n : nat).      (* a JSON array or object with [n] entries *)

Definition truthy (v : pyval) : bool :=
  match v with
  | PNone => false
  | PBool b => b
  | PInt z => negb (z =? 0)%Z
  | PFloat q => negb (Qnum q =? 0)%Z
  | PStr s => negb (String.eqb s EmptyString)
  | PColl n => negb (n =? 0)%nat
  end.

(** [a or b] *)
Definition py_or (a b : pyval) : pyval := if truthy a then a else b.

(** The value of [v] as an operand of arithmetic; [None] is a [TypeError]. *)
Definition as_number (v : pyval) : option Q :=
  match v with
  | PBool b => Some (if b then 1%Q else 0%Q)
  | PInt z => Some (inject_Z z)
  | PFloat q => Some q
  | _ => None
  end.

Definition is_number (v : pyval) : bool :=
  match as_number v with Some _ => true | None => false end.

(** [x > 0] on a number *)
Definition Qpositive (q : Q) : bool := (0 <? Qnum q)%Z.

(** [int(x)] of a float: truncation towards zero *)
Definition Qtrunc (q : Q) : Z := Z.quot (Qnum q) (Zpos (Qden q)).

(** ** Evidence items *)

Inductive iot_entry : Type :=
| IotDict (column : list pyval)   (* a nested mapping: its values, in order *)
| IotVal (v : pyval).

Record metrics_t : Type := {
  views : pyval;
  likes : pyval;
  comments : pyval;
  replies : pyval;
  growth_pct_30d : pyval;
  published_at : pyval;
  first_post_ts : pyval;
  interest_over_time : list iot_entry;   (* the values of the mapping *)
  country : option string
}.

Record item : Type := {
  platform : option string;
  source_id : option string;
  source_url : option string;
  title : option string;
  keyword : option string;
  metrics : metrics_t
}.

Definition no_metrics : metrics_t :=
  {| views := PNone; likes := PNone; comments := PNone; replies := PNone;
     growth_pct_30d := PNone; published_at := PNone; first_post_ts := PNone;
     interest_over_time := []; country := None |}.

(** A parsed [datetime]: microseconds since the epoch, with or without a
    time zone. *)
Inductive datetime : Type :=
| Aware (us : Z)
| Naive (us : Z).

(** [s.replace("Z", "+00:00")] *)
Fixpoint replace_Z (s : string) : string :=
  match s with
  | EmptyString => EmptyString
  | String c s' =>
      if Ascii.eqb c "Z"%char then "+00:00" ++ replace_Z s'
      else String c (replace_Z s')
  end.

(** ** app/processing/score.py *)

Module score.

Local Open Scope R_scope.

Record scores : Type := { V : R; E : R; T : R; D : R }.

Record weights_t : Type := { wV : R; wE : R; wT : R }.

Record components : Type := {
  cV : R; cE : R; cT : R; decay_multiplier_c : R
}.

Record aggregate : Type := {
  popularity_score : R;
  score_components : components
}.

Definition log1p_norm (x : R) : R := ln (1 + Rmax 0 x).

Definition clamp01 (x : R) : R := Rmax 0 (Rmin 1 x).

Definition us_per_second : Z := 1000000.

Section Clock.

(** [datetime.fromisoformat] and the reading of [datetime.now(timezone.utc)]. *)
Variable fromisoformat : string -> option datetime.
Variable now : Z.

(** [decay_multiplier(published_iso, half_life_days)].  A value that is not
    a string has no [replace] method, and the [AttributeError] is caught by
    the same handler as a parse failure.  Subtracting a naive datetime from
    an aware one, and dividing by a zero half-life, raise. *)
Definition decay_multiplier (published_iso : pyval) (half_life_days : Z)
  : option R :=
  match published_iso with
  | PStr s =>
      match fromisoformat (replace_Z s) with
      | None => Some 1
      | Some (Naive _) => None
      | Some (Aware dt) =>
          let age_days := IZR (now - dt) / IZR us_per_second / 86400 in
          if (half_life_days =? 0)%Z then None
          else Some (exp (- ln 2 * age_days / IZR half_life_days))
      end
  | _ => Some 1
  end.

(** The volume proxy of a trends item: the first value of every column of
    [interest_over_time], averaged and truncated. *)
Definition iot_first (e : iot_entry) : option pyval :=
  match e with
  | IotDict [] => None
  | IotDict (v :: _) => Some v
  | IotVal v => Some v
  end.

Definition py_sum (vals : list pyval) : option Q :=
  fold_left (fun acc v => do a <- acc; do q <- as_number v; Some (a + q)%Q)
            vals (Some 0%Q).

Definition trends_views (iot : list iot_entry) : option Z :=
  do vals <- mapM iot_first iot;
  do s <- py_sum vals;
  Some (Qtrunc (s / inject_Z (Z.max 1 (Z.of_nat (List.length vals))))%Q).

Definition ratio_to_views (x : pyval) (views : Q) : option R :=
  if Qpositive views then
    do n <- as_number x; Some (Q2R n / Q2R views)
  else Some 0.

Definition compute_item_scores (it : item) : option scores :=
  let m := metrics it in
  let views0 := py_or (views m) (PInt 0) in
  do views1 <-
    (match platform it with
     | Some p =>
         if String.eqb p "GoogleTrends"
         then do z <- trends_views (interest_over_time m); Some (PInt z)
         else Some views0
     | None => Some views0
     end);
  do vq <- as_number views1;
  let V_raw := log1p_norm (Q2R vq) in
  let V_norm := clamp01 (V_raw / 10) in
  let likes := py_or (likes m) (PInt 0) in
  let comments := py_or (comments m) (py_or (replies m) (PInt 0)) in
  do like_to_view <- ratio_to_views likes vq;
  do comment_to_view <- ratio_to_views comments vq;
  let E_raw := 0.6 * like_to_view + 0.4 * comment_to_view in
  let E_norm := clamp01 (E_raw * 10) in
  let growth := py_or (growth_pct_30d m) (PFloat 0) in
  do g <- as_number growth;
  let T_raw := tanh (Q2R g) in
  let T_norm := clamp01 ((T_raw + 1) / 2) in
  let pub := py_or (published_at m) (py_or (first_post_ts m) PNone) in
  let D :=
    if truthy pub then
      match decay_multiplier pub 30 with
      | Some d => d
      | None => 1
      end
    else 1 in
  Some {| V := V_norm; E := E_norm; T := T_norm; D := D |}.

Definition default_weights : weights_t := {| wV := 0.5; wE := 0.3; wT := 0.2 |}.

Record comps_t : Type := {
  lV : list R; lE : list R; lT : list R; lD : list R
}.

Definition comps_append (c : comps_t) (s : scores) : comps_t :=
  {| lV := lV c ++ [V s]; lE := lE c ++ [E s];
     lT := lT c ++ [T s]; lD := lD c ++ [D s] |}.

Definition Rsum (l : list R) : R := fold_left Rplus l 0.

Definition is_empty {A : Type} (l : list A) : bool :=
  match l with [] => true | _ => false end.

(** the local [mean] of [aggregate_workflow] *)
Definition mean (lst : list R) : R :=
  if is_empty lst then 0 else Rsum lst / INR (List.length lst).

Definition aggregate_workflow (evidence : list item) (weights : option weights_t)
  : option aggregate :=
  let weights := match weights with Some w => w | None => default_weights end in
  do comps <-
    fold_left
      (fun acc it =>
         do c <- acc; do s <- compute_item_scores it; Some (comps_append c s))
      evidence
      (Some {| lV := []; lE := []; lT := []; lD := [] |});
  let Vw := if is_empty (lV comps) then 0 else mean (lV comps) in
  let Ew := if is_empty (lE comps) then 0 else mean (lE comps) in
  let Tw := if is_empty (lT comps) then 0 else mean (lT comps) in
  let Dw := if is_empty (lD comps) then 1 else mean (lD comps) in
  let raw := wV weights * Vw + wE weights * Ew + wT weights * Tw in
  let score := clamp01 (raw * Dw) in
  Some {| popularity_score := score;
          score_components :=
            {| cV := Vw; cE := Ew; cT := Tw; decay_multiplier_c := Dw |} |}.

End Clock.

End score.

(** ** The range of Python's floats

    [score] above reads every float as a real number.  That reading leaves
    out the range of the IEEE double, and with it three ways in which the
    code behaves differently: an [int] is converted before it enters a
    float operation, and the conversion raises [OverflowError] when the
    [int] has no double; the true division of two [int]s raises when the
    quotient has none; [math.exp] raises above the range and returns
    [0.0] below the least positive double.  The definitions below keep
    these three; rounding inside the range stays outside the model, and
    the infinities and NaN are not values of [PFloat]. *)

Module pyfloat.

Local Open Scope R_scope.

(** An integer [n] has a double exactly when [|n| < 2^1024 - 2^970]: from
    this bound on, rounding to nearest leaves the range. *)
Definition overflow_bound : Z := 2 ^ 1024 - 2 ^ 970.

Arguments overflow_bound : simpl never.

Definition fits (z : Z) : bool := (Z.abs z <? overflow_bound)%Z.

(** the same test on the exact value of a float sum *)
Definition float_fits (q : Q) : bool :=
  (Z.abs (Qnum q) <? overflow_bound * Zpos (Qden q))%Z.

(** A number as an operand: an [int] (or a [bool]), or a [float]. *)
Inductive num : Type :=
| NInt (z : Z)
| NFloat (q : Q).

(** [None] is the [TypeError] of an operand that is not a number. *)
Definition as_num (v : pyval) : option num :=
  match v with
  | PBool b => Some (NInt (if b then 1 else 0))
  | PInt z => Some (NInt z)
  | PFloat q => Some (NFloat q)
  | _ => None
  end.

(** [x > 0]: exact, also between an [int] and a [float] *)
Definition gt_zero (x : num) : bool :=
  match x with
  | NInt z => (0 <? z)%Z
  | NFloat q => Qpositive q
  end.

(** [float(x)], as the exact value; [None] is the [OverflowError]. *)
Definition float_of (x : num) : option Q :=
  match x with
  | NInt z => if fits z then Some (inject_Z z) else None
  | NFloat q => Some q
  end.

(** [a / b] for [b] other than zero.  Two [int]s are divided exactly and
    the quotient is converted; otherwise both operands are converted
    first, and the division of two floats does not raise. *)
Definition true_div (a b : num) : option R :=
  match a, b with
  | NInt x, NInt y =>
      if (Z.abs x <? overflow_bound * Z.abs y)%Z
      then Some (Q2R (inject_Z x) / Q2R (inject_Z y))
      else None
  | _, _ => do p <- float_of a; do q <- float_of b; Some (Q2R p / Q2R q)
  end.

(** [math.exp(x)]: [e^x] has no double beyond [2^1024], and is rounded
    to [0.0] up to [2^-1075]. *)
Definition math_exp (x : R) : option R :=
  if Rlt_dec (1024 * ln 2) x then None
  else if Rle_dec x (- 1075 * ln 2) then Some 0
  else Some (exp x).

End pyfloat.

(** ** app/processing/score.py within the range of the floats

    The functions of [score] once more, with the conversions of
    [pyfloat]: what raises here raises in the code for the same reason. *)

Module score_range.

Import pyfloat.

Local Open Scope R_scope.

(** [math.log1p(max(0.0, x))]: [max] hands on [x] itself when [x > 0.0],
    and [math.log1p] converts it. *)
Definition log1p_norm (x : num) : option R :=
  do q <- float_of (if gt_zero x then x else NFloat 0);
  Some (ln (1 + Q2R q)).

Section Clock.

Variable fromisoformat : string -> option datetime.
Variable now : Z.

(** [decay_multiplier(published_iso, half_life_days)]: as in [score], and
    the division by [half_life_days] converts it, and [math.exp] has its
    range. *)
Definition decay_multiplier (published_iso : pyval) (half_life_days : Z)
  : option R :=
  match published_iso with
  | PStr s =>
      match fromisoformat (replace_Z s) with
      | None => Some 1
      | Some (Naive _) => None
      | Some (Aware dt) =>
          let age_days := IZR (now - dt) / IZR score.us_per_second / 86400 in
          if (half_life_days =? 0)%Z then None
          else
            do h <- float_of (NInt half_life_days);
            math_exp (- ln 2 * age_days / Q2R h)
      end
  | _ => Some 1
  end.

(** One addition of [sum(vals)].  [int]s are added exactly; with a float
    on either side the [int] is converted first.  A float sum that leaves
    the range is an infinity, which stays one to the end of the sum and
    which the [int(...)] around the mean refuses: [None] is either
    error. *)
Definition add (a b : num) : option num :=
  match a, b with
  | NInt x, NInt y => Some (NInt (x + y))
  | _, _ =>
      do p <- float_of a; do q <- float_of b;
      if float_fits (p + q) then Some (NFloat (p + q)%Q) else None
  end.

Definition py_sum (vals : list pyval) : option num :=
  fold_left (fun acc v => do a <- acc; do n <- as_num v; add a n)
            vals (Some (NInt 0)).

(** [int(sum(vals) / max(1, len(vals)))]; the length of a list always has
    a double. *)
Definition trends_views (iot : list iot_entry) : option Z :=
  do vals <- mapM score.iot_first iot;
  do s <- py_sum vals;
  let n := Z.max 1 (Z.of_nat (List.length vals)) in
  match s with
  | NInt z =>
      if (Z.abs z <? overflow_bound * n)%Z
      then Some (Qtrunc (inject_Z z / inject_Z n)%Q)
      else None
  | NFloat q => Some (Qtrunc (q / inject_Z n)%Q)
  end.

(** [(x / views) if views > 0 else 0.0] *)
Definition ratio_to_views (x : pyval) (views : num) : option R :=
  if gt_zero views then do n <- as_num x; true_div n views
  else Some 0.

Definition compute_item_scores (it : item) : option score.scores :=
  let m := metrics it in
  let views0 := py_or (views m) (PInt 0) in
  do views1 <-
    (match platform it with
     | Some p =>
         if String.eqb p "GoogleTrends"
         then do z <- trends_views (interest_over_time m); Some (PInt z)
         else Some views0
     | None => Some views0
     end);
  do vn <- as_num views1;
  do V_raw <- log1p_norm vn;
  let V_norm := score.clamp01 (V_raw / 10) in
  let likes := py_or (likes m) (PInt 0) in
  let comments := py_or (comments m) (py_or (replies m) (PInt 0)) in
  do like_to_view <- ratio_to_views likes vn;
  do comment_to_view <- ratio_to_views comments vn;
  let E_raw := 0.6 * like_to_view + 0.4 * comment_to_view in
  let E_norm := score.clamp01 (E_raw * 10) in
  let growth := py_or (growth_pct_30d m) (PFloat 0) in
  do g <- as_num growth;
  do gf <- float_of g;
  let T_raw := tanh (Q2R gf) in
  let T_norm := score.clamp01 ((T_raw + 1) / 2) in
  let pub := py_or (published_at m) (py_or (first_post_ts m) PNone) in
  let D :=
    if truthy pub then
      match decay_multiplier pub 30 with
      | Some d => d
      | None => 1
      end
    else 1 in
  Some {| score.V := V_norm; score.E := E_norm; score.T := T_norm;
          score.D := D |}.

Definition aggregate_workflow (evidence : list item)
    (weights : option score.weights_t) : option score.aggregate :=
  let weights :=
    match weights with Some w => w | None => score.default_weights end in
  do comps <-
    fold_left
      (fun acc it =>
         do c <- acc; do s <- compute_item_scores it;
         Some (score.comps_append c s))
      evidence
      (Some {| score.lV := []; score.lE := []; score.lT := [];
               score.lD := [] |});
  let Vw := if score.is_empty (score.lV comps) then 0
            else score.mean (score.lV comps) in
  let Ew := if score.is_empty (score.lE comps) then 0
            else score.mean (score.lE comps) in
  let Tw := if score.is_empty (score.lT comps) then 0
            else score.mean (score.lT comps) in
  let Dw := if score.is_empty (score.lD comps) then 1
            else score.mean (score.lD comps) in
  let raw := score.wV weights * Vw + score.wE weights * Ew
             + score.wT weights * Tw in
  let score_ := score.clamp01 (raw * Dw) in
  Some {| score.popularity_score := score_;
          score.score_components :=
            {| score.cV := Vw; score.cE := Ew; score.cT := Tw;
               score.decay_multiplier_c := Dw |} |}.

End Clock.

End score_range.

(** ** app/processing/ingest.py *)

Module ingest.

(** *** Characters and [normalize_title] *)

Definition in_range (lo hi : nat) (c : ascii) : bool :=
  let n := nat_of_ascii c in (lo <=? n)%nat && (n <=? hi)%nat.

(** the ASCII characters matched by [\s] *)
Definition is_space (c : ascii) : bool :=
  in_range 9 13 c || in_range 28 32 c.

Definition is_lower (c : ascii) : bool := in_range 97 122 c.
Definition is_upper (c : ascii) : bool := in_range 65 90 c.
Definition is_digit (c : ascii) : bool := in_range 48 57 c.

Definition lower_char (c : ascii) : ascii :=
  if is_upper c then ascii_of_nat (nat_of_ascii c + 32) else c.

(** [re.sub(r"[^a-z0-9\s]", " ", t)], one character at a time *)
Definition strip_punct (c : ascii) : ascii :=
  if is_lower c || is_digit c || is_space c then c else " "%char.

(** [re.sub(r"\s+", " ", t)]: [in_run] tells that the previous character
    was white space, already replaced. *)
Fixpoint collapse_ws (in_run : bool) (l : list ascii) : list ascii :=
  match l with
  | [] => []
  | c :: l' =>
      if is_space c
      then (if in_run then collapse_ws true l' else " "%char :: collapse_ws true l')
      else c :: collapse_ws false l'
  end.

Fixpoint lstrip (l : list ascii) : list ascii :=
  match l with
  | [] => []
  | c :: l' => if is_space c then lstrip l' else l
  end.

Definition strip (l : list ascii) : list ascii :=
  rev (lstrip (rev (lstrip l))).

Definition normalize_title (t : string) : string :=
  if String.eqb t EmptyString then EmptyString
  else
    let t1 := map lower_char (list_ascii_of_string t) in
    let t2 := map strip_punct t1 in
    string_of_list_ascii (strip (collapse_ws false t2)).

(** *** [group_evidence] *)

(** [a or b] on optional strings: [None] and the empty string are false *)
Definition str_truthy (o : option string) : bool :=
  match o with
  | Some s => negb (String.eqb s EmptyString)
  | None => false
  end.

Definition or_str (a : option string) (b : string) : string :=
  match a with
  | Some s => if String.eqb s EmptyString then b else s
  | None => b
  end.

(** The [defaultdict(list)]: keys in insertion order. *)
Definition groups_t : Type := list (string * list item).

(** [groups[key].append(it)] *)
Fixpoint groups_append (key : string) (it : item) (g : groups_t) : groups_t :=
  match g with
  | [] => [(key, [it])]
  | (k, l) :: g' =>
      if String.eqb k key then (k, l ++ [it]) :: g'
      else (k, l) :: groups_append key it g'
  end.

(** [it.get("title") or it.get("keyword")], or else the empty string *)
Definition title_of (it : item) : string :=
  or_str (title it) (or_str (keyword it) EmptyString).

Section Uuid.

(** [uuid4 n] is the string of the [n]-th identifier that [uuid.uuid4()]
    hands out during the run. *)
Variable uuid4 : nat -> string.

(** The key the loop body computes for [it], and the number of
    identifiers drawn so far. *)
Definition group_key (drawn : nat) (it : item) : nat * string :=
  let key := normalize_title (title_of it) in
  if String.eqb key EmptyString then
    match source_id it with
    | Some s => if String.eqb s EmptyString then (S drawn, uuid4 drawn) else (drawn, s)
    | None => (S drawn, uuid4 drawn)
    end
  else (drawn, key).

Definition group_step (st : nat * groups_t) (it : item) : nat * groups_t :=
  let (drawn', key) := group_key (fst st) it in
  (drawn', groups_append key it (snd st)).

Definition group_evidence (items : list item) : groups_t :=
  snd (fold_left group_step items (0%nat, [])).

End Uuid.

(** *** The totals of [run_ingest] *)

Fixpoint digits_value (l : list ascii) (acc : Z) (after_digit : bool)
  : option Z :=
  match l with
  | [] => if after_digit then Some acc else None
  | c :: l' =>
      if is_digit c
      then digits_value l' (10 * acc + Z.of_nat (nat_of_ascii c - 48)) true
      else if Ascii.eqb c "_"%char
           then (if after_digit then digits_value l' acc false else None)
           else None
  end.

(** [int(s)] on a string: surrounding white space, an optional sign, and
    decimal digits with single underscores between them. *)
Definition py_int_of_string (s : string) : option Z :=
  match strip (list_ascii_of_string s) with
  | "+"%char :: l => digits_value l 0 false
  | "-"%char :: l => option_map Z.opp (digits_value l 0 false)
  | l => digits_value l 0 false
  end.

(** [int(v)]; [None] is a [TypeError] or a [ValueError]. *)
Definition py_int (v : pyval) : option Z :=
  match v with
  | PNone => None
  | PBool b => Some (if b then 1 else 0)%Z
  | PInt z => Some z
  | PFloat q => Some (Qtrunc q)
  | PStr s => py_int_of_string s
  | PColl _ => None
  end.

(** [try: total += int(v) except Exception: pass] *)
Definition add_int (total : Z) (v : pyval) : Z :=
  match py_int v with
  | Some z => (total + z)%Z
  | None => total
  end.

Record totals_t : Type := {
  total_views : Z;
  total_likes : Z;
  total_comments : Z
}.

Definition totals_step (t : totals_t) (e : item) : totals_t :=
  let m := metrics e in
  {| total_views := add_int (total_views t) (py_or (views m) (PInt 0));
     total_likes := add_int (total_likes t) (py_or (likes m) (PInt 0));
     total_comments :=
       add_int (total_comments t)
               (py_or (comments m) (py_or (replies m) (PInt 0))) |}.

Definition group_totals (evidence : list item) : totals_t :=
  fold_left totals_step evidence
    {| total_views := 0; total_likes := 0; total_comments := 0 |}.

(** The entries that [popularity_metrics.update] writes; [None] is the
    Python [None] the ratios start from. *)
Record popularity_totals : Type := {
  pm_views : Z;
  pm_likes : Z;
  pm_comments : Z;
  like_to_view_ratio : option Q;
  comment_to_view_ratio : option Q
}.

(** [total / total_views], a true division of two [int]s; [None] is the
    [OverflowError] of a quotient that has no double. *)
Definition ratio (total total_views : Z) : option Q :=
  if (Z.abs total <? pyfloat.overflow_bound * Z.abs total_views)%Z
  then Some (inject_Z total / inject_Z total_views)%Q
  else None.

(** The totals and the two ratios of a group; [None] when a division
    raises. *)
Definition aggregate_totals (evidence : list item)
  : option popularity_totals :=
  let t := group_totals evidence in
  if (0 <? total_views t)%Z then
    do l <- ratio (total_likes t) (total_views t);
    do c <- ratio (total_comments t) (total_views t);
    Some {| pm_views := total_views t;
            pm_likes := total_likes t;
            pm_comments := total_comments t;
            like_to_view_ratio := Some l;
            comment_to_view_ratio := Some c |}
  else
    Some {| pm_views := total_views t;
            pm_likes := total_likes t;
            pm_comments := total_comments t;
            like_to_view_ratio := None;
            comment_to_view_ratio := None |}.

End ingest.

(** ** The [workflows] table and [upsert_to_db] *)

Module Workflow.

Section Columns.

(** The type of JSON column values, with Python's truth test on them and
    the literals [[]] and [{}]. *)
Variable json : Type.
Variable json_truthy : json -> bool.
Variable empty_list empty_dict : json.

(** A row of the table [workflows] (app/models.py). *)
Record row : Type := {
  id : string;
  workflow : option string;
  platform : option string;
  source_id : option string;
  source_url : option string;
  keywords : json;
  country : option string;
  popularity_metrics : json;
  popularity_score : R;
  score_components : json;
  last_updated : option datetime;
  evidence_count : Z;
  created_at : option Z
}.

Definition table : Type := list row.

(** [row.col = excluded.col] for one column name *)
Definition assign (col : string) (excluded target : row) : row :=
  let t := target in
  let e := excluded in
  if String.eqb col "id" then
    Build_row (id e) (workflow t) (platform t) (source_id t) (source_url t)
      (keywords t) (country t) (popularity_metrics t) (popularity_score t)
      (score_components t) (last_updated t) (evidence_count t) (created_at t)
  else if String.eqb col "workflow" then
    Build_row (id t) (workflow e) (platform t) (source_id t) (source_url t)
      (keywords t) (country t) (popularity_metrics t) (popularity_score t)
      (score_components t) (last_updated t) (evidence_count t) (created_at t)
  else if String.eqb col "platform" then
    Build_row (id t) (workflow t) (platform e) (source_id t) (source_url t)
      (keywords t) (country t) (popularity_metrics t) (popularity_score t)
      (score_components t) (last_updated t) (evidence_count t) (created_at t)
  else if String.eqb col "source_id" then
    Build_row (id t) (workflow t) (platform t) (source_id e) (source_url t)
      (keywords t) (country t) (popularity_metrics t) (popularity_score t)
      (score_components t) (last_updated t) (evidence_count t) (created_at t)
  else if String.eqb col "source_url" then
    Build_row (id t) (workflow t) (platform t) (source_id t) (source_url e)
      (keywords t) (country t) (popularity_metrics t) (popularity_score t)
      (score_components t) (last_updated t) (evidence_count t) (created_at t)
  else if String.eqb col "keywords" then
    Build_row (id t) (workflow t) (platform t) (source_id t) (source_url t)
      (keywords e) (country t) (popularity_metrics t) (popularity_score t)
      (score_components t) (last_updated t) (evidence_count t) (created_at t)
  else if String.eqb col "country" then
    Build_row (id t) (workflow t) (platform t) (source_id t) (source_url t)
      (keywords t) (country e) (popularity_metrics t) (popularity_score t)
      (score_components t) (last_updated t) (evidence_count t) (created_at t)
  else if String.eqb col "popularity_metrics" then
    Build_row (id t) (workflow t) (platform t) (source_id t) (source_url t)
      (keywords t) (country t) (popularity_metrics e) (popularity_score t)
      (score_components t) (last_updated t) (evidence_count t) (created_at t)
  else if String.eqb col "popularity_score" then
    Build_row (id t) (workflow t) (platform t) (source_id t) (source_url t)
      (keywords t) (country t) (popularity_metrics t) (popularity_score e)
      (score_components t) (last_updated t) (evidence_count t) (created_at t)
  else if String.eqb col "score_components" then
    Build_row (id t) (workflow t) (platform t) (source_id t) (source_url t)
      (keywords t) (country t) (popularity_metrics t) (popularity_score t)
      (score_components e) (last_updated t) (evidence_count t) (created_at t)
  else if String.eqb col "last_updated" then
    Build_row (id t) (workflow t) (platform t) (source_id t) (source_url t)
      (keywords t) (country t) (popularity_metrics t) (popularity_score t)
      (score_components t) (last_updated e) (evidence_count t) (created_at t)
  else if String.eqb col "evidence_count" then
    Build_row (id t) (workflow t) (platform t) (source_id t) (source_url t)
      (keywords t) (country t) (popularity_metrics t) (popularity_score t)
      (score_components t) (last_updated t) (evidence_count e) (created_at t)
  else if String.eqb col "created_at" then
    Build_row (id t) (workflow t) (platform t) (source_id t) (source_url t)
      (keywords t) (country t) (popularity_metrics t) (popularity_score t)
      (score_components t) (last_updated t) (evidence_count t) (created_at e)
  else t.

(** The keys of the [update_cols] mapping of [upsert_to_db]; each one is
    assigned [stmt.excluded.<same column>]. *)
Definition update_cols : list string :=
  [ "workflow"; "platform"; "source_url"; "keywords"; "country";
    "popularity_metrics"; "popularity_score"; "score_components";
    "last_updated"; "evidence_count" ].

(** [DO UPDATE SET ...]: the existing row after the assignments *)
Definition do_update (set_ : list string) (excluded existing : row) : row :=
  fold_left (fun target col => assign col excluded target) set_ existing.

Definition opt_str_eqb (a b : option string) : bool :=
  match a, b with
  | Some x, Some y => String.eqb x y
  | _, _ => false
  end.

Definition is_some {A : Type} (o : option A) : bool :=
  match o with Some _ => true | None => false end.

(** the [nullable=False] columns *)
Definition not_null_ok (r : row) : bool :=
  is_some (workflow r) && is_some (platform r) && is_some (source_id r).

(** [INSERT ... VALUES (r) ON CONFLICT (source_id) DO UPDATE SET set_]
    executed on table [t]; [None] is an integrity error.  The column
    [created_at] of a fresh row takes the server default. *)
Definition insert_on_conflict_do_update
    (server_now : Z) (set_ : list string) (r : row) (t : table)
  : option table :=
  if negb (not_null_ok r) then None
  else if existsb (fun x => opt_str_eqb (source_id x) (source_id r)) t then
    Some (map (fun x =>
                 if opt_str_eqb (source_id x) (source_id r)
                 then do_update set_ r x else x) t)
  else if existsb (fun x => String.eqb (id x) (id r)) t then None
  else
    Some (t ++ [Build_row (id r) (workflow r) (platform r) (source_id r)
                  (source_url r) (keywords r) (country r)
                  (popularity_metrics r) (popularity_score r)
                  (score_components r) (last_updated r) (evidence_count r)
                  (Some server_now)]).

(** The value of [last_updated] in a canonical item. *)
Inductive last_updated_t : Type :=
| LuNone
| LuDatetime (d : datetime)
| LuStr (s : string).

(** A canonical item as [upsert_to_db] reads it: [None] is an absent key
    or the value [None]. *)
Record canonical_item : Type := {
  c_id : option string;
  c_workflow : option string;
  c_platform : option string;
  c_source_id : option string;
  c_source_url : option string;
  c_keywords : option json;
  c_country : option string;
  c_popularity_metrics : option json;
  c_popularity_score : option R;
  c_score_components : option json;
  c_last_updated : last_updated_t;
  c_evidence_count : option Z
}.

Definition or_json (o : option json) (default : json) : json :=
  match o with
  | Some j => if json_truthy j then j else default
  | None => default
  end.

(** [s.rstrip("Z")] *)
Definition rstrip_Z (s : string) : string :=
  let fix drop (l : list ascii) : list ascii :=
    match l with
    | [] => []
    | c :: l' => if Ascii.eqb c "Z"%char then drop l' else l
    end in
  string_of_list_ascii (rev (drop (rev (list_ascii_of_string s)))).

Variable fromisoformat : string -> option datetime.
Variable uuid4 : nat -> string.

(** Whether [conn.execute] delivers the statement for a row: the
    database driver binds the values of the row to the column types of
    the table (app/models.py) and hands the statement to the server.  The
    driver is not part of the repository; an aware datetime for the
    column [last_updated], a [TIMESTAMP] without time zone, is a value it
    refuses. *)
Variable accepts : row -> bool.

(** The [row] dictionary built for one item, with the number of
    identifiers drawn. *)
Definition build_row (drawn : nat) (item : canonical_item) : nat * row :=
  let (drawn', the_id) :=
    match c_id item with
    | Some s => if String.eqb s EmptyString then (S drawn, uuid4 drawn) else (drawn, s)
    | None => (S drawn, uuid4 drawn)
    end in
  (drawn',
   {| id := the_id;
      workflow := c_workflow item;
      platform := c_platform item;
      source_id := c_source_id item;
      source_url := c_source_url item;
      keywords := or_json (c_keywords item) empty_list;
      country := c_country item;
      popularity_metrics := or_json (c_popularity_metrics item) empty_dict;
      popularity_score :=
        match c_popularity_score item with Some x => x | None => 0%R end;
      score_components := or_json (c_score_components item) empty_dict;
      last_updated :=
        match c_last_updated item with
        | LuNone => None
        | LuDatetime d => Some d
        | LuStr s => fromisoformat (rstrip_Z s)
        end;
      evidence_count :=
        match c_evidence_count item with Some n => n | None => 0%Z end;
      created_at := None |}).

(** The loop of [upsert_to_db] inside [engine.begin()]: [conn.execute]
    raises when the driver refuses the row or the statement fails, and
    the first exception aborts the transaction. *)
Fixpoint upsert_loop (server_now : Z) (drawn : nat)
    (canonical_items : list canonical_item) (t : table) : option table :=
  match canonical_items with
  | [] => Some t
  | item :: rest =>
      let (drawn', r) := build_row drawn item in
      if accepts r then
        match insert_on_conflict_do_update server_now update_cols r t with
        | Some t' => upsert_loop server_now drawn' rest t'
        | None => None
        end
      else None
  end.

(** [upsert_to_db]: the returned flag and the table afterwards (unchanged
    when the transaction is rolled back). *)
Definition upsert_to_db (server_now : Z)
    (canonical_items : list canonical_item) (t : table) : bool * table :=
  match upsert_loop server_now 0 canonical_items t with
  | Some t' => (true, t')
  | None => (false, t)
  end.

End Columns.

Arguments Build_row {json}.
Arguments id {json} r.
Arguments workflow {json} r.
Arguments platform {json} r.
Arguments source_id {json} r.
Arguments source_url {json} r.
Arguments keywords {json} r.
Arguments country {json} r.
Arguments popularity_metrics {json} r.
Arguments popularity_score {json} r.
Arguments score_components {json} r.
Arguments last_updated {json} r.
Arguments evidence_count {json} r.
Arguments created_at {json} r.
Arguments assign {json} col excluded target.
Arguments do_update {json} set_ excluded existing.
Arguments not_null_ok {json} r.
Arguments insert_on_conflict_do_update {json} server_now set_ r t.
Arguments Build_canonical_item {json}.
Arguments c_id {json} c.
Arguments c_workflow {json} c.
Arguments c_platform {json} c.
Arguments c_source_id {json} c.
Arguments c_source_url {json} c.
Arguments c_keywords {json} c.
Arguments c_country {json} c.
Arguments c_popularity_metrics {json} c.
Arguments c_popularity_score {json} c.
Arguments c_score_components {json} c.
Arguments c_last_updated {json} c.
Arguments c_evidence_count {json} c.
Arguments or_json {json} json_truthy o default.
Arguments build_row {json} json_truthy empty_list empty_dict fromisoformat
  uuid4 drawn item.
Arguments upsert_loop {json} json_truthy empty_list empty_dict fromisoformat
  uuid4 accepts server_now drawn canonical_items t.
Arguments upsert_to_db {json} json_truthy empty_list empty_dict fromisoformat
  uuid4 accepts server_now canonical_items t.

End Workflow.

(** ** The fetch helpers of the collectors *)

(** A parsed JSON body. *)
Local Unset Elimination Schemes.
Inductive json_value : Type :=
| JNull
| JBool (b : bool)
| JNum (q : Q)
| JStr (s : string)
| JArr (l : list json_value)
| JObj (l : list (string * json_value)).
Local Set Elimination Schemes.

(** What one [client.get] does: a response with its status code and its
    body ([None] when [resp.json()] cannot parse it), or a raised
    [httpx.RequestError]. *)
Inductive outcome : Type :=
| Response (status_code : Z) (body : option json_value)
| RequestError.

Inductive exn : Type :=
| RuntimeError
| JSONDecodeError.

Inductive result : Type :=
| Returned (payload : json_value)
| Raised (e : exn).

(** [resp.raise_for_status()] raises [httpx.HTTPStatusError] unless the
    status is a 2xx one. *)
Definition status_raises (status_code : Z) : bool :=
  negb ((200 <=? status_code)%Z && (status_code <? 300)%Z).

Module youtube_collector.

Record state : Type := {
  _yt_key_index : nat;          (* the module-level rotation cursor *)
  params_key : option string;   (* params["key"] *)
  sleeps : list Q               (* the delays slept so far, in seconds *)
}.

Definition sleep (d : Q) (st : state) : state :=
  {| _yt_key_index := _yt_key_index st;
     params_key := params_key st;
     sleeps := sleeps st ++ [d] |}.

Section Get.

Variable YOUTUBE_API_KEYS : list string.

(** [transport k] is the outcome of the [k]-th request of the call. *)
Variable transport : nat -> outcome.

(** the block under [if YOUTUBE_API_KEYS:] *)
Definition rotate (st : state) : state :=
  match YOUTUBE_API_KEYS with
  | [] => st
  | _ :: _ =>
      let i := ((_yt_key_index st + 1) mod List.length YOUTUBE_API_KEYS)%nat in
      {| _yt_key_index := i;
         params_key :=
           match nth_error YOUTUBE_API_KEYS i with
           | Some k => Some k
           | None => params_key st
           end;
         sleeps := sleeps st |}
  end.

(** The [for attempt in range(retries)] loop with [remaining] iterations
    to go, followed by the final [raise]. *)
Fixpoint get_loop (remaining attempt : nat) (backoff : Q) (st : state)
  : result * state :=
  match remaining with
  | O => (Raised RuntimeError, st)
  | S remaining' =>
      match transport attempt with
      | RequestError =>
          get_loop remaining' (S attempt) (backoff * 2)%Q (sleep backoff st)
      | Response status_code body =>
          if (status_code =? 200)%Z then
            match body with
            | Some j => (Returned j, st)
            | None => (Raised JSONDecodeError, st)
            end
          else if (status_code =? 429)%Z || (status_code =? 403)%Z then
            get_loop remaining' (S attempt) (backoff * 2)%Q
                     (sleep backoff (rotate st))
          else if status_raises status_code then
            get_loop remaining' (S attempt) (backoff * 2)%Q (sleep backoff st)
          else
            get_loop remaining' (S attempt) backoff st
      end
  end.

Definition _get (retries : nat) (st : state) : result * state :=
  get_loop retries 0 1%Q st.

End Get.

End youtube_collector.

Module discourse_collector.

Section Get.

Variable transport : nat -> outcome.

(** [jitter k] is the value of [math.sin(time.time()) % 1] read while
    handling the [k]-th request. *)
Variable jitter : nat -> Q.

Definition min10 (x : Q) : Q := if Qle_bool 10 x then 10%Q else x.

(** The [for attempt in range(retries)] loop with [remaining] iterations
    to go, followed by the final [return {}]; the second component lists
    the delays slept. *)
Fixpoint get_loop (remaining attempt : nat) (backoff : Q) (sleeps : list Q)
  : result * list Q :=
  match remaining with
  | O => (Returned (JObj []), sleeps)
  | S remaining' =>
      match transport attempt with
      | RequestError =>
          get_loop remaining' (S attempt)
                   (min10 (backoff * 2 + jitter attempt)%Q)
                   (sleeps ++ [backoff])
      | Response status_code body =>
          if (status_code =? 200)%Z then
            match body with
            | Some j => (Returned j, sleeps)
            | None => (Returned (JObj []), sleeps)
            end
          else if (status_code =? 429)%Z || (status_code =? 503)%Z then
            get_loop remaining' (S attempt) (backoff * 2)%Q
                     (sleeps ++ [backoff])
          else if status_raises status_code then
            get_loop remaining' (S attempt)
                     (min10 (backoff * 2 + jitter attempt)%Q)
                     (sleeps ++ [backoff])
          else
            get_loop remaining' (S attempt) backoff sleeps
      end
  end.

Definition _get (retries : nat) : result * list Q :=
  get_loop retries 0 (1 # 2)%Q [].

End Get.

End discourse_collector.

(** ** A parser for the timestamps the collectors emit

    [datetime.fromisoformat] is a parameter of the scoring functions.  The
    function below reads the two layouts [YYYY-MM-DDTHH:MM:SS] (naive) and
    [YYYY-MM-DDTHH:MM:SS+00:00] (UTC) and serves as a concrete instance. *)

Module iso8601.

Definition digit_of (c : ascii) : option Z :=
  if ingest.is_digit c then Some (Z.of_nat (nat_of_ascii c - 48)) else None.

Fixpoint number_of (l : list ascii) (acc : Z) : option Z :=
  match l with
  | [] => Some acc
  | c :: l' => do d <- digit_of c; number_of l' (10 * acc + d)%Z
  end.

(** Days from 1970-01-01 to the given civil date (proleptic Gregorian). *)
Definition days_from_civil (y m d : Z) : Z :=
  let y' := (if m <=? 2 then y - 1 else y)%Z in
  let era := (y' / 400)%Z in
  let yoe := (y' - era * 400)%Z in
  let mp := ((m + 9) mod 12)%Z in
  let doy := ((153 * mp + 2) / 5 + d - 1)%Z in
  let doe := (yoe * 365 + yoe / 4 - yoe / 100 + doy)%Z in
  (era * 146097 + doe - 719468)%Z.

Definition field (l : list ascii) (start len : nat) : option Z :=
  let f := firstn len (skipn start l) in
  if (List.length f =? len)%nat then number_of f 0 else None.

Definition sep_ok (l : list ascii) (pos : nat) (c : ascii) : bool :=
  match nth_error l pos with
  | Some c' => Ascii.eqb c c'
  | None => false
  end.

Definition fromisoformat (s : string) : option datetime :=
  let l := list_ascii_of_string s in
  let n := List.length l in
  if negb (sep_ok l 4 "-" && sep_ok l 7 "-" && sep_ok l 10 "T"
           && sep_ok l 13 ":" && sep_ok l 16 ":") then None
  else
    do y <- field l 0 4; do mo <- field l 5 2; do d <- field l 8 2;
    do h <- field l 11 2; do mi <- field l 14 2; do sec <- field l 17 2;
    if negb ((1 <=? mo) && (mo <=? 12) && (1 <=? d) && (d <=? 31)
             && (h <=? 23) && (mi <=? 59) && (sec <=? 59))%Z then None
    else
      let us :=
        ((days_from_civil y mo d * 86400 + h * 3600 + mi * 60 + sec)
         * 1000000)%Z in
      if (n =? 19)%nat then Some (Naive us)
      else if (n =? 25)%nat
              && String.eqb (string_of_list_ascii (skipn 19 l)) "+00:00"
           then Some (Aware us)
           else None.

End iso8601.

(** ** The canonical records of [run_ingest]

    The part of [run_ingest] between the reading of the raw evidence and
    the hand-over to storage: one canonical record per group.  The
    constant entry [keywords] and the ingest time [last_updated] are left
    out; of [popularity_metrics] the record keeps the metrics of the
    representative and the entries written over them. *)

Module ingest_run.

(** [c[x] += 1] on a [Counter], whose keys stay in insertion order *)
Fixpoint counter_add (x : string) (c : list (string * nat))
  : list (string * nat) :=
  match c with
  | [] => [(x, 1%nat)]
  | (y, n) :: c' =>
      if String.eqb y x then (y, S n) :: c' else (y, n) :: counter_add x c'
  end.

Definition Counter (l : list string) : list (string * nat) :=
  fold_left (fun c x => counter_add x c) l [].

(** [max(items, key=itemgetter(1))]: the first entry of maximal count *)
Fixpoint first_max (best : string * nat) (c : list (string * nat))
  : string * nat :=
  match c with
  | [] => best
  | p :: c' =>
      if (snd best <? snd p)%nat then first_max p c' else first_max best c'
  end.

(** [c.most_common(1)] *)
Definition most_common_1 (c : list (string * nat)) : list (string * nat) :=
  match c with
  | [] => []
  | p :: c' => [first_max p c']
  end.

(** [Counter(l).most_common(1)[0][0] if l else default] *)
Definition most_common_or (l : list string) (default : string) : string :=
  match most_common_1 (Counter l) with
  | p :: _ => fst p
  | [] => default
  end.

(** [[x for x in l if x]] on optional strings *)
Definition truthy_strings (l : list (option string)) : list string :=
  flat_map (fun o =>
              match o with
              | Some s => if String.eqb s EmptyString then [] else [s]
              | None => []
              end) l.

(** the entries of an evidence item, under names that the fields of the
    canonical record do not hide *)
Definition item_platform (e : item) : option string := platform e.
Definition item_source_id (e : item) : option string := source_id e.
Definition item_source_url (e : item) : option string := source_url e.
Definition item_country (e : item) : option string := country (metrics e).

Record canonical : Type := {
  id : string;
  workflow : string;
  platform : string;
  source_id : option string;
  source_url : option string;
  country : option string;
  evidence_count : nat;
  evidence : list item;
  rep_metrics : metrics_t;
  totals : ingest.popularity_totals;
  popularity_score : R;
  score_components : score.components
}.

Section Run.

Variable fromisoformat : string -> option datetime.
Variable now : Z.
Variable uuid4 : nat -> string.

(** The body of the loop over [groups.items()]; [None] when
    [aggregate_workflow] raises, when a ratio of the totals raises, or
    when the group has no first item. *)
Definition canonical_of_group (the_id key : string) (evidence : list item)
  : option canonical :=
  let titles := map ingest.title_of evidence in
  let workflow_name := most_common_or titles key in
  let platforms := truthy_strings (map item_platform evidence) in
  let platform := most_common_or platforms "mixed" in
  let countries :=
    truthy_strings (map item_country evidence) in
  let country :=
    match most_common_1 (Counter countries) with
    | p :: _ => Some (fst p)
    | [] => None
    end in
  do agg <- score_range.aggregate_workflow fromisoformat now evidence None;
  do tot <- ingest.aggregate_totals evidence;
  match evidence with
  | [] => None
  | rep :: _ =>
      Some {| id := the_id;
              workflow := workflow_name;
              platform := platform;
              source_id := item_source_id rep;
              source_url := item_source_url rep;
              country := country;
              evidence_count := List.length evidence;
              evidence := evidence;
              rep_metrics := metrics rep;
              totals := tot;
              popularity_score := score.popularity_score agg;
              score_components := score.score_components agg |}
  end.

Fixpoint canonical_loop (drawn : nat) (groups : ingest.groups_t)
  : option (list canonical) :=
  match groups with
  | [] => Some []
  | (key, evidence) :: rest =>
      do c <- canonical_of_group (uuid4 drawn) key evidence;
      do cs <- canonical_loop (S drawn) rest;
      Some (c :: cs)
  end.

(** The list [canonical] that [run_ingest] builds from the raw evidence;
    the identifiers of the records are drawn after those of the
    grouping. *)
Definition build_canonical (raw : list item) : option (list canonical) :=
  let st := fold_left (ingest.group_step uuid4) raw (0%nat, []) in
  canonical_loop (fst st) (snd st).

End Run.

End ingest_run.

(** ** app/collectors/discourse_collector.py: inference of countries and
    collection of seed queries *)

Module discourse_queries.

(** [needle in hay] on strings *)
Fixpoint contains (needle hay : string) : bool :=
  String.prefix needle hay
  || match hay with
     | EmptyString => false
     | String _ hay' => contains needle hay'
     end.

Definition upper_char (c : ascii) : ascii :=
  if ingest.is_lower c then ascii_of_nat (nat_of_ascii c - 32) else c.

(** [s.lower()], [s.upper()] and [s.strip()] *)
Definition lower (s : string) : string :=
  string_of_list_ascii (map ingest.lower_char (list_ascii_of_string s)).

Definition upper (s : string) : string :=
  string_of_list_ascii (map upper_char (list_ascii_of_string s)).

Definition strip (s : string) : string :=
  string_of_list_ascii (ingest.strip (list_ascii_of_string s)).

(** The heuristics of [infer_user_country] on a non-empty candidate text:
    the country code, or [None] when no rule applies. *)
Definition country_of_text (cand : string) : option string :=
  let s := lower cand in
  let has w := contains w s in
  if has "india"
     || has "in" && (has "india" || has "delhi" || has "mumbai"
                     || has "bangalore" || has "bengal")
  then Some "IN"
  else if has "india" || has "bharat" || has "mumbai" || has "delhi"
  then Some "IN"
  else if has "united states" || has "usa" || has "us" || has "america"
          || has "new york" || has "san francisco" || has "california"
  then Some "US"
  else if String.eqb "in" (strip s) || String.eqb (upper (strip s)) "IN"
  then Some "IN"
  else if String.eqb "us" (strip s) || String.eqb (upper (strip s)) "US"
  then Some "US"
  else None.

(** The fields of a user document that [infer_user_country] reads, each a
    string when present; [user_fields] lists the values of the mapping
    of custom fields. *)
Record profile : Type := {
  location : option string;
  bio_raw : option string;
  user_fields : option (list (option string))
}.

(** the dictionary [_user_country_cache] *)
Definition cache_t : Type := list (string * option string).

Fixpoint cache_get (username : string) (cache : cache_t)
  : option (option string) :=
  match cache with
  | [] => None
  | (u, v) :: cache' =>
      if String.eqb u username then Some v else cache_get username cache'
  end.

Fixpoint cache_set (username : string) (v : option string) (cache : cache_t)
  : cache_t :=
  match cache with
  | [] => [(username, v)]
  | (u, w) :: cache' =>
      if String.eqb u username then (u, v) :: cache'
      else (u, w) :: cache_set username v cache'
  end.

(** [" ".join(str(v) for v in uf.values() if v)] *)
Definition join_fields (values : list (option string)) : string :=
  String.concat " " (ingest_run.truthy_strings values).

Section Infer.

(** [fetch username] is the user document that [_get] returns for the
    profile of [username] (all fields absent when the request fails). *)
Variable fetch : string -> profile.

(** [infer_user_country]: the result, the cache afterwards and whether
    the profile was requested. *)
Definition infer_user_country (cache : cache_t) (username : string)
  : option string * cache_t * bool :=
  if String.eqb username EmptyString then (None, cache, false)
  else
    match cache_get username cache with
    | Some v => (v, cache, false)
    | None =>
        let user := fetch username in
        let cand0 :=
          match location user with
          | Some l => if String.eqb l EmptyString then bio_raw user else Some l
          | None => bio_raw user
          end in
        let cand :=
          if ingest.str_truthy cand0 then cand0
          else match user_fields user with
               | Some values => Some (join_fields values)
               | None => None
               end in
        let found :=
          match cand with
          | Some c =>
              if String.eqb c EmptyString then None else country_of_text c
          | None => None
          end in
        (found, cache_set username found cache, true)
    end.

End Infer.

(** equality of two [source_id] entries, [None] included *)
Definition sid_eqb (a b : option string) : bool :=
  match a, b with
  | Some x, Some y => String.eqb x y
  | None, None => true
  | _, _ => false
  end.

(** the loop that de-duplicates by [source_id] at the end of
    [collect_seed_queries] *)
Fixpoint dedup (seen : list (option string)) (items : list item) : list item :=
  match items with
  | [] => []
  | i :: rest =>
      let sid := source_id i in
      if existsb (sid_eqb sid) seen then dedup seen rest
      else i :: dedup (sid :: seen) rest
  end.

Section CollectSeed.

(** [search_topics q p] and [collect_recent_topics n]; [None] when the
    call raises. *)
Variable search_topics : string -> nat -> option (list item).
Variable collect_recent_topics : nat -> option (list item).

Definition or_nil (o : option (list item)) : list item :=
  match o with Some l => l | None => [] end.

Definition search_all (seed_queries : list string) (max_pages : nat)
  : list item :=
  flat_map (fun q =>
              flat_map (fun p => or_nil (search_topics q p)) (seq 0 max_pages))
           seed_queries.

Definition title_matches (q : string) (t : item) : bool :=
  contains (lower q) (lower (ingest.or_str (title t) EmptyString)).

Definition recent_matches (seed_queries : list string) (max_pages : nat)
  : list item :=
  match collect_recent_topics (max_pages * 2) with
  | Some recent =>
      flat_map (fun q => filter (title_matches q) recent) seed_queries
  | None => []
  end.

Definition collect_seed_queries (seed_queries : list string) (max_pages : nat)
  : list item :=
  let items := search_all seed_queries max_pages in
  let items :=
    match items with
    | [] => recent_matches seed_queries max_pages
    | _ :: _ => items
    end in
  dedup [] items.

End CollectSeed.

End discourse_queries.

(** ** app/api/workflows.py: the file fallback *)

Module api_workflows.

(** The object [json.load] builds keeps the last value of a repeated key. *)
Fixpoint lookup (k : string) (kvs : list (string * json_value))
  : option json_value :=
  match kvs with
  | [] => None
  | (k', v) :: rest =>
      match lookup k rest with
      | Some w => Some w
      | None => if String.eqb k k' then Some v else None
      end
  end.

(** [d.get(k, default)] on a dictionary *)
Definition get (kvs : list (string * json_value)) (k : string)
    (default : json_value) : json_value :=
  match lookup k kvs with
  | Some v => v
  | None => default
  end.

(** truth value of a loaded JSON value; [JNull] is [None] *)
Definition truthy (j : json_value) : bool :=
  match j with
  | JNull => false
  | JBool b => b
  | JNum q => negb (Qnum q =? 0)%Z
  | JStr s => negb (String.eqb s EmptyString)
  | JArr l => match l with [] => false | _ :: _ => true end
  | JObj l => match l with [] => false | _ :: _ => true end
  end.

Definition or_ (a b : json_value) : json_value :=
  if truthy a then a else b.

(** A dictionary appended to [out]. *)
Record out_item : Type := {
  workflow : json_value;
  platform : json_value;
  source_id : json_value;
  source_url : json_value;
  keywords : json_value;
  country : json_value;
  popularity_metrics : json_value;
  popularity_score : json_value;
  score_components : json_value;
  last_updated : json_value
}.

(** [it.get("country") or it.get("metrics", {}).get("country") or None]:
    the second operand is evaluated only when the first is falsy, and its
    [.get] raises on anything that is not a dictionary. *)
Definition country_of (kvs : list (string * json_value)) : option json_value :=
  if truthy (get kvs "country" JNull) then Some (get kvs "country" JNull)
  else
    match get kvs "metrics" (JObj []) with
    | JObj m => Some (or_ (get m "country" JNull) JNull)
    | _ => None
    end.

(** The dictionary built for one entry; [None] is the [AttributeError] of
    a [.get] on something that is not a dictionary. *)
Definition shape (it : json_value) : option out_item :=
  match it with
  | JObj kvs =>
      do c <- country_of kvs ;
      Some {| workflow :=
                or_ (get kvs "workflow" JNull)
                  (or_ (get kvs "title" JNull)
                     (or_ (get kvs "keyword" JNull) (JStr EmptyString)));
              platform := get kvs "platform" JNull;
              source_id := get kvs "source_id" JNull;
              source_url :=
                or_ (get kvs "source_url" JNull) (get kvs "keyword" JNull);
              keywords := or_ (get kvs "keywords" JNull) (JArr []);
              country := c;
              popularity_metrics :=
                or_ (get kvs "popularity_metrics" JNull)
                  (get kvs "metrics" JNull);
              popularity_score := get kvs "popularity_score" JNull;
              score_components := get kvs "score_components" JNull;
              last_updated :=
                or_ (get kvs "last_updated" JNull) (get kvs "scrape_ts" JNull)
           |}
  | _ => None
  end.

(** [_load_fallback(limit, offset)]; [data] is the array held by the data
    file that exists, [None] when neither file does. *)
Definition _load_fallback (data : option (list json_value))
    (limit offset : nat) : option (list out_item) :=
  match data with
  | None => Some []
  | Some items => mapM shape (firstn limit (skipn offset items))
  end.

(** the page [list_workflows] serves from the files *)
Definition list_workflows_fallback (data : option (list json_value))
    (limit page : nat) : option (list out_item) :=
  _load_fallback data limit ((page - 1) * limit).

Definition matches (workflow_id : string) (o : out_item) : bool :=
  match source_id o with
  | JStr s => String.eqb s workflow_id
  | _ => false
  end.

(** The search of [get_workflow] in the files.  The dictionaries of
    [_load_fallback] have no entry [id], so [it.get("id")] is [None] and
    never equal to the string [workflow_id].  The outer [None] is an
    exception of [_load_fallback], [Some None] the 404. *)
Definition get_workflow_fallback (data : option (list json_value))
    (workflow_id : string) : option (option out_item) :=
  do items <- _load_fallback data 1000 0 ;
  Some (find (matches workflow_id) items).

End api_workflows.

(** ** app/collectors/trends_collector.py: the growth figures *)

Module trends_collector.

(** [sum(l)] *)
Definition Qsum (l : list Q) : Q := fold_left Qplus l 0.

(** [max(1, x)] on a float and on a length *)
Definition max1 (x : Q) : Q := if Qlt_le_dec 1 x then x else 1.

Definition max1_len (n : nat) : Q := inject_Z (Z.max 1 (Z.of_nat n)).

(** [vals[-k:]] *)
Definition last_ (k : nat) (vals : list Q) : list Q :=
  skipn (List.length vals - k) vals.

(** [vals[:-k]] *)
Definition but_last (k : nat) (vals : list Q) : list Q :=
  firstn (List.length vals - k) vals.

Record windows : Type := {
  last30 : Q;
  prev30 : Q;
  last60 : Q;
  prev60 : Q
}.

(** The chain of [if]/[elif] on [len(vals)] in [collect_keyword_trends];
    its third branch repeats the condition of the second and is never
    taken. *)
Definition windows_of (vals : list Q) : windows :=
  let n := List.length vals in
  if (60 <=? n)%nat then
    let l60 := Qsum (last_ 60 vals) / inject_Z 60 in
    {| last30 := Qsum (last_ 30 vals) / inject_Z 30;
       prev30 := Qsum (firstn 30 (last_ 60 vals)) / inject_Z 30;
       last60 := l60;
       prev60 :=
         if (60 <? n)%nat
         then Qsum (but_last 60 vals)
              / max1_len (List.length (but_last 60 vals))
         else l60 |}
  else if (30 <=? n)%nat then
    let l30 := Qsum (last_ 30 vals) / inject_Z 30 in
    let p30 := Qsum (but_last 30 vals)
               / max1_len (List.length (but_last 30 vals)) in
    {| last30 := l30; prev30 := p30; last60 := l30; prev60 := p30 |}
  else
    match vals with
    | _ :: _ =>
        let l30 := Qsum vals / inject_Z (Z.of_nat n) in
        {| last30 := l30; prev30 := l30; last60 := l30; prev60 := l30 |}
    | [] => {| last30 := 0; prev30 := 0; last60 := 0; prev60 := 0 |}
    end.

(** [(last - prev) / max(1, prev) if prev != 0 else 0.0] *)
Definition growth_of (last prev : Q) : Q :=
  if Qeq_bool prev 0 then 0 else (last - prev) / max1 prev.

Definition growth_pct_30d (vals : list Q) : Q :=
  growth_of (last30 (windows_of vals)) (prev30 (windows_of vals)).

Definition growth_pct_60d (vals : list Q) : Q :=
  growth_of (last60 (windows_of vals)) (prev60 (windows_of vals)).

End trends_collector.

(** ** Notions used to state the properties *)

(** A count or a rate of a well-formed item is a number or is absent. *)
Definition metric_ok (v : pyval) : bool :=
  match v with
  | PNone | PBool _ | PInt _ | PFloat _ => true
  | PStr _ | PColl _ => false
  end.

(** An entry of a well-formed interest series leads to a number. *)
Definition iot_entry_ok (e : iot_entry) : bool :=
  match e with
  | IotDict [] => false
  | IotDict (v :: _) => is_number v
  | IotVal v => is_number v
  end.

(** Well-formed evidence: numeric or absent metrics, a numeric interest
    series; the timestamps are unconstrained. *)
Definition well_formed_item (it : item) : bool :=
  let m := metrics it in
  metric_ok (views m) && metric_ok (likes m) && metric_ok (comments m)
  && metric_ok (replies m) && metric_ok (growth_pct_30d m)
  && forallb iot_entry_ok (interest_over_time m).

(** The arithmetic mean as the specification writes it. *)
Definition arithmetic_mean (l : list R) : R :=
  (fold_right Rplus 0 l / INR (List.length l))%R.

(** The recency timestamp [compute_item_scores] reads from an item. *)
Definition recency_of (it : item) : pyval :=
  py_or (published_at (metrics it)) (py_or (first_post_ts (metrics it)) PNone).

(** The timestamp of [it], when it parses to an aware datetime, is not
    later than [now]. *)
Definition not_in_future (fromisoformat : string -> option datetime)
    (now : Z) (it : item) : Prop :=
  match recency_of it with
  | PStr s =>
      match fromisoformat (replace_Z s) with
      | Some (Aware dt) => (dt <= now)%Z
      | _ => True
      end
  | _ => True
  end.

(** 2026-11-03T00:00:00 UTC in microseconds since the epoch *)
Definition sample_now : Z := 1793664000000000.

Definition video_item (published : pyval) : item :=
  {| platform := Some "YouTube"; source_id := Some "youtube:abc";
     source_url := None; title := Some "Build a Slack bot"; keyword := None;
     metrics :=
       {| views := PInt 1000; likes := PInt 50; comments := PInt 10;
          replies := PNone; growth_pct_30d := PNone;
          published_at := published; first_post_ts := PNone;
          interest_over_time := []; country := Some "US" |} |}.

Definition forum_item : item :=
  {| platform := Some "Discourse"; source_id := Some "discourse:77";
     source_url := None; title := Some "Build a Slack bot!"; keyword := None;
     metrics := no_metrics |}.

Definition huge_item : item :=
  {| platform := Some "YouTube"; source_id := Some "youtube:big";
     source_url := None; title := Some "Viral"; keyword := None;
     metrics :=
       {| views := PInt (10 ^ 30); likes := PInt (10 ^ 40);
          comments := PInt (10 ^ 50); replies := PNone;
          growth_pct_30d := PFloat (10 ^ 9 # 1);
          published_at := PStr "2026-10-04T00:00:00Z"; first_post_ts := PNone;
          interest_over_time := []; country := None |} |}.

(** The key of an item when it needs no identifier from [uuid4]: the
    normalized title, or else the non-empty [source_id]. *)
Definition det_key (it : item) : option string :=
  let key := ingest.normalize_title (ingest.title_of it) in
  if String.eqb key EmptyString then
    match source_id it with
    | Some s => if String.eqb s EmptyString then None else Some s
    | None => None
    end
  else Some key.

(** The items paired with the keys the loop of [group_evidence] gives
    them, [drawn] identifiers having been handed out before. *)
Fixpoint assign_keys (uuid4 : nat -> string) (drawn : nat) (items : list item)
  : list (string * item) :=
  match items with
  | [] => []
  | it :: rest =>
      let (drawn', key) := ingest.group_key uuid4 drawn it in
      (key, it) :: assign_keys uuid4 drawn' rest
  end.

Definition has_key (k : string) (ki : string * item) : bool :=
  String.eqb (fst ki) k.

(** Grouping of items whose keys are already known. *)
Definition group_by_keys (keyed : list (string * item)) (g : ingest.groups_t)
  : ingest.groups_t :=
  fold_left (fun g ki => ingest.groups_append (fst ki) (snd ki) g) keyed g.

(** The members of the group stored under [k] ([[]] when there is none). *)
Fixpoint group_of (k : string) (g : ingest.groups_t) : list item :=
  match g with
  | [] => []
  | (k', l) :: g' => if String.eqb k' k then l else group_of k g'
  end.

(** The identifiers handed out by [uuid4] during a run are pairwise
    distinct and differ from every key derived from an item. *)
Definition fresh_supply (uuid4 : nat -> string) (items : list item) : Prop :=
  (forall m n, uuid4 m = uuid4 n -> m = n)
  /\ (forall n it, In it items -> det_key it <> Some (uuid4 n)).

(** Two group tables hold the same lists of items, in the same order,
    under keys that correspond by [R]. *)
Definition related_groups (R : string -> string -> Prop)
    (g1 g2 : ingest.groups_t) : Prop :=
  Forall2 (fun p q => R (fst p) (fst q) /\ snd p = snd q) g1 g2.

Definition related_keyed (R : string -> string -> Prop)
    (k1 k2 : list (string * item)) : Prop :=
  Forall2 (fun p q => R (fst p) (fst q) /\ snd p = snd q) k1 k2.

(** The correspondence between the keys of two runs over [items]: a
    derived key corresponds to itself, the [n]-th identifier of one run
    to the [n]-th identifier of the other. *)
Definition key_rel (uuid_a uuid_b : nat -> string) (items : list item)
    (k1 k2 : string) : Prop :=
  (k1 = k2 /\ exists it, In it items /\ det_key it = Some k1)
  \/ (exists n, k1 = uuid_a n /\ k2 = uuid_b n).

(** The amount a metric value is meant to add to a total: its integer
    value when it is numeric, zero when it is missing or not numeric. *)
Definition numeric_or_zero (v : pyval) : Z :=
  match v with
  | PNone => 0
  | PBool b => if b then 1 else 0
  | PInt z => z
  | PFloat q => Qtrunc q
  | PStr s =>
      match ingest.py_int_of_string s with
      | Some z => z
      | None => 0
      end
  | PColl _ => 0
  end.

(** [v] is missing or is not a number: [int(v)] raises. *)
Definition missing_or_non_numeric (v : pyval) : bool :=
  match ingest.py_int v with
  | Some _ => false
  | None => true
  end.

(** the value summed into [total_comments] *)
Definition comments_or_replies (m : metrics_t) : pyval :=
  py_or (comments m) (replies m).

Definition Zsum (l : list Z) : Z := fold_right Z.add 0%Z l.

(** A transport that answers the [k]-th request with the [k]-th entry of
    a list, and fails once the list is used up. *)
Definition script (l : list outcome) (k : nat) : outcome :=
  nth k l RequestError.

(** the response carries the given status code *)
Definition has_status (code : Z) (o : outcome) : bool :=
  match o with
  | Response c _ => (c =? code)%Z
  | RequestError => false
  end.

(** Python's truth test on a parsed JSON value *)
Definition json_value_truthy (j : json_value) : bool :=
  match j with
  | JNull => false
  | JBool b => b
  | JNum q => negb (Qnum q =? 0)%Z
  | JStr s => negb (String.eqb s EmptyString)
  | JArr [] => false
  | JArr (_ :: _) => true
  | JObj [] => false
  | JObj (_ :: _) => true
  end.

Definition sample_payload : json_value :=
  JObj [("items", JArr [JObj [("id", JStr "abc")]])].

Definition sample_row (the_id name sid : string) (count : Z)
  : Workflow.row json_value :=
  Workflow.Build_row the_id (Some name) (Some "YouTube") (Some sid) None
    (JArr []) (Some "US") (JObj []) 0%R (JObj []) None count (Some 1700000000%Z).

(** A canonical item as [run_ingest] hands it over: its [last_updated]
    is the naive [datetime.utcnow()]. *)
Definition sample_canonical (name sid : string) (count : Z)
  : Workflow.canonical_item json_value :=
  Workflow.Build_canonical_item (Some "fresh-id") (Some name) (Some "Discourse")
    (Some sid) (Some "https://example.org/t/1") None None
    (Some (JObj [("views", JNum (inject_Z 100))])) (Some 1%R) None
    (Workflow.LuDatetime (Naive sample_now)) (Some count).

(** The same item with a [last_updated] given as a string with a UTC
    offset, which [fromisoformat] reads as an aware datetime. *)
Definition aware_canonical (name sid : string) (count : Z)
  : Workflow.canonical_item json_value :=
  Workflow.Build_canonical_item (Some "fresh-id") (Some name) (Some "Discourse")
    (Some sid) (Some "https://example.org/t/1") None None
    (Some (JObj [("views", JNum (inject_Z 100))])) (Some 1%R) None
    (Workflow.LuStr "2026-11-03T00:00:00+00:00") (Some count).

(** A driver for the sample rows: it refuses an aware datetime for the
    column [last_updated] and a count outside the 32-bit integers for
    the column [evidence_count]. *)
Definition sample_accepts (r : Workflow.row json_value) : bool :=
  match Workflow.last_updated r with
  | Some (Aware _) => false
  | _ => true
  end
  && (- 2 ^ 31 <=? Workflow.evidence_count r)%Z
  && (Workflow.evidence_count r <? 2 ^ 31)%Z.

(** A supply of pairwise distinct identifiers, none of them a normalized
    title. *)
Definition sample_uuid4 (tag : string) (n : nat) : string :=
  tag ++ "-" ++ string_of_list_ascii (repeat "0"%char n).

Definition bare_item (t sid : option string) (v : pyval) : item :=
  {| platform := None; source_id := sid; source_url := None; title := t;
     keyword := None;
     metrics :=
       {| views := v; likes := PNone; comments := PNone; replies := PNone;
          growth_pct_30d := PNone; published_at := PNone;
          first_post_ts := PNone; interest_over_time := []; country := None |}
  |}.

(** [item.get("platform") == "GoogleTrends"] *)
Definition is_trends (it : item) : bool :=
  match platform it with
  | Some p => String.eqb p "GoogleTrends"
  | None => false
  end.

(** The value [compute_item_scores] uses as [views]. *)
Definition views_used (it : item) : option pyval :=
  if is_trends it
  then option_map PInt (score.trends_views (interest_over_time (metrics it)))
  else Some (py_or (views (metrics it)) (PInt 0)).

(** [growth_pct_30d or 0.0] *)
Definition growth_used (it : item) : pyval :=
  py_or (growth_pct_30d (metrics it)) (PFloat 0).

Definition in_unit_interval (x : R) : Prop := (0 <= x <= 1)%R.


(** The number [compute_item_scores] takes the logarithm of. *)
Definition views_number (it : item) : option Q :=
  do v <- views_used it; as_number v.

Definition trends_item (series : list iot_entry) (v : pyval) : item :=
  {| platform := Some "GoogleTrends"; source_id := Some "trends:n8n:US";
     source_url := None; title := None; keyword := Some "n8n";
     metrics :=
       {| views := v; likes := PNone; comments := PNone; replies := PNone;
          growth_pct_30d := PFloat (1 # 4); published_at := PNone;
          first_post_ts := PNone; interest_over_time := series;
          country := Some "US" |} |}.

(** A character of a normalized title other than the space. *)
Definition key_char (c : ascii) : bool := ingest.is_lower c || ingest.is_digit c.

(** The characters of [l] are lower-case letters, digits and spaces, and
    no space follows a space; [prev_space] tells that a space precedes
    [l]. *)
Fixpoint collapsed_from (prev_space : bool) (l : list ascii) : bool :=
  match l with
  | [] => true
  | c :: l' =>
      if Ascii.eqb c " "%char then negb prev_space && collapsed_from true l'
      else key_char c && collapsed_from false l'
  end.

(** As [collapsed_from], and [l] does not end on a space (nor is empty
    after a space). *)
Fixpoint normal_from (prev_space : bool) (l : list ascii) : bool :=
  match l with
  | [] => negb prev_space
  | c :: l' =>
      if Ascii.eqb c " "%char then negb prev_space && normal_from true l'
      else key_char c && normal_from false l'
  end.

(** The shape of a normalized title: words of lower-case letters and
    digits, separated by single spaces. *)
Definition is_normal (l : list ascii) : bool :=
  match l with
  | [] => true
  | _ :: _ => normal_from true l
  end.

(** Removal of trailing white space, by recursion on the list. *)
Fixpoint rstrip_d (l : list ascii) : list ascii :=
  match l with
  | [] => []
  | c :: l' =>
      match rstrip_d l' with
      | [] => if ingest.is_space c then [] else [c]
      | r => c :: r
      end
  end.

(** [t.lower()] *)
Definition lower_string (t : string) : string :=
  string_of_list_ascii (map ingest.lower_char (list_ascii_of_string t)).

(** The distinct strings of [l] in the order of their first occurrence,
    those of [seen] left out. *)
Fixpoint firsts_from (seen l : list string) : list string :=
  match l with
  | [] => []
  | x :: l' =>
      if existsb (String.eqb x) seen then firsts_from seen l'
      else x :: firsts_from (x :: seen) l'
  end.

Definition firsts (l : list string) : list string := firsts_from [] l.

(** the number of occurrences of [x] in [l] *)
Definition occurrences (l : list string) (x : string) : nat :=
  count_occ string_dec l x.

Arguments occurrences : simpl never.

(** The constraints of the table [workflows]: [id] is a key, [source_id]
    is unique, and the columns declared [nullable=False] are set. *)
Definition table_ok {json : Type} (t : Workflow.table json) : Prop :=
  NoDup (map Workflow.id t)
  /\ NoDup (map Workflow.source_id t)
  /\ Forall (fun x => Workflow.not_null_ok x = true) t.

(** What the upsert of [r] does to a stored row [x]: the assignments of
    [update_cols] when the two agree on [source_id], nothing otherwise. *)
Definition conflict_update {json : Type} (r x : Workflow.row json)
  : Workflow.row json :=
  if Workflow.opt_str_eqb (Workflow.source_id x) (Workflow.source_id r)
  then Workflow.do_update Workflow.update_cols r x else x.

(** The delays of an exponential backoff: [n] delays, doubling from [b]. *)
Fixpoint backoffs (b : Q) (n : nat) : list Q :=
  match n with
  | O => []
  | S n' => b :: backoffs (b * 2)%Q n'
  end.

(** the response is a 429 or a 403 *)
Definition rate_limited (o : outcome) : bool :=
  has_status 429 o || has_status 403 o.

(** What the video client makes of the body of a 200 response, and what
    the forum client makes of it. *)
Definition youtube_result (body : option json_value) : result :=
  match body with
  | Some p => Returned p
  | None => Raised JSONDecodeError
  end.

Definition discourse_result (body : option json_value) : result :=
  match body with
  | Some p => Returned p
  | None => Returned (JObj [])
  end.

(** An entry of the data file on which the file fallback of the API
    raises: it is not an object, or it has no usable [country] and a
    [metrics] that is present and not an object. *)
Definition is_object (j : json_value) : bool :=
  match j with
  | JObj _ => true
  | _ => false
  end.

Definition malformed_entry (it : json_value) : Prop :=
  match it with
  | JObj kvs =>
      api_workflows.truthy (api_workflows.get kvs "country" JNull) = false
      /\ exists v, api_workflows.lookup "metrics" kvs = Some v
                   /\ is_object v = false
  | _ => True
  end.

(** the entries a call of [_load_fallback] reads *)
Definition window (limit offset : nat) (items : list json_value)
  : list json_value :=
  firstn limit (skipn offset items).

Definition sample_entry (sid country : string) : json_value :=
  JObj [("workflow", JStr "Slack alerts"); ("source_id", JStr sid);
        ("country", JStr country)].

Definition sample_entries : list json_value :=
  [sample_entry "youtube:1" "US"; sample_entry "youtube:2" "IN";
   sample_entry "youtube:3" "US"].

Definition sample_raw : list item :=
  [video_item PNone; forum_item; bare_item None (Some "discourse:5") (PInt 3)].

Definition sample_profile (username : string) : discourse_queries.profile :=
  {| discourse_queries.location := Some "Mumbai, India";
     discourse_queries.bio_raw := None;
     discourse_queries.user_fields := None |}.

Definition nameless_canonical : Workflow.canonical_item json_value :=
  Workflow.Build_canonical_item (Some "fresh-id") None (Some "Discourse")
    (Some "discourse:1") None None None None None None
    (Workflow.LuDatetime (Naive sample_now)) (Some 1%Z).

Definition first_state : youtube_collector.state :=
  {| youtube_collector._yt_key_index := 0;
     youtube_collector.params_key := Some "k0";
     youtube_collector.sleeps := [] |}.

(** *** Evidence within the range of the floats *)

(** The number [v], when it is one, has a double. *)
Definition number_fits (v : pyval) : bool :=
  match v with
  | PInt z => pyfloat.fits z
  | PFloat q => pyfloat.float_fits q
  | _ => true
  end.

(** The magnitude of the value an interest entry contributes. *)
Definition magnitude (v : pyval) : Q :=
  match as_number v with
  | Some q => Qabs q
  | None => 0
  end.

Definition entry_magnitude (e : iot_entry) : Q :=
  match score.iot_first e with
  | Some v => magnitude v
  | None => 0
  end.

Definition series_magnitude (iot : list iot_entry) : Q :=
  fold_right (fun e acc => entry_magnitude e + acc)%Q 0%Q iot.

(** Half the range of the doubles. *)
Definition half_range : Z := 2 ^ 1023.

(** The counts and the rate of the item have doubles, and the magnitudes
    of its interest values add up to at most half the range: no
    conversion and no quotient of per-item scoring leaves the range, and
    no sum does, however its terms are rounded. *)
Definition in_double_range (it : item) : bool :=
  let m := metrics it in
  number_fits (views m) && number_fits (likes m) && number_fits (comments m)
  && number_fits (replies m) && number_fits (growth_pct_30d m)
  && Qle_bool (series_magnitude (interest_over_time m)) (inject_Z half_range).

(** One half-life of [h] days in microseconds. *)
Definition half_life_us (h : Z) : Z := (h * 86400 * 1000000)%Z.


(** The exact value of an operand. *)
Definition num_value (x : pyfloat.num) : Q :=
  match x with
  | pyfloat.NInt z => inject_Z z
  | pyfloat.NFloat q => q
  end.

Definition magnitudes (vals : list pyval) : Q :=
  fold_right (fun v acc => magnitude v + acc)%Q 0%Q vals.

(** A video with more views than a double can hold. *)
Definition astronomic_item : item :=
  {| platform := Some "YouTube"; source_id := Some "youtube:max";
     source_url := None; title := Some "Viral"; keyword := None;
     metrics :=
       {| views := PInt (10 ^ 400); likes := PInt 1; comments := PNone;
          replies := PNone; growth_pct_30d := PNone;
          published_at := PNone; first_post_ts := PNone;
          interest_over_time := []; country := None |} |}.

(** A ratio of the totals of the group has no double. *)
Definition ratio_overflows (evidence : list item) : bool :=
  let t := ingest.group_totals evidence in
  (0 <? ingest.total_views t)%Z
  && ((pyfloat.overflow_bound * ingest.total_views t
         <=? Z.abs (ingest.total_likes t))%Z
      || (pyfloat.overflow_bound * ingest.total_views t
            <=? Z.abs (ingest.total_comments t))%Z).

(** The group of the specification's example: views 100, 0 and "bad"
    under one title. *)
Definition bad_views_group : list item :=
  [bare_item (Some "Slack bot") (Some "s1") (PInt 100);
   bare_item (Some "Slack bot") (Some "s2") (PInt 0);
   bare_item (Some "Slack bot") (Some "s3") (PStr "bad")].

(** Two items of one group that are both scored, the likes of the first
    being beyond the doubles. *)
Definition lopsided_group : list item :=
  [{| platform := None; source_id := Some "s1"; source_url := None;
      title := Some "Slack bot"; keyword := None;
      metrics :=
        {| views := PNone; likes := PInt (10 ^ 400); comments := PNone;
           replies := PNone; growth_pct_30d := PNone; published_at := PNone;
           first_post_ts := PNone; interest_over_time := [];
           country := None |} |};
   bare_item (Some "Slack bot") (Some "s2") (PInt 1)].

(** * Properties of the scoring engine *)

Section ScoreFacts.

Local Open Scope R_scope.

Variable fromisoformat : string -> option datetime.
Variable now : Z.

Lemma clamp01_range (x : R) : 0 <= score.clamp01 x <= 1.
Proof.
  unfold score.clamp01, Rmax, Rmin.
  destruct (Rle_dec 1 x); destruct (Rle_dec 0 _); lra.
Qed.

Lemma clamp01_id (x : R) : 0 <= x <= 1 -> score.clamp01 x = x.
Proof.
  intros H. unfold score.clamp01, Rmax, Rmin.
  destruct (Rle_dec 1 x); destruct (Rle_dec 0 _); lra.
Qed.

Lemma as_number_or (v d : pyval) :
  metric_ok v = true -> is_number d = true ->
  exists q, as_number (py_or v d) = Some q.
Proof.
  intros Hv Hd. unfold py_or.
  destruct (truthy v) eqn:Ht.
  - destruct v; simpl in *; try discriminate; eauto.
  - unfold is_number in Hd. destruct (as_number d); [eauto | discriminate].
Qed.

Lemma py_sum_fold_none (vals : list pyval) :
  fold_left (fun acc v => do a <- acc; do q <- as_number v; Some (a + q)%Q)
            vals None = None.
Proof. induction vals; simpl; auto. Qed.

Lemma py_sum_total (vals : list pyval) :
  forallb is_number vals = true ->
  forall a, exists s,
    fold_left (fun acc v => do a <- acc; do q <- as_number v; Some (a + q)%Q)
              vals (Some a) = Some s.
Proof.
  induction vals as [|v vals IH]; simpl; intros H a.
  - eauto.
  - apply andb_prop in H. destruct H as [Hv Hvs].
    unfold is_number in Hv. destruct (as_number v) as [q|]; [|discriminate].
    simpl. apply IH. exact Hvs.
Qed.

Lemma iot_first_total (iot : list iot_entry) :
  forallb iot_entry_ok iot = true ->
  exists vals, mapM score.iot_first iot = Some vals
               /\ forallb is_number vals = true.
Proof.
  induction iot as [|e iot IH]; simpl; intros H.
  - exists []. auto.
  - apply andb_prop in H. destruct H as [He Hs].
    destruct (IH Hs) as [vals [Hm Hn]]. rewrite Hm.
    destruct e as [[|v col]|v]; simpl in *; try discriminate;
      exists (v :: vals); simpl; rewrite He, Hn; split; reflexivity.
Qed.

Lemma trends_views_total (iot : list iot_entry) :
  forallb iot_entry_ok iot = true -> exists z, score.trends_views iot = Some z.
Proof.
  intros H. unfold score.trends_views.
  destruct (iot_first_total iot H) as [vals [Hm Hn]]. rewrite Hm. simpl.
  unfold score.py_sum.
  destruct (py_sum_total vals Hn 0%Q) as [s Hs]. rewrite Hs. simpl. eauto.
Qed.

Lemma ratio_to_views_total (x d : pyval) (vq : Q) :
  metric_ok x = true -> is_number d = true ->
  exists r, score.ratio_to_views (py_or x d) vq = Some r.
Proof.
  intros Hx Hd. unfold score.ratio_to_views.
  destruct (Qpositive vq); [|eauto].
  destruct (as_number_or x d Hx Hd) as [q Hq]. rewrite Hq. simpl. eauto.
Qed.

(** Per-item scoring raises on no well-formed item. *)
Lemma compute_item_scores_total (it : item) :
  well_formed_item it = true ->
  exists s, score.compute_item_scores fromisoformat now it = Some s.
Proof.
  unfold well_formed_item. intros H.
  repeat (apply andb_prop in H; destruct H as [H ?]).
  unfold score.compute_item_scores.
  assert (Hviews : exists v,
    match platform it with
    | Some p =>
        if String.eqb p "GoogleTrends"
        then do z <- score.trends_views (interest_over_time (metrics it));
             Some (PInt z)
        else Some (py_or (views (metrics it)) (PInt 0))
    | None => Some (py_or (views (metrics it)) (PInt 0))
    end = Some v /\ exists q, as_number v = Some q).
  { destruct (platform it) as [p|].
    - destruct (String.eqb p "GoogleTrends").
      + destruct (trends_views_total _ H0) as [z Hz]. rewrite Hz. simpl.
        exists (PInt z). split; [reflexivity | simpl; eauto].
      + eexists; split; [reflexivity | apply as_number_or; auto].
    - eexists; split; [reflexivity | apply as_number_or; auto]. }
  destruct Hviews as [v [Hv [vq Hvq]]]. rewrite Hv. simpl. rewrite Hvq. simpl.
  destruct (ratio_to_views_total (likes (metrics it)) (PInt 0) vq)
    as [r1 Hr1]; auto.
  rewrite Hr1. simpl.
  assert (Hc : exists r2,
    score.ratio_to_views
      (py_or (comments (metrics it)) (py_or (replies (metrics it)) (PInt 0)))
      vq = Some r2).
  { unfold score.ratio_to_views. destruct (Qpositive vq); [|eauto].
    assert (Hn : exists q, as_number
      (py_or (comments (metrics it))
             (py_or (replies (metrics it)) (PInt 0))) = Some q).
    { apply as_number_or; auto. unfold is_number.
      destruct (as_number_or (replies (metrics it)) (PInt 0)) as [q Hq]; auto.
      rewrite Hq. reflexivity. }
    destruct Hn as [q Hq]. rewrite Hq. simpl. eauto. }
  destruct Hc as [r2 Hr2]. rewrite Hr2. simpl.
  destruct (as_number_or (growth_pct_30d (metrics it)) (PFloat 0)) as [g Hg];
    auto.
  rewrite Hg. simpl. eauto.
Qed.

Lemma mapM_scores_total (evidence : list item) :
  forallb well_formed_item evidence = true ->
  exists ss, mapM (score.compute_item_scores fromisoformat now) evidence
             = Some ss.
Proof.
  induction evidence as [|it evidence IH]; simpl; intros H.
  - eauto.
  - apply andb_prop in H. destruct H as [Hit Hev].
    destruct (compute_item_scores_total it Hit) as [s Hs]. rewrite Hs.
    destruct (IH Hev) as [ss Hss]. rewrite Hss. simpl. eauto.
Qed.

(** *** The aggregation loop *)

Lemma aggregate_fold_raises (evidence : list item) :
  fold_left
    (fun acc it =>
       do c <- acc;
       do s <- score.compute_item_scores fromisoformat now it;
       Some (score.comps_append c s))
    evidence None = None.
Proof. induction evidence; simpl; auto. Qed.

Lemma aggregate_fold (evidence : list item) :
  forall c,
  fold_left
    (fun acc it =>
       do c <- acc;
       do s <- score.compute_item_scores fromisoformat now it;
       Some (score.comps_append c s))
    evidence (Some c)
  = do ss <- mapM (score.compute_item_scores fromisoformat now) evidence;
    Some (fold_left score.comps_append ss c).
Proof.
  induction evidence as [|it evidence IH]; intros c; simpl.
  - reflexivity.
  - destruct (score.compute_item_scores fromisoformat now it) as [s|]; simpl.
    + rewrite IH.
      destruct (mapM _ evidence); reflexivity.
    + apply aggregate_fold_raises.
Qed.

Lemma comps_fold (ss : list score.scores) :
  forall c,
  fold_left score.comps_append ss c
  = {| score.lV := score.lV c ++ map score.V ss;
       score.lE := score.lE c ++ map score.E ss;
       score.lT := score.lT c ++ map score.T ss;
       score.lD := score.lD c ++ map score.D ss |}.
Proof.
  induction ss as [|s ss IH]; intros [v e t d]; simpl.
  - now rewrite !app_nil_r.
  - rewrite IH. simpl. now rewrite <- !app_assoc.
Qed.

Lemma Rsum_from (l : list R) :
  forall a, fold_left Rplus l a = a + fold_right Rplus 0 l.
Proof.
  induction l as [|x l IH]; intros a; simpl.
  - lra.
  - rewrite IH. lra.
Qed.

Lemma mean_nonempty (l : list R) :
  l <> [] -> score.mean l = arithmetic_mean l.
Proof.
  intros Hl. unfold score.mean, arithmetic_mean, score.Rsum.
  destruct l as [|x l]; [contradiction|]. cbn [score.is_empty].
  rewrite Rsum_from. f_equal. lra.
Qed.

(** What [aggregate_workflow] returns once every item is scored. *)
Lemma aggregate_workflow_scored
    (evidence : list item) (ss : list score.scores)
    (weights : option score.weights_t) :
  mapM (score.compute_item_scores fromisoformat now) evidence = Some ss ->
  let w := match weights with Some w => w | None => score.default_weights end in
  let Vw := score.mean (map score.V ss) in
  let Ew := score.mean (map score.E ss) in
  let Tw := score.mean (map score.T ss) in
  let Dw := if score.is_empty ss then 1 else score.mean (map score.D ss) in
  score.aggregate_workflow fromisoformat now evidence weights
  = Some {| score.popularity_score :=
              score.clamp01
                ((score.wV w * Vw + score.wE w * Ew + score.wT w * Tw) * Dw);
            score.score_components :=
              {| score.cV := Vw; score.cE := Ew; score.cT := Tw;
                 score.decay_multiplier_c := Dw |} |}.
Proof.
  intros Hss. unfold score.aggregate_workflow.
  rewrite aggregate_fold, Hss. cbn [obind]. rewrite comps_fold.
  cbn [score.lV score.lE score.lT score.lD app].
  destruct ss as [|s ss]; reflexivity.
Qed.

(** C5: when every item of a group is scored, the default weights give
    [popularity_score = clamp01((0.5 mean(V) + 0.3 mean(E) + 0.2 mean(T))
    * mean(D))] with arithmetic means over the items of a non-empty group,
    and these means are the reported components; with no item at all the
    components are 0, 0, 0 and the decay is 1. *)
Theorem popularity_score_is_weighted_mean
    (evidence : list item) (ss : list score.scores) :
  mapM (score.compute_item_scores fromisoformat now) evidence = Some ss ->
  exists a,
    score.aggregate_workflow fromisoformat now evidence None = Some a
    /\ (evidence <> [] ->
        let Vm := arithmetic_mean (map score.V ss) in
        let Em := arithmetic_mean (map score.E ss) in
        let Tm := arithmetic_mean (map score.T ss) in
        let Dm := arithmetic_mean (map score.D ss) in
        score.popularity_score a
          = score.clamp01 ((0.5 * Vm + 0.3 * Em + 0.2 * Tm) * Dm)
        /\ score.score_components a
          = {| score.cV := Vm; score.cE := Em; score.cT := Tm;
               score.decay_multiplier_c := Dm |})
    /\ (evidence = [] ->
        score.score_components a
          = {| score.cV := 0; score.cE := 0; score.cT := 0;
               score.decay_multiplier_c := 1 |}
        /\ score.popularity_score a = 0).
Proof.
  intros Hss. eexists. split; [|split].
  - apply (aggregate_workflow_scored evidence ss None Hss).
  - intros Hne.
    assert (Hs : ss <> []).
    { intros ->. destruct evidence as [|it ev]; [contradiction|].
      simpl in Hss.
      destruct (score.compute_item_scores fromisoformat now it);
        [|discriminate].
      simpl in Hss. destruct (mapM _ ev); discriminate. }
    cbn [score.popularity_score score.score_components].
    assert (Hm : forall f : score.scores -> R,
               score.mean (map f ss) = arithmetic_mean (map f ss)).
    { intros f. apply mean_nonempty. destruct ss; [contradiction|discriminate]. }
    rewrite !Hm. destruct ss as [|s ss']; [contradiction|].
    cbn [score.is_empty score.default_weights score.wV score.wE score.wT].
    split; reflexivity.
  - intros ->. simpl in Hss. injection Hss as <-.
    cbn. split; [reflexivity|].
    rewrite clamp01_id; lra.
Qed.

(** *** Recency decay *)

Lemma ln2_pos : 0 < ln 2.
Proof. rewrite <- ln_1. apply ln_increasing; lra. Qed.

Lemma exp_le_1_iff (x : R) : exp x <= 1 <-> x <= 0.
Proof.
  rewrite <- exp_0 at 1. split; intros H.
  - destruct (Rle_or_lt x 0) as [Hx|Hx]; [exact Hx|].
    apply exp_increasing in Hx. lra.
  - destruct H as [H|H].
    + left. now apply exp_increasing.
    + subst. lra.
Qed.

(** The exponent of the decay is non-positive exactly for timestamps that
    are not later than the clock. *)
Lemma decay_exponent_sign (dt h : Z) :
  (0 < h)%Z ->
  - ln 2 * (IZR (now - dt) / IZR score.us_per_second / 86400) / IZR h <= 0
  <-> (dt <= now)%Z.
Proof.
  intros Hh. pose proof ln2_pos as Hl.
  apply IZR_lt in Hh. unfold score.us_per_second.
  set (a := IZR (now - dt)).
  assert (Ha : 0 <= a <-> (dt <= now)%Z).
  { unfold a. split; intros H.
    - apply le_IZR in H. lia.
    - apply IZR_le. lia. }
  rewrite <- Ha.
  assert (Hk : 0 < ln 2 / 1000000 / 86400 / IZR h).
  { repeat apply Rdiv_lt_0_compat; lra. }
  replace (- ln 2 * (a / 1000000 / 86400) / IZR h)
    with (- (a * (ln 2 / 1000000 / 86400 / IZR h))) by (field; lra).
  split; intros H; nra.
Qed.

Lemma decay_multiplier_aware (s : string) (dt h : Z) :
  fromisoformat (replace_Z s) = Some (Aware dt) -> h <> 0%Z ->
  score.decay_multiplier fromisoformat now (PStr s) h
  = Some (exp (- ln 2 * (IZR (now - dt) / IZR score.us_per_second / 86400)
              / IZR h)).
Proof.
  intros Hp Hh. unfold score.decay_multiplier. rewrite Hp.
  apply Z.eqb_neq in Hh. now rewrite Hh.
Qed.

(** The [D] of a scored item, read off the code. *)
Lemma compute_item_scores_D (it : item) (sc : score.scores) :
  score.compute_item_scores fromisoformat now it = Some sc ->
  score.D sc
  = if truthy (recency_of it) then
      match score.decay_multiplier fromisoformat now (recency_of it) 30 with
      | Some d => d
      | None => 1
      end
    else 1.
Proof.
  unfold score.compute_item_scores, recency_of. intros H.
  destruct (match platform it with Some _ => _ | None => _ end);
    cbn [obind] in H; [|discriminate].
  destruct (as_number p); cbn [obind] in H; [|discriminate].
  destruct (score.ratio_to_views _ _); cbn [obind] in H; [|discriminate].
  destruct (score.ratio_to_views _ _); cbn [obind] in H; [|discriminate].
  destruct (as_number _); cbn [obind] in H; [|discriminate].
  injection H as <-. reflexivity.
Qed.

Lemma decay_at_half_life (s : string) (dt h : Z) :
  fromisoformat (replace_Z s) = Some (Aware dt) -> (0 < h)%Z ->
  (now - dt = h * 86400 * 1000000)%Z ->
  score.decay_multiplier fromisoformat now (PStr s) h = Some (1 / 2).
Proof.
  intros Hp Hh Hage.
  rewrite (decay_multiplier_aware s dt h Hp) by lia.
  f_equal. rewrite Hage, !mult_IZR. unfold score.us_per_second.
  apply IZR_lt in Hh.
  replace (- ln 2 * (IZR h * 86400 * 1000000 / 1000000 / 86400) / IZR h)
    with (- ln 2) by (field; lra).
  rewrite exp_Ropp, exp_ln by lra. lra.
Qed.

(** C4: a scored item whose [published_at] lies exactly 30 days (the
    default half-life) before the current time has [D = 1/2], an item with
    neither [published_at] nor [first_post_ts] has [D = 1], and
    [decay_multiplier] returns 1/2 for a timestamp exactly
    [half_life_days] days old, whatever the positive half-life. *)
Theorem decay_half_at_half_life_and_one_without_timestamp
    (it : item) (sc : score.scores) :
  score.compute_item_scores fromisoformat now it = Some sc ->
  (forall (s : string) (dt : Z),
     published_at (metrics it) = PStr s -> s <> EmptyString ->
     fromisoformat (replace_Z s) = Some (Aware dt) ->
     (now - dt = 30 * 86400 * 1000000)%Z ->
     score.D sc = 1 / 2)
  /\ (published_at (metrics it) = PNone ->
      first_post_ts (metrics it) = PNone ->
      score.D sc = 1)
  /\ (forall (s : string) (dt h : Z),
        fromisoformat (replace_Z s) = Some (Aware dt) -> (0 < h)%Z ->
        (now - dt = h * 86400 * 1000000)%Z ->
        score.decay_multiplier fromisoformat now (PStr s) h = Some (1 / 2)).
Proof.
  intros Hsc. rewrite (compute_item_scores_D it sc Hsc).
  split; [|split].
  - intros s dt Hpub Hne Hp Hage.
    assert (Ht : truthy (PStr s) = true).
    { simpl. apply String.eqb_neq in Hne. now rewrite Hne. }
    unfold recency_of, py_or. rewrite Hpub, Ht. cbv iota.
    rewrite (decay_at_half_life s dt 30%Z Hp ltac:(lia) Hage).
    now rewrite Ht.
  - intros Hpub Hfirst. unfold recency_of, py_or. rewrite Hpub, Hfirst.
    reflexivity.
  - intros s dt h. apply decay_at_half_life.
Qed.

End ScoreFacts.

(** *** The scoring properties at concrete evidence *)

Lemma popularity_score_is_weighted_mean_witness :
  let evidence := [forum_item; forum_item] in
  exists ss a,
    mapM (score.compute_item_scores iso8601.fromisoformat sample_now) evidence
    = Some ss
    /\ score.aggregate_workflow iso8601.fromisoformat sample_now evidence None
       = Some a
    /\ score.popularity_score a
       = score.clamp01
           ((0.5 * arithmetic_mean (map score.V ss)
             + 0.3 * arithmetic_mean (map score.E ss)
             + 0.2 * arithmetic_mean (map score.T ss))
            * arithmetic_mean (map score.D ss))%R.
Proof.
  intros evidence.
  assert (Hss : exists ss,
    mapM (score.compute_item_scores iso8601.fromisoformat sample_now) evidence
    = Some ss) by (eexists; reflexivity).
  destruct Hss as [ss Hss]. exists ss.
  destruct (popularity_score_is_weighted_mean
              iso8601.fromisoformat sample_now evidence ss Hss)
    as [a [Ha [Hne _]]].
  exists a. split; [exact Hss | split; [exact Ha |]].
  apply Hne. discriminate.
Defined.

Lemma parse_past_timestamp :
  iso8601.fromisoformat (replace_Z "2026-10-04T00:00:00Z")
  = Some (Aware 1791072000000000).
Proof. vm_compute. reflexivity. Qed.


Lemma decay_half_at_half_life_and_one_without_timestamp_witness :
  (exists sc,
     score.compute_item_scores iso8601.fromisoformat sample_now
       (video_item (PStr "2026-10-04T00:00:00Z")) = Some sc
     /\ score.D sc = (1 / 2)%R)
  /\ (exists sc,
        score.compute_item_scores iso8601.fromisoformat sample_now forum_item
        = Some sc
        /\ score.D sc = 1%R).
Proof.
  split.
  - destruct (compute_item_scores_total iso8601.fromisoformat sample_now
                (video_item (PStr "2026-10-04T00:00:00Z")) eq_refl)
      as [sc Hsc].
    exists sc. split; [exact Hsc|].
    destruct (decay_half_at_half_life_and_one_without_timestamp
                iso8601.fromisoformat sample_now _ sc Hsc) as [Hhalf _].
    apply (Hhalf "2026-10-04T00:00:00Z" 1791072000000000%Z).
    + reflexivity.
    + discriminate.
    + exact parse_past_timestamp.
    + reflexivity.
  - destruct (compute_item_scores_total iso8601.fromisoformat sample_now
                forum_item eq_refl) as [sc Hsc].
    exists sc. split; [exact Hsc|].
    destruct (decay_half_at_half_life_and_one_without_timestamp
                iso8601.fromisoformat sample_now _ sc Hsc) as [_ [Hone _]].
    apply Hone; reflexivity.
Defined.

(** * Properties of grouping *)

Section GroupsAppend.

Lemma groups_append_keys_present (k : string) (it : item) (g : ingest.groups_t) :
  In k (map fst g) -> map fst (ingest.groups_append k it g) = map fst g.
Proof.
  induction g as [|[k' l] g IH]; simpl; intros H.
  - contradiction.
  - destruct (String.eqb_spec k' k) as [->|Hne]; simpl.
    + reflexivity.
    + f_equal. apply IH. destruct H; [contradiction | assumption].
Qed.

Lemma groups_append_keys_absent (k : string) (it : item) (g : ingest.groups_t) :
  ~ In k (map fst g) ->
  map fst (ingest.groups_append k it g) = map fst g ++ [k].
Proof.
  induction g as [|[k' l] g IH]; simpl; intros H.
  - reflexivity.
  - destruct (String.eqb_spec k' k) as [->|Hne]; simpl.
    + exfalso. apply H. now left.
    + f_equal. apply IH. intros Hin. apply H. now right.
Qed.

Lemma groups_append_NoDup (k : string) (it : item) (g : ingest.groups_t) :
  NoDup (map fst g) -> NoDup (map fst (ingest.groups_append k it g)).
Proof.
  intros Hnd.
  destruct (in_dec string_dec k (map fst g)) as [Hin|Hout].
  - now rewrite groups_append_keys_present.
  - rewrite groups_append_keys_absent by assumption.
    apply NoDup_app; [assumption | repeat constructor; intros [] | ].
    intros x Hx [<-|[]]. contradiction.
Qed.

Lemma group_of_append (k k' : string) (it : item) (g : ingest.groups_t) :
  group_of k' (ingest.groups_append k it g)
  = if String.eqb k k' then group_of k' g ++ [it] else group_of k' g.
Proof.
  induction g as [|[k0 l] g IH]; simpl.
  - rewrite String.eqb_sym. destruct (String.eqb k' k); reflexivity.
  - destruct (String.eqb_spec k0 k) as [->|Hne]; simpl.
    + destruct (String.eqb k k'); reflexivity.
    + destruct (String.eqb_spec k0 k') as [->|Hne'].
      * destruct (String.eqb_spec k k') as [->|_]; [contradiction|reflexivity].
      * apply IH.
Qed.

Lemma group_of_In (k : string) (l : list item) (g : ingest.groups_t) :
  NoDup (map fst g) -> In (k, l) g -> group_of k g = l.
Proof.
  induction g as [|[k0 l0] g IH]; simpl; intros Hnd Hin.
  - contradiction.
  - inversion Hnd as [|? ? Hk0 Hnd']; subst.
    destruct Hin as [Heq|Hin].
    + injection Heq as -> ->. now rewrite String.eqb_refl.
    + destruct (String.eqb_spec k0 k) as [->|_].
      * exfalso. apply Hk0. apply (in_map fst) in Hin. exact Hin.
      * now apply IH.
Qed.

Lemma In_group_of (k : string) (g : ingest.groups_t) :
  In k (map fst g) -> In (k, group_of k g) g.
Proof.
  induction g as [|[k0 l0] g IH]; simpl; intros H.
  - contradiction.
  - destruct (String.eqb_spec k0 k) as [->|Hne].
    + now left.
    + right. apply IH. destruct H; [contradiction|assumption].
Qed.

Lemma groups_append_nonempty (k : string) (it : item) (g : ingest.groups_t) :
  Forall (fun kl => snd kl <> []) g ->
  Forall (fun kl => snd kl <> []) (ingest.groups_append k it g).
Proof.
  induction g as [|[k0 l0] g IH]; simpl; intros H.
  - repeat constructor. discriminate.
  - inversion H; subst.
    destruct (String.eqb k0 k); constructor; auto.
    simpl. intros Habs. apply app_eq_nil in Habs. destruct Habs; discriminate.
Qed.

Lemma groups_append_perm (k : string) (it : item) (g : ingest.groups_t) :
  Permutation (List.concat (map snd (ingest.groups_append k it g)))
              (it :: List.concat (map snd g)).
Proof.
  induction g as [|[k0 l0] g IH]; simpl.
  - reflexivity.
  - destruct (String.eqb k0 k); simpl.
    + rewrite <- app_assoc. simpl.
      symmetry. apply Permutation_middle.
    + rewrite IH. symmetry. apply Permutation_middle.
Qed.

End GroupsAppend.

Section GroupByKeys.

Lemma groups_append_In_keys (k k' : string) (it : item) (g : ingest.groups_t) :
  In k' (map fst (ingest.groups_append k it g))
  <-> k' = k \/ In k' (map fst g).
Proof.
  destruct (in_dec string_dec k (map fst g)) as [Hin|Hout].
  - rewrite groups_append_keys_present by assumption.
    split; [auto | intros [->|H]; assumption].
  - rewrite groups_append_keys_absent by assumption.
    rewrite in_app_iff. simpl. split.
    + intros [H|[H|[]]]; auto.
    + intros [->|H]; auto.
Qed.

Lemma group_by_keys_NoDup (keyed : list (string * item)) :
  forall g, NoDup (map fst g) -> NoDup (map fst (group_by_keys keyed g)).
Proof.
  induction keyed as [|[k it] keyed IH]; simpl; intros g H.
  - exact H.
  - apply IH. now apply groups_append_NoDup.
Qed.

Lemma group_by_keys_nonempty (keyed : list (string * item)) :
  forall g, Forall (fun kl => snd kl <> []) g ->
            Forall (fun kl => snd kl <> []) (group_by_keys keyed g).
Proof.
  induction keyed as [|[k it] keyed IH]; simpl; intros g H.
  - exact H.
  - apply IH. now apply groups_append_nonempty.
Qed.

Lemma group_by_keys_perm (keyed : list (string * item)) :
  forall g, Permutation (List.concat (map snd (group_by_keys keyed g)))
                        (List.concat (map snd g) ++ map snd keyed).
Proof.
  induction keyed as [|[k it] keyed IH]; simpl; intros g.
  - now rewrite app_nil_r.
  - unfold group_by_keys in IH. rewrite IH, groups_append_perm. simpl.
    apply Permutation_middle.
Qed.

Lemma group_by_keys_group_of (k : string) (keyed : list (string * item)) :
  forall g, group_of k (group_by_keys keyed g)
            = group_of k g ++ map snd (filter (has_key k) keyed).
Proof.
  induction keyed as [|[k0 it] keyed IH]; simpl; intros g.
  - now rewrite app_nil_r.
  - unfold group_by_keys in IH. rewrite IH, group_of_append.
    unfold has_key at 2. simpl.
    destruct (String.eqb k0 k); simpl; [now rewrite <- app_assoc | reflexivity].
Qed.

Lemma group_by_keys_In_keys (k : string) (keyed : list (string * item)) :
  forall g, In k (map fst (group_by_keys keyed g))
            <-> In k (map fst g) \/ In k (map fst keyed).
Proof.
  induction keyed as [|[k0 it] keyed IH]; simpl; intros g.
  - tauto.
  - unfold group_by_keys in IH. rewrite IH, groups_append_In_keys.
    split; intros H; [destruct H as [[H|H]|H] | destruct H as [H|[H|H]]];
      subst; auto.
Qed.

End GroupByKeys.

Section GroupFacts.

Variable uuid4 : nat -> string.

Lemma group_evidence_fold (items : list item) :
  forall drawn g,
  snd (fold_left (ingest.group_step uuid4) items (drawn, g))
  = group_by_keys (assign_keys uuid4 drawn items) g.
Proof.
  induction items as [|it items IH]; intros drawn g; simpl.
  - reflexivity.
  - unfold ingest.group_step at 2. simpl.
    destruct (ingest.group_key uuid4 drawn it) as [drawn' key]. simpl.
    apply IH.
Qed.

Lemma group_evidence_by_keys (items : list item) :
  ingest.group_evidence uuid4 items
  = group_by_keys (assign_keys uuid4 0 items) [].
Proof. apply group_evidence_fold. Qed.

Lemma assign_keys_items (items : list item) :
  forall drawn, map snd (assign_keys uuid4 drawn items) = items.
Proof.
  induction items as [|it items IH]; intros drawn; simpl.
  - reflexivity.
  - destruct (ingest.group_key uuid4 drawn it) as [drawn' key]. simpl.
    now rewrite IH.
Qed.

Lemma group_key_det (drawn : nat) (it : item) (k : string) :
  det_key it = Some k -> ingest.group_key uuid4 drawn it = (drawn, k).
Proof.
  unfold det_key, ingest.group_key.
  destruct (String.eqb (ingest.normalize_title (ingest.title_of it)) EmptyString).
  - destruct (source_id it) as [s|]; [|discriminate].
    destruct (String.eqb s EmptyString); [discriminate|]. now intros [= ->].
  - now intros [= ->].
Qed.

Lemma group_key_drawn (drawn : nat) (it : item) :
  det_key it = None -> ingest.group_key uuid4 drawn it = (S drawn, uuid4 drawn).
Proof.
  unfold det_key, ingest.group_key.
  destruct (String.eqb (ingest.normalize_title (ingest.title_of it)) EmptyString).
  - destruct (source_id it) as [s|]; [|reflexivity].
    destruct (String.eqb s EmptyString); [reflexivity|discriminate].
  - discriminate.
Qed.

(** C9: [group_evidence] partitions its input.  The keys of the groups
    are pairwise distinct, the groups together hold exactly the input
    items (none dropped, none duplicated), their sizes add up to the
    number of items, and every group is the non-empty list of the items
    that were given its key, in arrival order. *)
Theorem group_evidence_is_partition (items : list item) :
  let g := ingest.group_evidence uuid4 items in
  let keyed := assign_keys uuid4 0 items in
  map snd keyed = items
  /\ NoDup (map fst g)
  /\ Permutation (List.concat (map snd g)) items
  /\ list_sum (map (fun kl => List.length (snd kl)) g) = List.length items
  /\ (forall k l, In (k, l) g ->
        l <> [] /\ l = map snd (filter (has_key k) keyed)).
Proof.
  intros g keyed. subst g keyed. rewrite group_evidence_by_keys.
  assert (Hnd : NoDup (map fst (group_by_keys (assign_keys uuid4 0 items) [])))
    by (apply group_by_keys_NoDup; constructor).
  assert (Hperm : Permutation
            (List.concat
               (map snd (group_by_keys (assign_keys uuid4 0 items) [])))
            items).
  { rewrite group_by_keys_perm. simpl. now rewrite assign_keys_items. }
  split; [apply assign_keys_items|].
  split; [exact Hnd|]. split; [exact Hperm|]. split.
  - rewrite <- (Permutation_length Hperm), length_concat, map_map.
    reflexivity.
  - intros k l Hin. split.
    + pose proof (group_by_keys_nonempty (assign_keys uuid4 0 items) []
                    (Forall_nil _)) as Hne.
      rewrite Forall_forall in Hne. apply (Hne (k, l) Hin).
    + rewrite <- (group_of_In k l _ Hnd Hin).
      now rewrite group_by_keys_group_of.
Qed.

(** C6, amended: an item whose title (or keyword) normalizes to the empty
    string and whose [source_id] is non-empty gets that [source_id] as its
    group key; the group stored under it holds the item, and consists of
    exactly the items that were given this key, in arrival order. *)
Theorem empty_title_item_keyed_by_source_id
    (before after : list item) (it : item) (s : string) :
  ingest.normalize_title (ingest.title_of it) = EmptyString ->
  source_id it = Some s -> s <> EmptyString ->
  let items := before ++ it :: after in
  (forall drawn, ingest.group_key uuid4 drawn it = (drawn, s))
  /\ exists l,
       In (s, l) (ingest.group_evidence uuid4 items)
       /\ In it l
       /\ l = map snd (filter (has_key s) (assign_keys uuid4 0 items)).
Proof.
  intros Hnorm Hsid Hne items.
  assert (Hdet : det_key it = Some s).
  { unfold det_key. rewrite Hnorm, Hsid. simpl.
    apply String.eqb_neq in Hne. now rewrite Hne. }
  split; [intros drawn; now apply group_key_det|].
  assert (Hkeyed : forall l1 drawn,
             In (s, it) (assign_keys uuid4 drawn (l1 ++ it :: after))).
  { induction l1 as [|x l1 IH]; intros drawn; simpl.
    - rewrite (group_key_det drawn it s Hdet). now left.
    - destruct (ingest.group_key uuid4 drawn x) as [drawn' key].
      right. apply IH. }
  exists (map snd (filter (has_key s) (assign_keys uuid4 0 items))).
  assert (Hin : In (s, it) (filter (has_key s) (assign_keys uuid4 0 items))).
  { apply filter_In. split; [apply Hkeyed|].
    unfold has_key. simpl. apply String.eqb_refl. }
  split; [|split; [|reflexivity]].
  - rewrite group_evidence_by_keys.
    replace (map snd (filter (has_key s) (assign_keys uuid4 0 items)))
      with (group_of s (group_by_keys (assign_keys uuid4 0 items) []))
      by (now rewrite group_by_keys_group_of).
    apply In_group_of. apply group_by_keys_In_keys. right.
    apply (in_map fst) in Hin. simpl in Hin.
    apply (in_map fst (assign_keys uuid4 0 items) (s, it)). apply Hkeyed.
  - apply (in_map snd) in Hin. exact Hin.
Qed.

End GroupFacts.

(** * Determinism of grouping and scoring *)

Section Related.

Variable R : string -> string -> Prop.
Hypothesis R_inj :
  forall a b a' b', R a b -> R a' b' -> (a = a' <-> b = b').

Lemma groups_append_related (k1 k2 : string) (it : item)
    (g1 g2 : ingest.groups_t) :
  related_groups R g1 g2 -> R k1 k2 ->
  related_groups R (ingest.groups_append k1 it g1)
                   (ingest.groups_append k2 it g2).
Proof.
  intros Hg Hk. induction Hg as [|[ka la] [kb lb] g1 g2 [Hab Hl] Hg IH];
    simpl in *.
  - repeat constructor; auto.
  - subst lb. pose proof (R_inj ka kb k1 k2 Hab Hk) as Hiff.
    destruct (String.eqb_spec ka k1) as [Ha|Ha];
      destruct (String.eqb_spec kb k2) as [Hb|Hb].
    + constructor; [split; auto | exact Hg].
    + exfalso. apply Hb. now apply Hiff.
    + exfalso. apply Ha. now apply Hiff.
    + constructor; [split; auto | exact IH].
Qed.

Lemma group_by_keys_related (keyed1 keyed2 : list (string * item)) :
  related_keyed R keyed1 keyed2 ->
  forall g1 g2, related_groups R g1 g2 ->
  related_groups R (group_by_keys keyed1 g1) (group_by_keys keyed2 g2).
Proof.
  intros Hk. induction Hk as [|[k1 i1] [k2 i2] l1 l2 [Hr Hi] Hk IH];
    intros g1 g2 Hg; simpl in *.
  - exact Hg.
  - subst i2. apply IH. now apply groups_append_related.
Qed.

Lemma related_groups_same_lists (g1 g2 : ingest.groups_t) :
  related_groups R g1 g2 -> map snd g1 = map snd g2.
Proof.
  intros Hg. induction Hg as [|p q g1 g2 [_ Hl] Hg IH]; simpl.
  - reflexivity.
  - now rewrite Hl, IH.
Qed.

End Related.

Section Determinism.

(** the identifiers drawn in the first and in the second run *)
Variables uuid_a uuid_b : nat -> string.
Variable fromisoformat : string -> option datetime.
Variable now : Z.

Lemma key_rel_inj (items : list item) :
  fresh_supply uuid_a items -> fresh_supply uuid_b items ->
  forall a b a' b',
    key_rel uuid_a uuid_b items a b -> key_rel uuid_a uuid_b items a' b' ->
    (a = a' <-> b = b').
Proof.
  intros [Hia Hda] [Hib Hdb] a b a' b' H H'.
  destruct H as [[-> [it [Hin Hk]]]|[n [-> ->]]];
    destruct H' as [[-> [it' [Hin' Hk']]]|[n' [-> ->]]].
  - tauto.
  - split; intros ->; exfalso.
    + now apply (Hda n' it Hin).
    + now apply (Hdb n' it Hin).
  - split; intros <-; exfalso.
    + now apply (Hda n it' Hin').
    + now apply (Hdb n it' Hin').
  - split; intros H.
    + apply Hia in H. now subst.
    + apply Hib in H. now subst.
Qed.

Lemma assign_keys_related (items sub : list item) :
  incl sub items ->
  forall drawn,
  related_keyed (key_rel uuid_a uuid_b items)
                (assign_keys uuid_a drawn sub) (assign_keys uuid_b drawn sub).
Proof.
  induction sub as [|it sub IH]; intros Hincl drawn; simpl.
  - constructor.
  - assert (Hit : In it items) by (apply Hincl; now left).
    assert (Hsub : incl sub items) by (intros x Hx; apply Hincl; now right).
    destruct (det_key it) as [k|] eqn:Hk.
    + rewrite !(group_key_det _ drawn it k Hk).
      constructor; [|now apply IH].
      split; [|reflexivity]. left. simpl. eauto.
    + rewrite !(group_key_drawn _ drawn it Hk).
      constructor; [|now apply IH].
      split; [|reflexivity]. right. simpl. eauto.
Qed.

Lemma assign_keys_det (items : list item) :
  (forall it, In it items -> det_key it <> None) ->
  forall drawn,
    assign_keys uuid_a drawn items = assign_keys uuid_b drawn items.
Proof.
  induction items as [|it items IH]; intros Hdet drawn; simpl.
  - reflexivity.
  - destruct (det_key it) as [k|] eqn:Hk.
    + rewrite !(group_key_det _ drawn it k Hk). f_equal.
      apply IH. intros x Hx. apply Hdet. now right.
    + exfalso. apply (Hdet it); [now left | exact Hk].
Qed.

(** C8, amended: with the weights, the half-life and the clock fixed, two
    runs over the same raw evidence build the same groups in the same
    order and give each of them the same [popularity_score] and
    [score_components], provided the identifiers that [uuid4] hands out
    in either run are fresh; the group keys themselves agree when every
    item has a title-derived key or a [source_id]; and the key of an item
    whose title does not normalize to the empty string is the normalized
    title, whatever the run, the position and the other fields. *)
Theorem grouping_and_scoring_deterministic
    (items : list item) (weights : option score.weights_t) :
  fresh_supply uuid_a items -> fresh_supply uuid_b items ->
  let ga := ingest.group_evidence uuid_a items in
  let gb := ingest.group_evidence uuid_b items in
  let scored (g : ingest.groups_t) :=
    map (fun kl => score.aggregate_workflow fromisoformat now (snd kl) weights)
        g in
  map snd ga = map snd gb
  /\ scored ga = scored gb
  /\ ((forall it, In it items -> det_key it <> None) -> ga = gb)
  /\ (forall it1 it2 drawn1 drawn2,
        ingest.title_of it1 = ingest.title_of it2 ->
        ingest.normalize_title (ingest.title_of it1) <> EmptyString ->
        snd (ingest.group_key uuid_a drawn1 it1)
          = ingest.normalize_title (ingest.title_of it1)
        /\ snd (ingest.group_key uuid_b drawn2 it2)
          = ingest.normalize_title (ingest.title_of it1)).
Proof.
  intros Ha Hb ga gb scored.
  assert (Hlists : map snd ga = map snd gb).
  { subst ga gb. rewrite !group_evidence_by_keys.
    apply (related_groups_same_lists (key_rel uuid_a uuid_b items)).
    apply group_by_keys_related.
    - now apply key_rel_inj.
    - apply assign_keys_related. apply incl_refl.
    - constructor. }
  split; [exact Hlists|]. split; [|split].
  - subst scored. cbv beta.
    rewrite <- !(map_map snd
      (fun l => score.aggregate_workflow fromisoformat now l weights)).
    now rewrite Hlists.
  - intros Hdet. subst ga gb. rewrite !group_evidence_by_keys.
    now rewrite (assign_keys_det items Hdet).
  - intros it1 it2 drawn1 drawn2 Htitle Hne.
    unfold ingest.group_key. rewrite <- Htitle.
    apply String.eqb_neq in Hne. rewrite Hne. simpl. auto.
Qed.

End Determinism.

(** *** Grouping at concrete evidence *)

Lemma append_cancel_l (p x y : string) :
  (p ++ x)%string = (p ++ y)%string -> x = y.
Proof.
  induction p as [|c p IH]; simpl; intros H.
  - exact H.
  - injection H as H. now apply IH.
Qed.

Lemma sample_uuid4_inj (tag : string) (m n : nat) :
  sample_uuid4 tag m = sample_uuid4 tag n -> m = n.
Proof.
  unfold sample_uuid4. intros H.
  apply append_cancel_l in H. simpl in H. injection H as H.
  apply (f_equal list_ascii_of_string) in H.
  rewrite !list_ascii_of_string_of_list_ascii in H.
  apply (f_equal (@List.length ascii)) in H.
  now rewrite !repeat_length in H.
Qed.

Lemma sample_supply_fresh (tag : string) :
  let items := [video_item PNone; forum_item; bare_item None None (PInt 3)] in
  (tag = "run1" \/ tag = "run2") ->
  fresh_supply (sample_uuid4 tag) items.
Proof.
  intros items Htag. split.
  - intros m n. apply sample_uuid4_inj.
  - intros n it Hin.
    destruct Htag as [-> | ->];
      destruct Hin as [<-|[<-|[<-|[]]]]; cbv; discriminate.
Qed.

Lemma group_evidence_is_partition_witness :
  let a := video_item PNone in
  let c := bare_item None None (PInt 3) in
  let g := ingest.group_evidence (sample_uuid4 "run1") [a; c; forum_item] in
  g = [("build a slack bot", [a; forum_item]); ("run1-", [c])]
  /\ Permutation (List.concat (map snd g)) [a; c; forum_item]
  /\ list_sum (map (fun kl => List.length (snd kl)) g) = 3%nat.
Proof.
  intros a c g.
  destruct (group_evidence_is_partition (sample_uuid4 "run1")
              [a; c; forum_item]) as [_ [_ [Hperm [Hsum _]]]].
  split; [reflexivity | split; [exact Hperm | exact Hsum]].
Defined.

Lemma empty_title_item_keyed_by_source_id_witness :
  let a := bare_item (Some "???") (Some "abc") PNone in
  exists l,
    In ("abc", l) (ingest.group_evidence (sample_uuid4 "run1")
                     ([forum_item] ++ a :: [video_item PNone]))
    /\ In a l.
Proof.
  intros a.
  destruct (empty_title_item_keyed_by_source_id (sample_uuid4 "run1")
              [forum_item] [video_item PNone] a "abc"
              eq_refl eq_refl ltac:(discriminate))
    as [_ [l [Hin [Hmem _]]]].
  exists l. split; [exact Hin | exact Hmem].
Defined.

(** The claim C6 as stated fails: an item with an empty normalized title
    is grouped with the item whose normalized title is its [source_id],
    and with a second item of the same [source_id]. *)
Lemma empty_title_item_shares_its_group :
  let a := bare_item (Some "???") (Some "abc") PNone in
  let b := bare_item (Some "ABC!") (Some "youtube:1") PNone in
  let a' := bare_item None (Some "abc") (PInt 7) in
  ingest.normalize_title (ingest.title_of a) = EmptyString
  /\ a <> b /\ a <> a'
  /\ ingest.group_evidence (sample_uuid4 "run1") [a; b; a']
     = [("abc", [a; b; a'])].
Proof.
  intros a b a'.
  split; [reflexivity|]. split; [discriminate|]. split; [discriminate|].
  reflexivity.
Qed.

Lemma grouping_and_scoring_deterministic_witness :
  let items := [video_item PNone; forum_item; bare_item None None (PInt 3)] in
  let scored (g : ingest.groups_t) :=
    map (fun kl =>
           score.aggregate_workflow iso8601.fromisoformat sample_now
             (snd kl) None) g in
  fresh_supply (sample_uuid4 "run1") items
  /\ fresh_supply (sample_uuid4 "run2") items
  /\ scored (ingest.group_evidence (sample_uuid4 "run1") items)
     = scored (ingest.group_evidence (sample_uuid4 "run2") items).
Proof.
  intros items scored.
  pose proof (sample_supply_fresh "run1" (or_introl eq_refl)) as H1.
  pose proof (sample_supply_fresh "run2" (or_intror eq_refl)) as H2.
  split; [exact H1 | split; [exact H2 |]].
  destruct (grouping_and_scoring_deterministic
              (sample_uuid4 "run1") (sample_uuid4 "run2")
              iso8601.fromisoformat sample_now items None H1 H2)
    as [_ [Hscored _]].
  exact Hscored.
Defined.

(** The claim C8 as stated fails for the group key: two items with the
    same title get different keys when the title normalizes to the empty
    string, and an item with neither a usable title nor a [source_id]
    gets a different key in each run. *)
Lemma same_title_different_group_key :
  let a := bare_item (Some "???") (Some "a") PNone in
  let b := bare_item (Some "???") (Some "b") PNone in
  let c := bare_item None None PNone in
  title a = title b
  /\ snd (ingest.group_key (sample_uuid4 "run1") 0 a) = "a"
  /\ snd (ingest.group_key (sample_uuid4 "run1") 0 b) = "b"
  /\ snd (ingest.group_key (sample_uuid4 "run1") 0 a)
     <> snd (ingest.group_key (sample_uuid4 "run1") 0 b)
  /\ snd (ingest.group_key (sample_uuid4 "run1") 0 c)
     <> snd (ingest.group_key (sample_uuid4 "run2") 0 c).
Proof.
  intros a b c. repeat split; try reflexivity; cbv; discriminate.
Qed.

(** * The summed totals of a group *)

Section Totals.

Lemma numeric_or_zero_falsy (v : pyval) :
  truthy v = false -> numeric_or_zero v = 0%Z.
Proof.
  destruct v as [|b|z|q|s|n]; simpl; intros H.
  - reflexivity.
  - now rewrite H.
  - apply negb_false_iff, Z.eqb_eq in H. exact H.
  - apply negb_false_iff, Z.eqb_eq in H. unfold Qtrunc. now rewrite H.
  - apply negb_false_iff, String.eqb_eq in H. now subst.
  - reflexivity.
Qed.

Lemma add_int_numeric (total : Z) (v : pyval) :
  truthy v = true -> ingest.add_int total v = (total + numeric_or_zero v)%Z.
Proof.
  unfold ingest.add_int.
  destruct v as [|b|z|q|s|n]; simpl; intros H; try discriminate;
    try reflexivity; try lia.
  destruct (ingest.py_int_of_string s); lia.
Qed.

Lemma add_int_or_zero (total : Z) (v : pyval) :
  ingest.add_int total (py_or v (PInt 0)) = (total + numeric_or_zero v)%Z.
Proof.
  unfold py_or. destruct (truthy v) eqn:Ht.
  - now apply add_int_numeric.
  - rewrite (numeric_or_zero_falsy v Ht). simpl. reflexivity.
Qed.

Lemma add_int_comments (total : Z) (m : metrics_t) :
  ingest.add_int total (py_or (comments m) (py_or (replies m) (PInt 0)))
  = (total + numeric_or_zero (comments_or_replies m))%Z.
Proof.
  unfold comments_or_replies, py_or at 1 3.
  destruct (truthy (comments m)) eqn:Ht.
  - now apply add_int_numeric.
  - apply add_int_or_zero.
Qed.

Lemma group_totals_from (evidence : list item) :
  forall t,
  fold_left ingest.totals_step evidence t
  = {| ingest.total_views :=
         ingest.total_views t
         + Zsum (map (fun e => numeric_or_zero (views (metrics e))) evidence);
       ingest.total_likes :=
         ingest.total_likes t
         + Zsum (map (fun e => numeric_or_zero (likes (metrics e))) evidence);
       ingest.total_comments :=
         ingest.total_comments t
         + Zsum (map (fun e => numeric_or_zero
                                 (comments_or_replies (metrics e))) evidence)
    |}%Z.
Proof.
  induction evidence as [|e evidence IH]; intros [tv tl tc]; simpl.
  - f_equal; lia.
  - rewrite IH. unfold ingest.totals_step. simpl.
    rewrite !add_int_or_zero, add_int_comments. f_equal; lia.
Qed.

Lemma Zsum_perm (l l' : list Z) : Permutation l l' -> Zsum l = Zsum l'.
Proof.
  intros H. induction H; simpl in *; lia.
Qed.

(** The totals loop of [run_ingest], taken by itself: the totals are the
    sums of the integer values of the numeric [views], [likes] and
    [comments] (or [replies]) entries, a missing or non-numeric entry
    counting for zero; items carrying the views 100, 0 and ["bad"], in
    any order, total 100 views; and when the ratios do not raise, they
    are set exactly when the total of views is positive. *)
Lemma totals_loop_skips_non_numeric (evidence : list item) :
  let t := ingest.group_totals evidence in
  ingest.total_views t
    = Zsum (map (fun e => numeric_or_zero (views (metrics e))) evidence)
  /\ ingest.total_likes t
    = Zsum (map (fun e => numeric_or_zero (likes (metrics e))) evidence)
  /\ ingest.total_comments t
    = Zsum (map (fun e => numeric_or_zero (comments_or_replies (metrics e)))
                evidence)
  /\ (forall v, missing_or_non_numeric v = true -> numeric_or_zero v = 0%Z)
  /\ (forall e1 e2 e3,
        views (metrics e1) = PInt 100 -> views (metrics e2) = PInt 0 ->
        views (metrics e3) = PStr "bad" ->
        Permutation evidence [e1; e2; e3] -> ingest.total_views t = 100%Z)
  /\ (forall p,
        ingest.aggregate_totals evidence = Some p ->
        ingest.pm_views p = ingest.total_views t
        /\ ingest.pm_likes p = ingest.total_likes t
        /\ ingest.pm_comments p = ingest.total_comments t
        /\ ((0 < ingest.pm_views p)%Z ->
            ingest.like_to_view_ratio p
              = Some (inject_Z (ingest.pm_likes p)
                      / inject_Z (ingest.pm_views p))%Q
            /\ ingest.comment_to_view_ratio p
              = Some (inject_Z (ingest.pm_comments p)
                      / inject_Z (ingest.pm_views p))%Q)
        /\ ((ingest.pm_views p <= 0)%Z ->
            ingest.like_to_view_ratio p = None
            /\ ingest.comment_to_view_ratio p = None)).
Proof.
  intros t.
  assert (Ht : t = {|
    ingest.total_views :=
      Zsum (map (fun e => numeric_or_zero (views (metrics e))) evidence);
    ingest.total_likes :=
      Zsum (map (fun e => numeric_or_zero (likes (metrics e))) evidence);
    ingest.total_comments :=
      Zsum (map (fun e => numeric_or_zero (comments_or_replies (metrics e)))
                evidence) |}).
  { subst t. unfold ingest.group_totals. now rewrite group_totals_from. }
  assert (Hv : ingest.total_views t
    = Zsum (map (fun e => numeric_or_zero (views (metrics e))) evidence))
    by now rewrite Ht.
  split; [exact Hv|].
  split; [now rewrite Ht|]. split; [now rewrite Ht|].
  split; [|split].
  - intros v. unfold missing_or_non_numeric.
    destruct v as [|b|z|q|s|n]; simpl; try discriminate; try reflexivity.
    destruct (ingest.py_int_of_string s); [discriminate|reflexivity].
  - intros e1 e2 e3 H1 H2 H3 Hperm. rewrite Hv.
    rewrite (Zsum_perm _ _ (Permutation_map _ Hperm)). simpl.
    rewrite H1, H2, H3. reflexivity.
  - intros p Hp. unfold ingest.aggregate_totals in Hp. fold t in Hp.
    destruct (Z.ltb_spec 0 (ingest.total_views t)) as [Hpos|Hle].
    + unfold ingest.ratio in Hp.
      destruct (Z.abs (ingest.total_likes t) <? _)%Z; cbn [obind] in Hp;
        [|discriminate].
      destruct (Z.abs (ingest.total_comments t) <? _)%Z; cbn [obind] in Hp;
        [|discriminate].
      injection Hp as <-. cbn. repeat split; try reflexivity; lia.
    + injection Hp as <-. cbn. repeat split; try reflexivity; lia.
Qed.

End Totals.

(** C7: on the group of the specification's example, whose items carry
    the views 100, 0 and ["bad"], the totals loop would count 100 views,
    but [run_ingest] never reaches it: the items form one group,
    [aggregate_workflow] raises on the group because per-item scoring
    raises on the views ["bad"], and the construction of the canonical
    list raises with it. *)
Theorem non_numeric_views_abort_the_run :
  map snd (ingest.group_evidence (sample_uuid4 "run") bad_views_group)
  = [bad_views_group]
  /\ ingest.total_views (ingest.group_totals bad_views_group) = 100%Z
  /\ score_range.compute_item_scores iso8601.fromisoformat sample_now
       (bare_item (Some "Slack bot") (Some "s3") (PStr "bad")) = None
  /\ score_range.aggregate_workflow iso8601.fromisoformat sample_now
       bad_views_group None = None
  /\ ingest_run.build_canonical iso8601.fromisoformat sample_now
       (sample_uuid4 "run") bad_views_group = None.
Proof.
  split; [reflexivity|]. split; [reflexivity|]. split; [reflexivity|].
  split; reflexivity.
Qed.

(** * The upsert into [workflows] *)

Section Upsert.

Variable json : Type.
Variable json_truthy : json -> bool.
Variable empty_list empty_dict : json.
Variable fromisoformat : string -> option datetime.
Variable uuid4 : nat -> string.
Variable accepts : Workflow.row json -> bool.

Lemma do_update_update_cols (excluded existing : Workflow.row json) :
  Workflow.do_update Workflow.update_cols excluded existing
  = Workflow.Build_row
      (Workflow.id existing) (Workflow.workflow excluded)
      (Workflow.platform excluded) (Workflow.source_id existing)
      (Workflow.source_url excluded) (Workflow.keywords excluded)
      (Workflow.country excluded) (Workflow.popularity_metrics excluded)
      (Workflow.popularity_score excluded)
      (Workflow.score_components excluded) (Workflow.last_updated excluded)
      (Workflow.evidence_count excluded) (Workflow.created_at existing).
Proof. reflexivity. Qed.

Lemma map_update_only (f : Workflow.row json -> Workflow.row json)
    (key : option string) (t : Workflow.table json) :
  (forall x, In x t -> Workflow.opt_str_eqb (Workflow.source_id x) key = false) ->
  map (fun x => if Workflow.opt_str_eqb (Workflow.source_id x) key
                then f x else x) t = t.
Proof.
  induction t as [|x t IH]; simpl; intros H.
  - reflexivity.
  - rewrite (H x) by now left. f_equal. apply IH.
    intros y Hy. apply H. now right.
Qed.

(** C10: when the row built for a canonical item is one the driver
    accepts and meets a stored row with the same [source_id],
    [upsert_to_db] succeeds and replaces, in that row only, the columns
    [workflow], [platform], [source_url], [keywords], [country],
    [popularity_metrics], [popularity_score], [score_components],
    [last_updated] and [evidence_count] by the new values; the columns
    [id] and [source_id] (and [created_at]) of the stored row keep their
    values.  A row the driver refuses never reaches the table. *)
Theorem upsert_conflict_keeps_id_and_source_id
    (server_now : Z) (item : Workflow.canonical_item json)
    (old : Workflow.row json) (above below : Workflow.table json)
    (s : string) :
  Workflow.c_source_id item = Some s ->
  Workflow.source_id old = Some s ->
  Workflow.c_workflow item <> None ->
  Workflow.c_platform item <> None ->
  (forall x, In x (above ++ below) -> Workflow.source_id x <> Some s) ->
  let r := snd (Workflow.build_row json_truthy empty_list empty_dict
                  fromisoformat uuid4 0 item) in
  (accepts r = true ->
   exists new,
    Workflow.upsert_to_db json_truthy empty_list empty_dict fromisoformat
      uuid4 accepts server_now [item] (above ++ old :: below)
    = (true, above ++ new :: below)
    /\ Workflow.id new = Workflow.id old
    /\ Workflow.source_id new = Workflow.source_id old
    /\ Workflow.created_at new = Workflow.created_at old
    /\ Workflow.workflow new = Workflow.workflow r
    /\ Workflow.platform new = Workflow.platform r
    /\ Workflow.source_url new = Workflow.source_url r
    /\ Workflow.keywords new = Workflow.keywords r
    /\ Workflow.country new = Workflow.country r
    /\ Workflow.popularity_metrics new = Workflow.popularity_metrics r
    /\ Workflow.popularity_score new = Workflow.popularity_score r
    /\ Workflow.score_components new = Workflow.score_components r
    /\ Workflow.last_updated new = Workflow.last_updated r
    /\ Workflow.evidence_count new = Workflow.evidence_count r)
  /\ (accepts r = false ->
      Workflow.upsert_to_db json_truthy empty_list empty_dict fromisoformat
        uuid4 accepts server_now [item] (above ++ old :: below)
      = (false, above ++ old :: below)).
Proof.
  intros Hsid Hold Hw Hp Hothers r. split; [intros Hacc | intros Hacc].
  2:{ unfold Workflow.upsert_to_db, Workflow.upsert_loop.
      destruct (Workflow.build_row json_truthy empty_list empty_dict
                  fromisoformat uuid4 0 item) as [drawn' r'] eqn:Hb.
      simpl in r. subst r. now rewrite Hacc. }
  exists (Workflow.do_update Workflow.update_cols r old).
  split; [|rewrite do_update_update_cols; cbn; repeat split; reflexivity].
  assert (Hr : Workflow.source_id r = Some s).
  { subst r. unfold Workflow.build_row.
    destruct (match Workflow.c_id item with Some _ => _ | None => _ end).
    exact Hsid. }
  assert (Hnn : Workflow.not_null_ok r = true).
  { unfold Workflow.not_null_ok. rewrite Hr. subst r.
    unfold Workflow.build_row.
    destruct (match Workflow.c_id item with Some _ => _ | None => _ end).
    cbn. destruct (Workflow.c_workflow item); [|contradiction].
    destruct (Workflow.c_platform item); [|contradiction]. reflexivity. }
  assert (Hfalse : forall x, In x (above ++ below) ->
            Workflow.opt_str_eqb (Workflow.source_id x) (Some s) = false).
  { intros x Hx. specialize (Hothers x Hx).
    destruct (Workflow.source_id x) as [sx|]; simpl; [|reflexivity].
    apply String.eqb_neq. intros ->. now apply Hothers. }
  unfold Workflow.upsert_to_db, Workflow.upsert_loop.
  destruct (Workflow.build_row json_truthy empty_list empty_dict
              fromisoformat uuid4 0 item) as [drawn' r'] eqn:Hb.
  simpl in r. subst r. rewrite Hacc.
  unfold Workflow.insert_on_conflict_do_update. rewrite Hnn. cbn [negb].
  rewrite Hr.
  assert (Hex : existsb
     (fun x => Workflow.opt_str_eqb (Workflow.source_id x) (Some s))
     (above ++ old :: below) = true).
  { apply existsb_exists. exists old. split.
    - apply in_or_app. right. now left.
    - rewrite Hold. simpl. apply String.eqb_refl. }
  rewrite Hex. rewrite map_app. simpl.
  rewrite Hold. simpl. rewrite String.eqb_refl.
  rewrite !map_update_only.
  - reflexivity.
  - intros x Hx. apply Hfalse. apply in_or_app. now right.
  - intros x Hx. apply Hfalse. apply in_or_app. now left.
Qed.

End Upsert.

Lemma upsert_conflict_keeps_id_and_source_id_witness :
  let old := sample_row "id-1" "Old name" "youtube:abc" 1 in
  let other := sample_row "id-2" "Other" "youtube:xyz" 5 in
  (exists new,
    Workflow.upsert_to_db json_value_truthy (JArr []) (JObj [])
      iso8601.fromisoformat (sample_uuid4 "id") sample_accepts sample_now
      [sample_canonical "New name" "youtube:abc" 4] ([other] ++ old :: [])
    = (true, [other] ++ new :: [])
    /\ Workflow.id new = "id-1"
    /\ Workflow.source_id new = Some "youtube:abc"
    /\ Workflow.workflow new = Some "New name"
    /\ Workflow.evidence_count new = 4%Z)
  /\ Workflow.upsert_to_db json_value_truthy (JArr []) (JObj [])
       iso8601.fromisoformat (sample_uuid4 "id") sample_accepts sample_now
       [aware_canonical "New name" "youtube:abc" 4] ([other] ++ old :: [])
     = (false, [other] ++ old :: []).
Proof.
  intros old other. split.
  - destruct (upsert_conflict_keeps_id_and_source_id json_value
                json_value_truthy (JArr []) (JObj []) iso8601.fromisoformat
                (sample_uuid4 "id") sample_accepts sample_now
                (sample_canonical "New name" "youtube:abc" 4) old [other] []
                "youtube:abc" eq_refl eq_refl
                ltac:(discriminate) ltac:(discriminate)
                ltac:(intros x [<-|[]]; discriminate))
      as [Hok _].
    destruct (Hok eq_refl)
      as (new & Hdb & Hid & Hsid & _ & Hw & _ & _ & _ & _ & _ & _ & _ & _
          & Hcount).
    exists new. repeat split; assumption.
  - destruct (upsert_conflict_keeps_id_and_source_id json_value
                json_value_truthy (JArr []) (JObj []) iso8601.fromisoformat
                (sample_uuid4 "id") sample_accepts sample_now
                (aware_canonical "New name" "youtube:abc" 4) old [other] []
                "youtube:abc" eq_refl eq_refl
                ltac:(discriminate) ltac:(discriminate)
                ltac:(intros x [<-|[]]; discriminate))
      as [_ Hrefused].
    apply Hrefused. vm_compute. reflexivity.
Defined.

(** * The fetch helpers *)

Section Fetch.

Variable YOUTUBE_API_KEYS : list string.
Variable transport : nat -> outcome.
Variable jitter : nat -> Q.

Lemma has_status_inv (code : Z) (o : outcome) :
  has_status code o = true -> exists body, o = Response code body.
Proof.
  destruct o as [c b|]; simpl; intros H; [|discriminate].
  apply Z.eqb_eq in H. subst. eauto.
Qed.

Lemma youtube_ok_after_429s (p : json_value) (k : nat) :
  forall remaining attempt backoff st,
  (k < remaining)%nat ->
  (forall i, (i < k)%nat -> has_status 429 (transport (attempt + i)) = true) ->
  transport (attempt + k) = Response 200 (Some p) ->
  fst (youtube_collector.get_loop YOUTUBE_API_KEYS transport
         remaining attempt backoff st) = Returned p.
Proof.
  induction k as [|k IH]; intros remaining attempt backoff st Hlt H429 H200;
    (destruct remaining as [|remaining]; [lia|]); simpl.
  - rewrite Nat.add_0_r in H200. rewrite H200. reflexivity.
  - destruct (has_status_inv 429 _ (H429 0%nat ltac:(lia))) as [b Hb].
    rewrite Nat.add_0_r in Hb. rewrite Hb. simpl.
    apply IH.
    + lia.
    + intros i Hi. rewrite Nat.add_succ_l, <- Nat.add_succ_r.
      apply H429. lia.
    + now rewrite Nat.add_succ_l, <- Nat.add_succ_r.
Qed.

Lemma youtube_raises_after_429s :
  forall remaining attempt backoff st,
  (forall i, (i < remaining)%nat ->
             has_status 429 (transport (attempt + i)) = true) ->
  fst (youtube_collector.get_loop YOUTUBE_API_KEYS transport
         remaining attempt backoff st) = Raised RuntimeError.
Proof.
  induction remaining as [|remaining IH]; intros attempt backoff st H429;
    simpl.
  - reflexivity.
  - destruct (has_status_inv 429 _ (H429 0%nat ltac:(lia))) as [b Hb].
    rewrite Nat.add_0_r in Hb. rewrite Hb. simpl.
    apply IH. intros i Hi. rewrite Nat.add_succ_l, <- Nat.add_succ_r.
    apply H429. lia.
Qed.

Lemma discourse_ok_after_429s (p : json_value) (k : nat) :
  forall remaining attempt backoff sleeps,
  (k < remaining)%nat ->
  (forall i, (i < k)%nat -> has_status 429 (transport (attempt + i)) = true) ->
  transport (attempt + k) = Response 200 (Some p) ->
  fst (discourse_collector.get_loop transport jitter
         remaining attempt backoff sleeps) = Returned p.
Proof.
  induction k as [|k IH]; intros remaining attempt backoff sleeps Hlt H429 H200;
    (destruct remaining as [|remaining]; [lia|]); simpl.
  - rewrite Nat.add_0_r in H200. rewrite H200. reflexivity.
  - destruct (has_status_inv 429 _ (H429 0%nat ltac:(lia))) as [b Hb].
    rewrite Nat.add_0_r in Hb. rewrite Hb. simpl.
    apply IH.
    + lia.
    + intros i Hi. rewrite Nat.add_succ_l, <- Nat.add_succ_r.
      apply H429. lia.
    + now rewrite Nat.add_succ_l, <- Nat.add_succ_r.
Qed.

Lemma discourse_empty_after_429s :
  forall remaining attempt backoff sleeps,
  (forall i, (i < remaining)%nat ->
             has_status 429 (transport (attempt + i)) = true) ->
  fst (discourse_collector.get_loop transport jitter
         remaining attempt backoff sleeps) = Returned (JObj []).
Proof.
  induction remaining as [|remaining IH]; intros attempt backoff sleeps H429;
    simpl.
  - reflexivity.
  - destruct (has_status_inv 429 _ (H429 0%nat ltac:(lia))) as [b Hb].
    rewrite Nat.add_0_r in Hb. rewrite Hb. simpl.
    apply IH. intros i Hi. rewrite Nat.add_succ_l, <- Nat.add_succ_r.
    apply H429. lia.
Qed.

End Fetch.

(** The forum client returns a value on every transport. *)
Lemma discourse_get_never_raises
    (transport : nat -> outcome) (jitter : nat -> Q) :
  forall remaining attempt backoff sleeps,
  exists j,
    fst (discourse_collector.get_loop transport jitter
           remaining attempt backoff sleeps) = Returned j.
Proof.
  induction remaining as [|remaining IH]; intros attempt backoff sleeps; simpl.
  - eauto.
  - destruct (transport attempt) as [c [j|]|]; [| |apply IH].
    + destruct (c =? 200)%Z; [simpl; eauto|].
      destruct ((c =? 429)%Z || (c =? 503)%Z); [apply IH|].
      destruct (status_raises c); apply IH.
    + destruct (c =? 200)%Z; [simpl; eauto|].
      destruct ((c =? 429)%Z || (c =? 503)%Z); [apply IH|].
      destruct (status_raises c); apply IH.
Qed.

(** C2, amended: a retry cap of [retries] allows [retries] requests in
    all.  When fewer than [retries] consecutive 429 responses precede a
    200 response, both clients return its parsed payload.  When the first
    [retries] responses are all 429, the 200 is never requested: the forum
    client returns the empty mapping, as it does instead of raising on
    every transport, and the video client raises [RuntimeError]. *)
Theorem get_returns_payload_within_budget
    (YOUTUBE_API_KEYS : list string) (transport : nat -> outcome)
    (jitter : nat -> Q) (retries k : nat) (p : json_value)
    (st : youtube_collector.state) :
  (forall i, (i < k)%nat -> has_status 429 (transport i) = true) ->
  transport k = Response 200 (Some p) ->
  ((k < retries)%nat ->
     fst (youtube_collector._get YOUTUBE_API_KEYS transport retries st)
       = Returned p
     /\ fst (discourse_collector._get transport jitter retries) = Returned p)
  /\ ((retries <= k)%nat ->
      fst (discourse_collector._get transport jitter retries)
        = Returned (JObj [])
      /\ fst (youtube_collector._get YOUTUBE_API_KEYS transport retries st)
        = Raised RuntimeError)
  /\ (forall any_transport any_jitter n,
        exists j,
          fst (discourse_collector._get any_transport any_jitter n)
          = Returned j).
Proof.
  intros H429 H200. split; [|split].
  - intros Hk. split.
    + apply (youtube_ok_after_429s _ _ p k); auto.
    + apply (discourse_ok_after_429s _ _ p k); auto.
  - intros Hk. split.
    + apply discourse_empty_after_429s. intros i Hi. apply H429. simpl. lia.
    + apply youtube_raises_after_429s. intros i Hi. apply H429. simpl. lia.
  - intros any_transport any_jitter n. apply discourse_get_never_raises.
Qed.

Lemma get_returns_payload_within_budget_witness :
  let transport :=
    script [Response 429 None; Response 429 None;
            Response 200 (Some sample_payload)] in
  let st := {| youtube_collector._yt_key_index := 0;
               youtube_collector.params_key := Some "k0";
               youtube_collector.sleeps := [] |} in
  fst (youtube_collector._get ["k0"; "k1"] transport 3 st)
    = Returned sample_payload
  /\ fst (discourse_collector._get transport (fun _ => 0%Q) 3)
    = Returned sample_payload.
Proof.
  intros transport st.
  destruct (get_returns_payload_within_budget ["k0"; "k1"] transport
              (fun _ => 0%Q) 3 2 sample_payload st) as [Hok _].
  - intros i Hi.
    destruct i as [|[|i]]; [reflexivity | reflexivity | lia].
  - reflexivity.
  - apply Hok. lia.
Defined.

(** The claim C2 as stated fails: with a retry cap of 3, three 429
    responses use up the three requests, and the 200 response that would
    follow is never fetched. *)
Lemma three_429_exhaust_retry_cap_of_3 :
  let transport :=
    script [Response 429 None; Response 429 None; Response 429 None;
            Response 200 (Some sample_payload)] in
  let st := {| youtube_collector._yt_key_index := 0;
               youtube_collector.params_key := Some "k0";
               youtube_collector.sleeps := [] |} in
  fst (youtube_collector._get ["k0"; "k1"] transport 3 st)
    = Raised RuntimeError
  /\ fst (discourse_collector._get transport (fun _ => 0%Q) 3)
    = Returned (JObj [])
  /\ Returned (JObj []) <> Returned sample_payload.
Proof.
  intros transport st. split; [reflexivity|]. split; [reflexivity|].
  discriminate.
Qed.

(** * Further properties of the scoring engine *)

Section ScoreComponents.

Local Open Scope R_scope.

Variable fromisoformat : string -> option datetime.
Variable now : Z.

Lemma views_used_eq (it : item) :
  match platform it with
  | Some p =>
      if String.eqb p "GoogleTrends"
      then do z <- score.trends_views (interest_over_time (metrics it));
           Some (PInt z)
      else Some (py_or (views (metrics it)) (PInt 0))
  | None => Some (py_or (views (metrics it)) (PInt 0))
  end = views_used it.
Proof.
  unfold views_used, is_trends. destruct (platform it) as [p|]; [|reflexivity].
  destruct (String.eqb p "GoogleTrends"); [|reflexivity].
  destruct (score.trends_views _); reflexivity.
Qed.

(** The three clamped components of a scored item, read off the code. *)
Lemma compute_item_scores_inv (it : item) (sc : score.scores) :
  score.compute_item_scores fromisoformat now it = Some sc ->
  exists v vq l c g,
    views_used it = Some v /\ as_number v = Some vq
    /\ score.ratio_to_views (py_or (likes (metrics it)) (PInt 0)) vq = Some l
    /\ score.ratio_to_views
         (py_or (comments (metrics it)) (py_or (replies (metrics it)) (PInt 0)))
         vq = Some c
    /\ as_number (growth_used it) = Some g
    /\ score.V sc = score.clamp01 (score.log1p_norm (Q2R vq) / 10)
    /\ score.E sc = score.clamp01 ((0.6 * l + 0.4 * c) * 10)
    /\ score.T sc = score.clamp01 ((tanh (Q2R g) + 1) / 2).
Proof.
  unfold score.compute_item_scores. rewrite views_used_eq. intros H.
  destruct (views_used it) as [v|]; cbn [obind] in H; [|discriminate].
  destruct (as_number v) as [vq|] eqn:Hv; cbn [obind] in H; [|discriminate].
  destruct (score.ratio_to_views (py_or (likes (metrics it)) (PInt 0)) vq)
    as [l|] eqn:Hl; cbn [obind] in H; [|discriminate].
  destruct (score.ratio_to_views
              (py_or (comments (metrics it))
                     (py_or (replies (metrics it)) (PInt 0))) vq)
    as [c|] eqn:Hc; cbn [obind] in H; [|discriminate].
  unfold growth_used.
  destruct (as_number (py_or (growth_pct_30d (metrics it)) (PFloat 0)))
    as [g|] eqn:Hg; cbn [obind] in H; [|discriminate].
  injection H as <-. exists v, vq, l, c, g. cbn. repeat split; auto.
Qed.


(** X1: whenever per-item scoring returns, its volume, engagement and
    trend components each lie in [[0,1]]. *)
Theorem item_components_in_unit_interval (it : item) (sc : score.scores) :
  score.compute_item_scores fromisoformat now it = Some sc ->
  in_unit_interval (score.V sc) /\ in_unit_interval (score.E sc)
  /\ in_unit_interval (score.T sc).
Proof.
  intros H.
  destruct (compute_item_scores_inv it sc H)
    as (v & vq & l & c & g & _ & _ & _ & _ & _ & HV & HE & HT).
  rewrite HV, HE, HT. unfold in_unit_interval.
  repeat split; apply clamp01_range.
Qed.

Lemma mapM_Forall2 {A B : Type} (f : A -> option B) (l : list A) :
  forall bs, mapM f l = Some bs -> Forall2 (fun a b => f a = Some b) l bs.
Proof.
  induction l as [|a l IH]; simpl; intros bs H.
  - injection H as <-. constructor.
  - destruct (f a) as [b|] eqn:Hb; cbn [obind] in H; [|discriminate].
    destruct (mapM f l) as [bs'|]; cbn [obind] in H; [|discriminate].
    injection H as <-. constructor; auto.
Qed.

Lemma scored_Forall (P : score.scores -> Prop)
    (evidence : list item) (ss : list score.scores) :
  mapM (score.compute_item_scores fromisoformat now) evidence = Some ss ->
  (forall it sc,
     score.compute_item_scores fromisoformat now it = Some sc -> P sc) ->
  Forall P ss.
Proof.
  intros Hss HP. apply mapM_Forall2 in Hss.
  induction Hss as [|it sc ev ss' Hsc _ IH]; constructor; eauto.
Qed.

Lemma sum_bounds (l : list R) :
  Forall in_unit_interval l ->
  0 <= fold_right Rplus 0 l <= INR (List.length l).
Proof.
  induction 1 as [|x l [Hx0 Hx1] _ IH].
  - simpl. lra.
  - cbn [fold_right]. change (List.length (x :: l)) with (S (List.length l)).
    rewrite S_INR. lra.
Qed.

Lemma mean_in_unit_interval (l : list R) :
  Forall in_unit_interval l -> in_unit_interval (score.mean l).
Proof.
  intros H. unfold in_unit_interval.
  destruct l as [|x l]; [unfold score.mean; simpl; lra|].
  rewrite mean_nonempty by discriminate. unfold arithmetic_mean.
  pose proof (sum_bounds _ H) as [Hlo Hhi].
  assert (Hn : 0 < INR (List.length (x :: l))) by (apply lt_0_INR; simpl; lia).
  split.
  - apply Rmult_le_pos; [exact Hlo | left; now apply Rinv_0_lt_compat].
  - apply (Rmult_le_reg_r (INR (List.length (x :: l)))); [exact Hn|].
    unfold Rdiv. rewrite Rmult_assoc, Rinv_l by lra. lra.
Qed.

End ScoreComponents.

Section ScoreEdges.

Local Open Scope R_scope.

Variable fromisoformat : string -> option datetime.
Variable now : Z.






Lemma mapM_None_iff {A B : Type} (f : A -> option B) (l : list A) :
  mapM f l = None <-> exists a, In a l /\ f a = None.
Proof.
  induction l as [|a l IH]; simpl.
  - split; [discriminate | intros [a [[] _]]].
  - destruct (f a) as [b|] eqn:Hb; cbn [obind].
    + destruct (mapM f l) as [bs|]; cbn [obind].
      * split; [discriminate|]. intros [x [[<-|Hx] Hfx]]; [congruence|].
        destruct IH as [_ IH]. discriminate IH. eauto.
      * split; [|reflexivity]. intros _.
        destruct IH as [IH _]. destruct (IH eq_refl) as [x [Hx Hfx]]. eauto.
    + split; [|reflexivity]. intros _. exists a. auto.
Qed.

Lemma aggregate_None_iff (evidence : list item)
    (weights : option score.weights_t) :
  score.aggregate_workflow fromisoformat now evidence weights = None
  <-> mapM (score.compute_item_scores fromisoformat now) evidence = None.
Proof.
  unfold score.aggregate_workflow. rewrite aggregate_fold.
  destruct (mapM _ evidence); cbn [obind]; split; congruence.
Qed.

(** X4: group aggregation has no handler of its own: it raises exactly
    when per-item scoring raises on one of the items of the group. *)
Theorem aggregate_raises_iff_an_item_raises
    (evidence : list item) (weights : option score.weights_t) :
  score.aggregate_workflow fromisoformat now evidence weights = None
  <-> exists it,
        In it evidence
        /\ score.compute_item_scores fromisoformat now it = None.
Proof. rewrite aggregate_None_iff. apply mapM_None_iff. Qed.

Lemma string_views_raise (it : item) (s : string) :
  is_trends it = false -> views (metrics it) = PStr s -> s <> EmptyString ->
  score.compute_item_scores fromisoformat now it = None.
Proof.
  intros Ht Hv Hs. unfold score.compute_item_scores.
  rewrite views_used_eq. unfold views_used. rewrite Ht, Hv.
  unfold py_or. cbn [truthy]. apply String.eqb_neq in Hs. rewrite Hs.
  reflexivity.
Qed.

(** X5: a views entry that is a non-empty string makes per-item scoring
    raise on an item that is not a trends item, and with it the
    aggregation of every group that holds the item. *)
Theorem string_views_fail_the_group
    (evidence : list item) (weights : option score.weights_t)
    (it : item) (s : string) :
  In it evidence -> is_trends it = false ->
  views (metrics it) = PStr s -> s <> EmptyString ->
  score.compute_item_scores fromisoformat now it = None
  /\ score.aggregate_workflow fromisoformat now evidence weights = None.
Proof.
  intros Hin Ht Hv Hs.
  pose proof (string_views_raise it s Ht Hv Hs) as Hnone.
  split; [exact Hnone|].
  apply aggregate_None_iff, mapM_None_iff. eauto.
Qed.

Lemma clamp01_monotone (x y : R) :
  x <= y -> score.clamp01 x <= score.clamp01 y.
Proof.
  intros H. unfold score.clamp01.
  assert (Hm : Rmin 1 x <= Rmin 1 y).
  { unfold Rmin. destruct (Rle_dec 1 x); destruct (Rle_dec 1 y); lra. }
  unfold Rmax.
  destruct (Rle_dec 0 (Rmin 1 x)); destruct (Rle_dec 0 (Rmin 1 y)); lra.
Qed.

Lemma log1p_norm_monotone (x y : R) :
  x <= y -> score.log1p_norm x <= score.log1p_norm y.
Proof.
  intros H. unfold score.log1p_norm.
  assert (Hm : Rmax 0 x <= Rmax 0 y).
  { unfold Rmax. destruct (Rle_dec 0 x); destruct (Rle_dec 0 y); lra. }
  assert (Hx : 0 <= Rmax 0 x) by apply Rmax_l.
  destruct Hm as [Hlt|Heq].
  - left. apply ln_increasing; lra.
  - rewrite Heq. lra.
Qed.

(** X6: the volume component never decreases when the views grow: of two
    scored items, the one with at least as many views has at least as
    large a [V]. *)
Theorem volume_monotone_in_views
    (it1 it2 : item) (sc1 sc2 : score.scores) (v1 v2 : Q) :
  score.compute_item_scores fromisoformat now it1 = Some sc1 ->
  score.compute_item_scores fromisoformat now it2 = Some sc2 ->
  views_number it1 = Some v1 -> views_number it2 = Some v2 ->
  (v1 <= v2)%Q ->
  score.V sc1 <= score.V sc2.
Proof.
  intros H1 H2 Hv1 Hv2 Hle.
  destruct (compute_item_scores_inv fromisoformat now it1 sc1 H1)
    as (x1 & q1 & _ & _ & _ & Hx1 & Hq1 & _ & _ & _ & HV1 & _).
  destruct (compute_item_scores_inv fromisoformat now it2 sc2 H2)
    as (x2 & q2 & _ & _ & _ & Hx2 & Hq2 & _ & _ & _ & HV2 & _).
  unfold views_number in Hv1, Hv2. rewrite Hx1 in Hv1. rewrite Hx2 in Hv2.
  cbn [obind] in Hv1, Hv2. rewrite Hq1 in Hv1. rewrite Hq2 in Hv2.
  injection Hv1 as ->. injection Hv2 as ->.
  rewrite HV1, HV2. apply clamp01_monotone.
  apply Qle_Rle in Hle. apply log1p_norm_monotone in Hle. lra.
Qed.

End ScoreEdges.

Section TrendAndDecay.

Local Open Scope R_scope.

Variable fromisoformat : string -> option datetime.
Variable now : Z.

Lemma tanh_as_exp (x : R) :
  tanh x = (exp x - exp (- x)) / (exp x + exp (- x)).
Proof.
  unfold tanh, sinh, cosh.
  pose proof (exp_pos x). pose proof (exp_pos (- x)). field. lra.
Qed.

Lemma tanh_bounds (x : R) : -1 < tanh x < 1.
Proof.
  rewrite tanh_as_exp.
  pose proof (exp_pos x) as Ha. pose proof (exp_pos (- x)) as Hb.
  set (a := exp x) in *. set (b := exp (- x)) in *.
  assert (Hs : 0 < a + b) by lra.
  split.
  - apply (Rmult_lt_reg_r (a + b)); [exact Hs|].
    unfold Rdiv. rewrite Rmult_assoc, Rinv_l by lra. lra.
  - apply (Rmult_lt_reg_r (a + b)); [exact Hs|].
    unfold Rdiv. rewrite Rmult_assoc, Rinv_l by lra. lra.
Qed.

Lemma tanh_nonneg (x : R) : 0 <= x -> 0 <= tanh x.
Proof.
  intros Hx. rewrite tanh_as_exp.
  pose proof (exp_pos x) as Ha. pose proof (exp_pos (- x)) as Hb.
  assert (Hab : exp (- x) <= exp x).
  { destruct Hx as [Hx| <-].
    - left. apply exp_increasing. lra.
    - rewrite Ropp_0. lra. }
  apply Rmult_le_pos; [lra|]. left. apply Rinv_0_lt_compat. lra.
Qed.

Lemma tanh_nonpos (x : R) : x <= 0 -> tanh x <= 0.
Proof.
  intros Hx. rewrite tanh_as_exp.
  pose proof (exp_pos x) as Ha. pose proof (exp_pos (- x)) as Hb.
  assert (Hab : exp x <= exp (- x)).
  { destruct Hx as [Hx| ->].
    - left. apply exp_increasing. lra.
    - rewrite Ropp_0. lra. }
  assert (Hi : 0 < / (exp x + exp (- x))) by (apply Rinv_0_lt_compat; lra).
  unfold Rdiv. nra.
Qed.

(** X7: the trend component of a scored item is [(tanh(growth) + 1) / 2]
    with no clamping taking effect; it is 1/2 when [growth_pct_30d] is
    absent or zero, at least 1/2 for a non-negative growth and at most
    1/2 for a non-positive one. *)
Theorem trend_component_centred_at_one_half
    (it : item) (sc : score.scores) (g : Q) :
  score.compute_item_scores fromisoformat now it = Some sc ->
  as_number (growth_used it) = Some g ->
  score.T sc = (tanh (Q2R g) + 1) / 2
  /\ (truthy (growth_pct_30d (metrics it)) = false -> score.T sc = 1 / 2)
  /\ ((0 <= g)%Q -> 1 / 2 <= score.T sc)
  /\ ((g <= 0)%Q -> score.T sc <= 1 / 2).
Proof.
  intros Hsc Hg.
  destruct (compute_item_scores_inv fromisoformat now it sc Hsc)
    as (_ & _ & _ & _ & g' & _ & _ & _ & _ & Hg' & _ & _ & HT).
  rewrite Hg in Hg'. injection Hg' as <-.
  assert (HTeq : score.T sc = (tanh (Q2R g) + 1) / 2).
  { rewrite HT. apply clamp01_id. pose proof (tanh_bounds (Q2R g)). lra. }
  split; [exact HTeq|]. rewrite HTeq. split; [|split].
  - intros Hf. unfold growth_used, py_or in Hg. rewrite Hf in Hg.
    injection Hg as <-.
    replace (Q2R 0) with 0 by (unfold Q2R; simpl; lra).
    pose proof (tanh_nonneg 0 ltac:(lra)). pose proof (tanh_nonpos 0 ltac:(lra)).
    lra.
  - intros Hpos. apply Qle_Rle in Hpos.
    replace (Q2R 0) with 0 in Hpos by (unfold Q2R; simpl; lra).
    pose proof (tanh_nonneg _ Hpos). lra.
  - intros Hneg. apply Qle_Rle in Hneg.
    replace (Q2R 0) with 0 in Hneg by (unfold Q2R; simpl; lra).
    pose proof (tanh_nonpos _ Hneg). lra.
Qed.

(** X8: for a timestamp that parses to an aware datetime and a positive
    half-life, [decay_multiplier] never grows as the clock advances, and
    one further half-life on the clock halves it. *)
Theorem decay_halves_every_half_life
    (s : string) (dt h later : Z) (d : R) :
  fromisoformat (replace_Z s) = Some (Aware dt) -> (0 < h)%Z ->
  score.decay_multiplier fromisoformat now (PStr s) h = Some d ->
  score.decay_multiplier fromisoformat (now + h * 86400 * 1000000) (PStr s) h
    = Some (d / 2)
  /\ ((now <= later)%Z ->
      exists d',
        score.decay_multiplier fromisoformat later (PStr s) h = Some d'
        /\ d' <= d).
Proof.
  intros Hp Hh Hd.
  rewrite (decay_multiplier_aware fromisoformat now s dt h Hp) in Hd by lia.
  injection Hd as <-. pose proof ln2_pos as Hl.
  assert (HhR : 0 < IZR h) by now apply IZR_lt.
  unfold score.us_per_second. split.
  - rewrite (decay_multiplier_aware fromisoformat _ s dt h Hp) by lia.
    f_equal. unfold score.us_per_second.
    replace (now + h * 86400 * 1000000 - dt)%Z
      with ((now - dt) + h * 86400 * 1000000)%Z by lia.
    rewrite plus_IZR, !mult_IZR.
    replace (- ln 2 * ((IZR (now - dt) + IZR h * 86400 * 1000000)
                       / 1000000 / 86400) / IZR h)
      with (- ln 2 * (IZR (now - dt) / 1000000 / 86400) / IZR h + - ln 2)
      by (field; lra).
    rewrite exp_plus, exp_Ropp, exp_ln by lra. lra.
  - intros Hlater. eexists. split.
    + apply (decay_multiplier_aware fromisoformat later s dt h Hp). lia.
    + unfold score.us_per_second.
      assert (Hage : IZR (now - dt) <= IZR (later - dt)) by (apply IZR_le; lia).
      assert (Hk : 0 < ln 2 / 1000000 / 86400 / IZR h).
      { repeat apply Rdiv_lt_0_compat; lra. }
      set (k := ln 2 / 1000000 / 86400 / IZR h) in *.
      replace (- ln 2 * (IZR (later - dt) / 1000000 / 86400) / IZR h)
        with (- (IZR (later - dt) * k)) by (unfold k; field; lra).
      replace (- ln 2 * (IZR (now - dt) / 1000000 / 86400) / IZR h)
        with (- (IZR (now - dt) * k)) by (unfold k; field; lra).
      assert (Hexp : - (IZR (later - dt) * k) <= - (IZR (now - dt) * k))
        by nra.
      destruct Hexp as [Hlt|Heq].
      * left. now apply exp_increasing.
      * rewrite Heq. lra.
Qed.

Lemma mapM_map_eq {A B : Type} (f : A -> option B) (l1 : list A) :
  forall l2, map f l1 = map f l2 -> mapM f l1 = mapM f l2.
Proof.
  induction l1 as [|a l1 IH]; intros [|b l2] H; simpl in *;
    try discriminate; [reflexivity|].
  injection H as Hab Hl. rewrite Hab, (IH l2 Hl). reflexivity.
Qed.

(** X9: for a trends item the volume is taken from the first value of
    every column of [interest_over_time]; the stored [views] and the rest
    of each column play no part.  Two trends items that agree on these
    first values and on their other metrics get the same scores. *)
Theorem trends_volume_uses_first_values_only (it1 it2 : item) :
  is_trends it1 = true -> is_trends it2 = true ->
  map score.iot_first (interest_over_time (metrics it1))
    = map score.iot_first (interest_over_time (metrics it2)) ->
  likes (metrics it1) = likes (metrics it2) ->
  comments (metrics it1) = comments (metrics it2) ->
  replies (metrics it1) = replies (metrics it2) ->
  growth_pct_30d (metrics it1) = growth_pct_30d (metrics it2) ->
  published_at (metrics it1) = published_at (metrics it2) ->
  first_post_ts (metrics it1) = first_post_ts (metrics it2) ->
  score.compute_item_scores fromisoformat now it1
  = score.compute_item_scores fromisoformat now it2.
Proof.
  intros Ht1 Ht2 Hiot Hl Hc Hr Hg Hp Hf.
  unfold score.compute_item_scores. rewrite !views_used_eq.
  unfold views_used, score.trends_views. rewrite Ht1, Ht2.
  rewrite (mapM_map_eq _ _ _ Hiot), Hl, Hc, Hr, Hg, Hp, Hf. reflexivity.
Qed.

End TrendAndDecay.

(** *** The further scoring properties at concrete evidence *)

Lemma item_components_in_unit_interval_witness :
  exists sc,
    score.compute_item_scores iso8601.fromisoformat sample_now huge_item
    = Some sc
    /\ in_unit_interval (score.V sc) /\ in_unit_interval (score.E sc)
    /\ in_unit_interval (score.T sc).
Proof.
  destruct (compute_item_scores_total iso8601.fromisoformat sample_now
              huge_item eq_refl) as [sc Hsc].
  exists sc. split; [exact Hsc|].
  apply (item_components_in_unit_interval iso8601.fromisoformat sample_now
           huge_item sc Hsc).
Defined.


Lemma string_views_fail_the_group_witness :
  let bad := bare_item (Some "a") (Some "s3") (PStr "bad") in
  score.aggregate_workflow iso8601.fromisoformat sample_now
    [video_item PNone; bad] None = None.
Proof.
  intros bad.
  apply (string_views_fail_the_group iso8601.fromisoformat sample_now
           [video_item PNone; bad] None bad "bad").
  - right. now left.
  - reflexivity.
  - reflexivity.
  - discriminate.
Defined.

Lemma volume_monotone_in_views_witness :
  exists sc1 sc2,
    score.compute_item_scores iso8601.fromisoformat sample_now forum_item
    = Some sc1
    /\ score.compute_item_scores iso8601.fromisoformat sample_now
         (video_item PNone) = Some sc2
    /\ (score.V sc1 <= score.V sc2)%R.
Proof.
  destruct (compute_item_scores_total iso8601.fromisoformat sample_now
              forum_item eq_refl) as [sc1 H1].
  destruct (compute_item_scores_total iso8601.fromisoformat sample_now
              (video_item PNone) eq_refl) as [sc2 H2].
  exists sc1, sc2. split; [exact H1 | split; [exact H2|]].
  apply (volume_monotone_in_views iso8601.fromisoformat sample_now
           forum_item (video_item PNone) sc1 sc2 0%Q (inject_Z 1000) H1 H2).
  - reflexivity.
  - reflexivity.
  - discriminate.
Defined.

Lemma trend_component_centred_at_one_half_witness :
  let it := trends_item [IotDict [PInt 40; PInt 90]] PNone in
  exists sc,
    score.compute_item_scores iso8601.fromisoformat sample_now it = Some sc
    /\ (1 / 2 <= score.T sc)%R.
Proof.
  intros it.
  assert (Hsc : exists sc,
    score.compute_item_scores iso8601.fromisoformat sample_now it = Some sc)
    by (eexists; reflexivity).
  destruct Hsc as [sc Hsc]. exists sc. split; [exact Hsc|].
  destruct (trend_component_centred_at_one_half iso8601.fromisoformat
              sample_now it sc (1 # 4) Hsc eq_refl) as (_ & _ & Hpos & _).
  apply Hpos. discriminate.
Defined.

Lemma decay_halves_every_half_life_witness :
  score.decay_multiplier iso8601.fromisoformat
    (sample_now + 30 * 86400 * 1000000) (PStr "2026-10-04T00:00:00Z") 30
  = Some (1 / 2 / 2)%R.
Proof.
  apply (decay_halves_every_half_life iso8601.fromisoformat sample_now
           "2026-10-04T00:00:00Z" 1791072000000000 30 sample_now (1 / 2)%R).
  - exact parse_past_timestamp.
  - reflexivity.
  - apply (decay_at_half_life iso8601.fromisoformat sample_now _ _ 30
             parse_past_timestamp); reflexivity.
Defined.

Lemma trends_volume_uses_first_values_only_witness :
  score.compute_item_scores iso8601.fromisoformat sample_now
    (trends_item [IotDict [PInt 40; PInt 90]; IotVal (PBool false)] (PInt 5))
  = score.compute_item_scores iso8601.fromisoformat sample_now
      (trends_item [IotVal (PInt 40); IotDict [PBool false; PBool true]] PNone).
Proof.
  apply trends_volume_uses_first_values_only; reflexivity.
Defined.

(** * Scoring within the range of the floats *)

Section FloatRange.

Lemma overflow_bound_pos : (0 < pyfloat.overflow_bound)%Z.
Proof. reflexivity. Qed.

Lemma fits_spec (z : Z) :
  pyfloat.fits z = true <-> (Z.abs z < pyfloat.overflow_bound)%Z.
Proof. unfold pyfloat.fits. apply Z.ltb_lt. Qed.

Lemma float_fits_spec (q : Q) :
  pyfloat.float_fits q = true
  <-> (Qabs q < inject_Z pyfloat.overflow_bound)%Q.
Proof.
  unfold pyfloat.float_fits. rewrite Z.ltb_lt.
  destruct q as [n d]. unfold Qlt. cbn. rewrite Z.mul_1_r. reflexivity.
Qed.

Lemma fits_inject (z : Z) :
  pyfloat.fits z = true
  <-> (Qabs (inject_Z z) < inject_Z pyfloat.overflow_bound)%Q.
Proof.
  rewrite fits_spec. unfold Qlt. cbn. rewrite !Z.mul_1_r. reflexivity.
Qed.

Lemma float_of_value (x : pyfloat.num) :
  (Qabs (num_value x) < inject_Z pyfloat.overflow_bound)%Q ->
  pyfloat.float_of x = Some (num_value x).
Proof.
  destruct x as [z|q]; cbn; intros H; [|reflexivity].
  apply fits_inject in H. now rewrite H.
Qed.

Lemma as_num_number (v : pyval) :
  is_number v = true ->
  exists n, pyfloat.as_num v = Some n
            /\ as_number v = Some (num_value n).
Proof.
  destruct v as [|b|z|q|s|k]; cbn; try discriminate; intros _.
  - exists (pyfloat.NInt (if b then 1 else 0)). split; [reflexivity|].
    destruct b; reflexivity.
  - exists (pyfloat.NInt z). auto.
  - exists (pyfloat.NFloat q). auto.
Qed.

(** An addition whose operands leave room stays in the range. *)
Lemma add_in_range (a b : pyfloat.num) :
  (Qabs (num_value a) + Qabs (num_value b)
   < inject_Z pyfloat.overflow_bound)%Q ->
  exists c, score_range.add a b = Some c
            /\ (num_value c == num_value a + num_value b)%Q.
Proof.
  intros H.
  pose proof (Qabs_nonneg (num_value a)) as Ha.
  pose proof (Qabs_nonneg (num_value b)) as Hb.
  pose proof (Qabs_triangle (num_value a) (num_value b)) as Ht.
  assert (Hfa : pyfloat.float_of a = Some (num_value a))
    by (apply float_of_value; Lqa.lra).
  assert (Hfb : pyfloat.float_of b = Some (num_value b))
    by (apply float_of_value; Lqa.lra).
  assert (Hs : pyfloat.float_fits (num_value a + num_value b) = true)
    by (apply float_fits_spec; Lqa.lra).
  destruct a as [x|p]; destruct b as [y|q]; cbn [score_range.add].
  - exists (pyfloat.NInt (x + y)). split; [reflexivity|].
    unfold num_value. rewrite inject_Z_plus. reflexivity.
  - rewrite Hfa. cbn [obind]. rewrite Hfb. cbn [obind]. rewrite Hs.
    eexists. split; [reflexivity|]. reflexivity.
  - rewrite Hfa. cbn [obind]. rewrite Hfb. cbn [obind]. rewrite Hs.
    eexists. split; [reflexivity|]. reflexivity.
  - rewrite Hfa. cbn [obind]. rewrite Hfb. cbn [obind]. rewrite Hs.
    eexists. split; [reflexivity|]. reflexivity.
Qed.

Lemma magnitudes_nonneg (vals : list pyval) : (0 <= magnitudes vals)%Q.
Proof.
  induction vals as [|v vals IH].
  { unfold magnitudes. cbn. Lqa.lra. }
  unfold magnitudes. cbn [fold_right]. fold (magnitudes vals).
  assert (0 <= magnitude v)%Q.
  { unfold magnitude. destruct (as_number v); [apply Qabs_nonneg | Lqa.lra]. }
  Lqa.lra.
Qed.

Lemma sum_in_range (vals : list pyval) :
  forallb is_number vals = true ->
  forall acc,
  (Qabs (num_value acc) + magnitudes vals
   < inject_Z pyfloat.overflow_bound)%Q ->
  exists s,
    fold_left (fun acc v =>
                 do a <- acc; do n <- pyfloat.as_num v; score_range.add a n)
              vals (Some acc) = Some s
    /\ (Qabs (num_value s) <= Qabs (num_value acc) + magnitudes vals)%Q.
Proof.
  induction vals as [|v vals IH]; intros Hn acc H.
  - exists acc. split; [reflexivity|]. unfold magnitudes. cbn. Lqa.lra.
  - cbn [forallb] in Hn. apply andb_prop in Hn. destruct Hn as [Hv Hvs].
    destruct (as_num_number v Hv) as [n [Hn Hq]].
    unfold magnitudes in H |- *. cbn [fold_right fold_left] in H |- *.
    fold (magnitudes vals) in H |- *.
    assert (Hm : magnitude v = Qabs (num_value n))
      by (unfold magnitude; now rewrite Hq).
    rewrite Hm in *.
    pose proof (magnitudes_nonneg vals) as Hpos.
    destruct (add_in_range acc n) as [c [Hc Hval]]; [Lqa.lra|].
    cbn [obind]. rewrite Hn. cbn [obind]. rewrite Hc.
    pose proof (Qabs_triangle (num_value acc) (num_value n)) as Ht.
    assert (Hcabs : (Qabs (num_value c)
                     <= Qabs (num_value acc) + Qabs (num_value n))%Q)
      by (rewrite Hval; exact Ht).
    destruct (IH Hvs c) as [s [Hs Hb]]; [Lqa.lra|].
    exists s. split; [exact Hs | Lqa.lra].
Qed.

Lemma series_magnitude_vals (iot : list iot_entry) (vals : list pyval) :
  mapM score.iot_first iot = Some vals ->
  series_magnitude iot = magnitudes vals.
Proof.
  revert vals. induction iot as [|e iot IH]; intros vals H.
  - cbn in H. injection H as <-. reflexivity.
  - cbn [mapM] in H. unfold series_magnitude. cbn [fold_right].
    fold (series_magnitude iot). unfold entry_magnitude.
    destruct (score.iot_first e) as [v|]; cbn [obind] in H; [|discriminate].
    destruct (mapM score.iot_first iot) as [vs|]; cbn [obind] in H;
      [|discriminate].
    injection H as <-. unfold magnitudes. cbn [fold_right].
    fold (magnitudes vs). now rewrite (IH vs eq_refl).
Qed.

Lemma Qtrunc_fits (q : Q) :
  (Qabs q < inject_Z pyfloat.overflow_bound)%Q ->
  pyfloat.fits (Qtrunc q) = true.
Proof.
  intros H. apply float_fits_spec in H. unfold pyfloat.float_fits in H.
  apply Z.ltb_lt in H. apply fits_spec. unfold Qtrunc.
  destruct q as [n d]. cbn in *.
  rewrite <- Z.quot_abs by lia. cbn [Z.abs].
  apply Z.quot_lt_upper_bound; lia.
Qed.

Lemma Qabs_div_max (q : Q) (k : nat) :
  (Qabs (q / inject_Z (Z.max 1 (Z.of_nat k))) <= Qabs q)%Q.
Proof.
  set (n := Z.max 1 (Z.of_nat k)).
  assert (Hn : (1 <= n)%Z) by (unfold n; lia).
  destruct n as [|p|p]; try lia.
  destruct q as [a d]. unfold Qle, Qdiv, Qmult, Qinv. cbn.
  rewrite Z.mul_1_r. rewrite Pos2Z.inj_mul.
  assert (0 <= Z.abs a)%Z by lia. nia.
Qed.

(** The volume proxy of a trends item is computed, and has a double. *)
Lemma half_range_fits :
  (inject_Z half_range < inject_Z pyfloat.overflow_bound)%Q.
Proof. rewrite <- Zlt_Qlt. reflexivity. Qed.

Lemma trends_views_in_range (iot : list iot_entry) :
  forallb iot_entry_ok iot = true ->
  Qle_bool (series_magnitude iot) (inject_Z half_range) = true ->
  exists z, score_range.trends_views iot = Some z
            /\ pyfloat.fits z = true.
Proof.
  intros Hok Hhalf. unfold score_range.trends_views.
  destruct (iot_first_total iot Hok) as [vals [Hm Hn]]. rewrite Hm.
  cbn [obind]. rewrite (series_magnitude_vals iot vals Hm) in Hhalf.
  apply Qle_bool_iff in Hhalf. pose proof half_range_fits as Hrange.
  assert (Hfit : (magnitudes vals < inject_Z pyfloat.overflow_bound)%Q)
    by Lqa.lra.
  pose proof (magnitudes_nonneg vals) as Hpos.
  unfold score_range.py_sum.
  destruct (sum_in_range vals Hn (pyfloat.NInt 0)) as [s [Hs Hb]].
  { cbn. Lqa.lra. }
  rewrite Hs. cbn [obind]. cbn in Hb.
  assert (Hsb : (Qabs (num_value s) < inject_Z pyfloat.overflow_bound)%Q)
    by Lqa.lra.
  pose proof (Qabs_div_max (num_value s) (List.length vals)) as Hd.
  destruct s as [z|q]; cbn [num_value] in *.
  - apply fits_inject, fits_spec in Hsb as Hz.
    assert (Hlt : (Z.abs z <? pyfloat.overflow_bound
                              * Z.max 1 (Z.of_nat (List.length vals)))%Z
                  = true).
    { apply Z.ltb_lt. pose proof overflow_bound_pos. nia. }
    rewrite Hlt. eexists. split; [reflexivity|].
    apply Qtrunc_fits. Lqa.lra.
  - eexists. split; [reflexivity|]. apply Qtrunc_fits. Lqa.lra.
Qed.

Lemma number_fits_or (v d : pyval) :
  number_fits v = true -> number_fits d = true ->
  number_fits (py_or v d) = true.
Proof. intros Hv Hd. unfold py_or. now destruct (truthy v). Qed.

Lemma as_num_fits (v : pyval) :
  is_number v = true -> number_fits v = true ->
  exists n q, pyfloat.as_num v = Some n /\ pyfloat.float_of n = Some q.
Proof.
  destruct v as [|b|z|q|s|k]; intros Hn Hf; try discriminate Hn.
  - exists (pyfloat.NInt (if b then 1 else 0)),
           (inject_Z (if b then 1 else 0)).
    split; [reflexivity|]. now destruct b.
  - exists (pyfloat.NInt z), (inject_Z z). split; [reflexivity|].
    unfold number_fits in Hf. unfold pyfloat.float_of. now rewrite Hf.
  - exists (pyfloat.NFloat q), q. split; reflexivity.
Qed.

Lemma is_number_or (v d : pyval) :
  metric_ok v = true -> is_number d = true -> is_number (py_or v d) = true.
Proof.
  intros Hv Hd. unfold is_number.
  destruct (as_number_or v d Hv Hd) as [q Hq]. now rewrite Hq.
Qed.

(** A division by positive views raises on no operand that has a
    double. *)
Lemma true_div_in_range (n vn : pyfloat.num) (p q : Q) :
  pyfloat.float_of n = Some p -> pyfloat.float_of vn = Some q ->
  pyfloat.gt_zero vn = true ->
  exists r, pyfloat.true_div n vn = Some r.
Proof.
  intros Hn Hv Hpos.
  destruct n as [x|a]; destruct vn as [y|b]; cbn [pyfloat.true_div];
    try (rewrite Hn; cbn [obind]; rewrite Hv; cbn [obind]; eauto).
  cbn in Hn, Hpos. destruct (pyfloat.fits x) eqn:Hx; [|discriminate].
  apply fits_spec in Hx. apply Z.ltb_lt in Hpos.
  assert (Hlt : (Z.abs x <? pyfloat.overflow_bound * Z.abs y)%Z = true).
  { apply Z.ltb_lt. pose proof overflow_bound_pos. nia. }
  rewrite Hlt. eauto.
Qed.

Lemma ratio_in_range (x : pyval) (vn : pyfloat.num) (q : Q) :
  is_number x = true -> number_fits x = true ->
  pyfloat.float_of vn = Some q ->
  exists r, score_range.ratio_to_views x vn = Some r.
Proof.
  intros Hx Hf Hv. unfold score_range.ratio_to_views.
  destruct (pyfloat.gt_zero vn) eqn:Hpos; [|eauto].
  destruct (as_num_fits x Hx Hf) as [n [p [Hn Hp]]]. rewrite Hn.
  cbn [obind]. now apply (true_div_in_range n vn p q).
Qed.

Lemma log1p_norm_in_range (vn : pyfloat.num) (q : Q) :
  pyfloat.float_of vn = Some q ->
  exists r, score_range.log1p_norm vn = Some r.
Proof.
  intros Hv. unfold score_range.log1p_norm.
  destruct (pyfloat.gt_zero vn); [rewrite Hv|]; cbn; eauto.
Qed.

End FloatRange.

Section ScoreRange.

Local Open Scope R_scope.

Variable fromisoformat : string -> option datetime.
Variable now : Z.

(** Per-item scoring raises on no well-formed item whose numbers are
    within the range of the doubles. *)
Lemma range_scores_total (it : item) :
  well_formed_item it = true -> in_double_range it = true ->
  exists s, score_range.compute_item_scores fromisoformat now it = Some s.
Proof.
  unfold well_formed_item, in_double_range. intros H F.
  repeat (apply andb_prop in H; destruct H as [H ?]).
  repeat (apply andb_prop in F; destruct F as [F ?]).
  unfold score_range.compute_item_scores.
  assert (Hviews : exists v,
    match platform it with
    | Some p =>
        if String.eqb p "GoogleTrends"
        then do z <- score_range.trends_views (interest_over_time (metrics it));
             Some (PInt z)
        else Some (py_or (views (metrics it)) (PInt 0))
    | None => Some (py_or (views (metrics it)) (PInt 0))
    end = Some v /\ is_number v = true /\ number_fits v = true).
  { assert (Hv0 : is_number (py_or (views (metrics it)) (PInt 0)) = true
                  /\ number_fits (py_or (views (metrics it)) (PInt 0)) = true).
    { split; [apply is_number_or | apply number_fits_or]; auto. }
    destruct (platform it) as [p|]; [|eauto].
    destruct (String.eqb p "GoogleTrends"); [|eauto].
    destruct (trends_views_in_range _ H0 H5) as [z [Hz Hfz]].
    rewrite Hz. cbn [obind]. exists (PInt z). auto. }
  destruct Hviews as [v [Hv [Hnum Hfit]]]. rewrite Hv. cbn [obind].
  destruct (as_num_fits v Hnum Hfit) as [vn [vq [Hvn Hvq]]].
  rewrite Hvn. cbn [obind].
  destruct (log1p_norm_in_range vn vq Hvq) as [V_raw HV]. rewrite HV.
  cbn [obind].
  destruct (ratio_in_range (py_or (likes (metrics it)) (PInt 0)) vn vq)
    as [r1 Hr1]; auto using is_number_or, number_fits_or.
  rewrite Hr1. cbn [obind].
  destruct (ratio_in_range
              (py_or (comments (metrics it))
                     (py_or (replies (metrics it)) (PInt 0))) vn vq)
    as [r2 Hr2]; auto using is_number_or, number_fits_or.
  rewrite Hr2. cbn [obind].
  destruct (as_num_fits (py_or (growth_pct_30d (metrics it)) (PFloat 0)))
    as [g [gq [Hg Hgq]]]; auto using is_number_or, number_fits_or.
  rewrite Hg. cbn [obind]. rewrite Hgq. cbn [obind]. eauto.
Qed.

Lemma range_mapM_total (evidence : list item) :
  forallb well_formed_item evidence = true ->
  forallb in_double_range evidence = true ->
  exists ss, mapM (score_range.compute_item_scores fromisoformat now) evidence
             = Some ss.
Proof.
  induction evidence as [|it evidence IH]; cbn [forallb mapM]; intros H F.
  - eauto.
  - apply andb_prop in H. destruct H as [Hit Hev].
    apply andb_prop in F. destruct F as [Fit Fev].
    destruct (range_scores_total it Hit Fit) as [s Hs]. rewrite Hs.
    destruct (IH Hev Fev) as [ss Hss]. rewrite Hss. cbn [obind]. eauto.
Qed.

(** *** The aggregation loop *)

Lemma scores_fold_raises (f : item -> option score.scores)
    (evidence : list item) :
  fold_left
    (fun acc it => do c <- acc; do s <- f it; Some (score.comps_append c s))
    evidence None = None.
Proof. induction evidence; cbn; auto. Qed.

Lemma scores_fold (f : item -> option score.scores) (evidence : list item) :
  forall c,
  fold_left
    (fun acc it => do c <- acc; do s <- f it; Some (score.comps_append c s))
    evidence (Some c)
  = do ss <- mapM f evidence; Some (fold_left score.comps_append ss c).
Proof.
  induction evidence as [|it evidence IH]; intros c; cbn [fold_left mapM].
  - reflexivity.
  - cbn [obind]. destruct (f it) as [s|]; cbn [obind].
    + rewrite IH. destruct (mapM f evidence); reflexivity.
    + apply scores_fold_raises.
Qed.

(** What [aggregate_workflow] returns once every item is scored. *)
Lemma range_aggregate_scored
    (evidence : list item) (ss : list score.scores)
    (weights : option score.weights_t) :
  mapM (score_range.compute_item_scores fromisoformat now) evidence = Some ss ->
  let w := match weights with Some w => w | None => score.default_weights end in
  let Vw := score.mean (map score.V ss) in
  let Ew := score.mean (map score.E ss) in
  let Tw := score.mean (map score.T ss) in
  let Dw := if score.is_empty ss then 1 else score.mean (map score.D ss) in
  score_range.aggregate_workflow fromisoformat now evidence weights
  = Some {| score.popularity_score :=
              score.clamp01
                ((score.wV w * Vw + score.wE w * Ew + score.wT w * Tw) * Dw);
            score.score_components :=
              {| score.cV := Vw; score.cE := Ew; score.cT := Tw;
                 score.decay_multiplier_c := Dw |} |}.
Proof.
  intros Hss. unfold score_range.aggregate_workflow.
  rewrite scores_fold, Hss. cbn [obind]. rewrite comps_fold.
  cbn [score.lV score.lE score.lT score.lD app].
  destruct ss as [|s ss]; reflexivity.
Qed.

Lemma range_aggregate_None_iff (evidence : list item)
    (weights : option score.weights_t) :
  score_range.aggregate_workflow fromisoformat now evidence weights = None
  <-> exists it,
        In it evidence
        /\ score_range.compute_item_scores fromisoformat now it = None.
Proof.
  rewrite <- mapM_None_iff.
  unfold score_range.aggregate_workflow. rewrite scores_fold.
  destruct (mapM _ evidence); cbn [obind]; split; congruence.
Qed.

Lemma popularity_aggregate_exists
    (evidence : list item) (weights : option score.weights_t) :
  forallb well_formed_item evidence = true ->
  forallb in_double_range evidence = true ->
  exists a,
    score_range.aggregate_workflow fromisoformat now evidence weights = Some a.
Proof.
  intros Hwf Hfit.
  destruct (range_mapM_total evidence Hwf Hfit) as [ss Hss].
  eexists. apply (range_aggregate_scored evidence ss weights Hss).
Qed.

(** C1, amended: for every list of well-formed evidence items whose
    numbers are within the range of the doubles (integers that have a
    double, interest values whose magnitudes add up to at most half the
    range), the empty list and items with zero views or with counts as
    large as a double can hold included, group aggregation returns, and
    the [popularity_score] it returns lies in [[0,1]]. *)
Theorem popularity_score_in_unit_interval
    (evidence : list item) (weights : option score.weights_t) :
  forallb well_formed_item evidence = true ->
  forallb in_double_range evidence = true ->
  exists a,
    score_range.aggregate_workflow fromisoformat now evidence weights = Some a
    /\ 0 <= score.popularity_score a <= 1.
Proof.
  intros Hwf Hfit.
  destruct (range_mapM_total evidence Hwf Hfit) as [ss Hss].
  eexists. split.
  - apply (range_aggregate_scored evidence ss weights Hss).
  - cbn [score.popularity_score]. apply clamp01_range.
Qed.

(** *** Recency decay *)

(** What per-item scoring returns, read off the code. *)
Lemma range_scores_inv (it : item) (sc : score.scores) :
  score_range.compute_item_scores fromisoformat now it = Some sc ->
  (exists v e t,
     score.V sc = score.clamp01 v /\ score.E sc = score.clamp01 e
     /\ score.T sc = score.clamp01 t)
  /\ score.D sc
     = if truthy (recency_of it) then
         match score_range.decay_multiplier fromisoformat now
                 (recency_of it) 30 with
         | Some d => d
         | None => 1
         end
       else 1.
Proof.
  unfold score_range.compute_item_scores, recency_of. intros H.
  destruct (match platform it with Some _ => _ | None => _ end);
    cbn [obind] in H; [|discriminate].
  destruct (pyfloat.as_num p); cbn [obind] in H; [|discriminate].
  destruct (score_range.log1p_norm _); cbn [obind] in H; [|discriminate].
  destruct (score_range.ratio_to_views _ _); cbn [obind] in H;
    [|discriminate].
  destruct (score_range.ratio_to_views _ _); cbn [obind] in H;
    [|discriminate].
  destruct (pyfloat.as_num _); cbn [obind] in H; [|discriminate].
  destruct (pyfloat.float_of _); cbn [obind] in H; [|discriminate].
  injection H as <-. cbn [score.V score.E score.T score.D].
  split; [do 3 eexists; repeat split; reflexivity | reflexivity].
Qed.

Lemma Q2R_inject_Z (z : Z) : Q2R (inject_Z z) = IZR z.
Proof. unfold Q2R. cbn. field. Qed.

(** The exponent of the decay, in half-lives. *)
Lemma decay_exponent (dt h : Z) :
  (0 < h)%Z ->
  - ln 2 * (IZR (now - dt) / IZR score.us_per_second / 86400)
    / Q2R (inject_Z h)
  = - ln 2 * (IZR (now - dt) / IZR (half_life_us h)).
Proof.
  intros Hh. apply IZR_lt in Hh. rewrite Q2R_inject_Z.
  unfold half_life_us, score.us_per_second. rewrite !mult_IZR.
  field. lra.
Qed.

Lemma half_life_us_pos (h : Z) : (0 < h)%Z -> 0 < IZR (half_life_us h).
Proof. intros Hh. apply IZR_lt. unfold half_life_us. lia. Qed.




Lemma exponent_sign (a span : Z) :
  (0 < span)%Z ->
  - ln 2 * (IZR a / IZR span) <= 0 <-> (0 <= a)%Z.
Proof.
  intros Hs. pose proof ln2_pos as Hl. apply IZR_lt in Hs.
  assert (Hi : 0 < / IZR span) by now apply Rinv_0_lt_compat.
  unfold Rdiv. split; intros H.
  - apply le_IZR. destruct (Rle_or_lt 0 (IZR a)) as [Ha|Ha]; [exact Ha|].
    exfalso.
    assert (Hq : IZR a * / IZR span < 0).
    { rewrite Rmult_comm. apply Rmult_pos_neg; assumption. }
    nra.
  - apply IZR_le in H.
    assert (Hq : 0 <= IZR a * / IZR span).
    { apply Rmult_le_pos; [exact H | lra]. }
    nra.
Qed.

(** [decay_multiplier] on a timestamp that parses to an aware datetime. *)
Lemma range_decay_aware (s : string) (dt h : Z) :
  fromisoformat (replace_Z s) = Some (Aware dt) -> (0 < h)%Z ->
  pyfloat.fits h = true ->
  score_range.decay_multiplier fromisoformat now (PStr s) h
  = pyfloat.math_exp (- ln 2 * (IZR (now - dt) / IZR (half_life_us h))).
Proof.
  intros Hp Hh Hf. unfold score_range.decay_multiplier. rewrite Hp.
  assert (Hz : (h =? 0)%Z = false) by (apply Z.eqb_neq; lia).
  rewrite Hz. unfold pyfloat.float_of. rewrite Hf. cbn [obind].
  now rewrite decay_exponent.
Qed.

Lemma math_exp_nonneg (x d : R) : pyfloat.math_exp x = Some d -> 0 <= d.
Proof.
  unfold pyfloat.math_exp. destruct (Rlt_dec _ _); [discriminate|].
  destruct (Rle_dec _ _); intros [= <-]; [lra | left; apply exp_pos].
Qed.

Lemma range_decay_nonneg (pub : pyval) (h : Z) (d : R) :
  score_range.decay_multiplier fromisoformat now pub h = Some d -> 0 <= d.
Proof.
  unfold score_range.decay_multiplier.
  destruct pub as [| | | |s|]; try (intros [= <-]; lra).
  destruct (fromisoformat (replace_Z s)) as [[dt|dt]|];
    try discriminate; try (intros [= <-]; lra).
  destruct (h =? 0)%Z; [discriminate|].
  destruct (pyfloat.float_of _); cbn [obind]; [|discriminate].
  apply math_exp_nonneg.
Qed.

Lemma fits_30 : pyfloat.fits 30 = true.
Proof. reflexivity. Qed.

(** The decay of a scored item is not negative, and at most 1 when its
    timestamp is not in the future. *)
Lemma range_D_bounds (it : item) (sc : score.scores) :
  score_range.compute_item_scores fromisoformat now it = Some sc ->
  0 <= score.D sc
  /\ (not_in_future fromisoformat now it -> score.D sc <= 1).
Proof.
  intros Hsc. destruct (range_scores_inv it sc Hsc) as [_ HD]. rewrite HD.
  unfold not_in_future.
  destruct (truthy (recency_of it)); [|split; intros; lra].
  destruct (score_range.decay_multiplier fromisoformat now (recency_of it) 30)
    as [d|] eqn:Hd; [|split; intros; lra].
  split; [now apply (range_decay_nonneg _ _ _ Hd)|].
  destruct (recency_of it) as [| | | |s|];
    try (cbn in Hd; injection Hd as <-; intros; lra).
  destruct (fromisoformat (replace_Z s)) as [[dt|dt]|] eqn:Hp.
  - intros Hpast.
    rewrite (range_decay_aware s dt 30 Hp ltac:(lia) fits_30) in Hd.
    unfold pyfloat.math_exp in Hd.
    destruct (Rlt_dec _ _); [discriminate|].
    destruct (Rle_dec _ _); injection Hd as <-; [lra|].
    apply exp_le_1_iff, exponent_sign; [unfold half_life_us|]; lia.
  - unfold score_range.decay_multiplier in Hd. rewrite Hp in Hd. discriminate.
  - unfold score_range.decay_multiplier in Hd. rewrite Hp in Hd.
    injection Hd as <-. intros; lra.
Qed.


Lemma range_scored_Forall2 (P : item -> Prop) (Q : score.scores -> Prop)
    (evidence : list item) (ss : list score.scores) :
  mapM (score_range.compute_item_scores fromisoformat now) evidence = Some ss ->
  (forall it sc,
     score_range.compute_item_scores fromisoformat now it = Some sc ->
     P it -> Q sc) ->
  Forall P evidence -> Forall Q ss.
Proof.
  intros Hss HP Hall. apply mapM_Forall2 in Hss.
  induction Hss as [|it sc ev ss' Hsc _ IH]; constructor;
    inversion Hall; subst; eauto.
Qed.

Lemma sum_nonneg (l : list R) :
  Forall (fun x => 0 <= x) l -> 0 <= fold_right Rplus 0 l.
Proof. induction 1; cbn [fold_right]; lra. Qed.

Lemma mean_nonneg (l : list R) :
  Forall (fun x => 0 <= x) l -> 0 <= score.mean l.
Proof.
  intros H. destruct l as [|x l]; [unfold score.mean; simpl; lra|].
  rewrite mean_nonempty by discriminate. unfold arithmetic_mean.
  apply Rmult_le_pos; [now apply sum_nonneg|].
  left. apply Rinv_0_lt_compat, lt_0_INR. simpl. lia.
Qed.

(** X2: whenever group aggregation returns, the reported components [V],
    [E] and [T] lie in [[0,1]]; the reported decay multiplier is not
    negative, and it is at most 1 when no item of the group has a
    timestamp later than the current time. *)
Theorem aggregate_components_in_range
    (evidence : list item) (weights : option score.weights_t)
    (a : score.aggregate) :
  score_range.aggregate_workflow fromisoformat now evidence weights = Some a ->
  in_unit_interval (score.cV (score.score_components a))
  /\ in_unit_interval (score.cE (score.score_components a))
  /\ in_unit_interval (score.cT (score.score_components a))
  /\ 0 <= score.decay_multiplier_c (score.score_components a)
  /\ (Forall (not_in_future fromisoformat now) evidence ->
      score.decay_multiplier_c (score.score_components a) <= 1).
Proof.
  intros Ha.
  destruct (mapM (score_range.compute_item_scores fromisoformat now) evidence)
    as [ss|] eqn:Hss.
  2:{ assert (Hn : score_range.aggregate_workflow fromisoformat now evidence
                     weights = None).
      { apply range_aggregate_None_iff. now apply mapM_None_iff. }
      congruence. }
  rewrite (range_aggregate_scored evidence ss weights Hss) in Ha.
  injection Ha as <-. cbn.
  assert (Hall : forall (f : score.scores -> R),
            (forall it sc,
               score_range.compute_item_scores fromisoformat now it = Some sc ->
               in_unit_interval (f sc)) ->
            in_unit_interval (score.mean (map f ss))).
  { intros f Hf. apply mean_in_unit_interval, Forall_map.
    apply (range_scored_Forall2 (fun _ => True) _ evidence ss Hss).
    - intros it sc Hsc _. now apply (Hf it).
    - apply Forall_forall. auto. }
  split; [|split; [|split; [|split]]].
  - apply Hall. intros it sc Hsc.
    destruct (range_scores_inv it sc Hsc) as [(v & e & t & -> & _ & _) _].
    apply clamp01_range.
  - apply Hall. intros it sc Hsc.
    destruct (range_scores_inv it sc Hsc) as [(v & e & t & _ & -> & _) _].
    apply clamp01_range.
  - apply Hall. intros it sc Hsc.
    destruct (range_scores_inv it sc Hsc) as [(v & e & t & _ & _ & ->) _].
    apply clamp01_range.
  - destruct ss as [|s ss']; [cbn; lra|]. cbn [score.is_empty].
    apply mean_nonneg, Forall_map.
    apply (range_scored_Forall2 (fun _ => True) _ evidence _ Hss).
    + intros it sc Hsc _.
      now destruct (range_D_bounds it sc Hsc).
    + apply Forall_forall. auto.
  - intros Hpast. destruct ss as [|s ss']; [cbn; lra|]. cbn [score.is_empty].
    apply mean_in_unit_interval, Forall_map.
    apply (range_scored_Forall2 (not_in_future fromisoformat now) _
             evidence _ Hss); [|exact Hpast].
    intros it sc Hsc Hp.
    destruct (range_D_bounds it sc Hsc) as [H0 H1].
    split; [exact H0 | now apply H1].
Qed.

End ScoreRange.

Lemma popularity_score_in_unit_interval_witness :
  let evidence := [video_item PNone; forum_item; huge_item] in
  forallb well_formed_item evidence = true
  /\ forallb in_double_range evidence = true
  /\ exists a,
       score_range.aggregate_workflow iso8601.fromisoformat sample_now
         evidence None = Some a
       /\ (0 <= score.popularity_score a <= 1)%R.
Proof.
  split; [reflexivity|]. split; [reflexivity|].
  apply popularity_score_in_unit_interval; reflexivity.
Defined.

(** The claim C1 as stated fails for a count beyond the doubles: the
    views [10^400] are an integer of a well-formed item, and
    [math.log1p] raises [OverflowError] when it converts them. *)
Lemma astronomic_views_raise :
  forallb well_formed_item [astronomic_item] = true
  /\ score_range.aggregate_workflow iso8601.fromisoformat sample_now
       [astronomic_item] None = None.
Proof. split; reflexivity. Qed.



Lemma aggregate_components_in_range_witness :
  exists a,
    score_range.aggregate_workflow iso8601.fromisoformat sample_now
      [video_item (PStr "2026-10-04T00:00:00Z"); forum_item] None = Some a
    /\ in_unit_interval (score.cV (score.score_components a))
    /\ (0 <= score.decay_multiplier_c (score.score_components a) <= 1)%R.
Proof.
  assert (Ha : exists a,
    score_range.aggregate_workflow iso8601.fromisoformat sample_now
      [video_item (PStr "2026-10-04T00:00:00Z"); forum_item] None = Some a)
    by (apply popularity_aggregate_exists; reflexivity).
  destruct Ha as [a Ha]. exists a. split; [exact Ha|].
  destruct (aggregate_components_in_range iso8601.fromisoformat sample_now
              _ _ a Ha) as (HV & _ & _ & HD0 & HD1).
  split; [exact HV|]. split; [exact HD0|]. apply HD1.
  repeat constructor.
  unfold not_in_future.
  change (recency_of (video_item (PStr "2026-10-04T00:00:00Z")))
    with (PStr "2026-10-04T00:00:00Z").
  cbv iota beta. rewrite parse_past_timestamp. unfold sample_now. lia.
Defined.

(** * Properties of [normalize_title] *)

Section NormalizeTitle.

Ltac by_cases_on c :=
  destruct c as [[] [] [] [] [] [] [] []]; try reflexivity; try discriminate.

Lemma key_char_not_space (c : ascii) :
  key_char c = true -> ingest.is_space c = false /\ Ascii.eqb c " " = false.
Proof. by_cases_on c; intros; split; reflexivity. Qed.

Lemma space_is_space (c : ascii) :
  Ascii.eqb c " " = true -> ingest.is_space c = true.
Proof. intros H. apply Ascii.eqb_eq in H. now subst. Qed.

Lemma strip_punct_lower_kind (c : ascii) :
  let c' := ingest.strip_punct (ingest.lower_char c) in
  key_char c' = true \/ ingest.is_space c' = true.
Proof. by_cases_on c; simpl; auto. Qed.

Lemma lower_char_fixed (c : ascii) :
  key_char c = true \/ Ascii.eqb c " " = true -> ingest.lower_char c = c.
Proof.
  by_cases_on c; intros [H|H]; first [reflexivity | discriminate].
Qed.

Lemma strip_punct_fixed (c : ascii) :
  key_char c = true \/ Ascii.eqb c " " = true -> ingest.strip_punct c = c.
Proof.
  by_cases_on c; intros [H|H]; first [reflexivity | discriminate].
Qed.

Lemma collapse_ws_collapsed (l : list ascii) :
  Forall (fun c => key_char c = true \/ ingest.is_space c = true) l ->
  forall b, collapsed_from b (ingest.collapse_ws b l) = true.
Proof.
  induction 1 as [|c l Hc _ IH]; intros b; simpl.
  - reflexivity.
  - destruct (ingest.is_space c) eqn:Hs.
    + destruct b; [apply IH|]. simpl. apply IH.
    + destruct Hc as [Hk|Hk]; [|congruence].
      simpl. destruct (key_char_not_space c Hk) as [_ He].
      rewrite He, Hk. apply IH.
Qed.

Lemma lstrip_collapsed (l : list ascii) :
  forall b, collapsed_from b l = true ->
            collapsed_from true (ingest.lstrip l) = true.
Proof.
  induction l as [|c l IH]; intros b H; simpl in *.
  - reflexivity.
  - destruct (Ascii.eqb c " ") eqn:He.
    + rewrite (space_is_space c He).
      apply andb_prop in H. destruct H as [_ H]. now apply (IH true).
    + apply andb_prop in H. destruct H as [Hk H].
      destruct (key_char_not_space c Hk) as [Hs _]. rewrite Hs.
      simpl. now rewrite He, Hk.
Qed.

Lemma lstrip_app (a b : list ascii) :
  ingest.lstrip (a ++ b)
  = match ingest.lstrip a with
    | [] => ingest.lstrip b
    | r => r ++ b
    end.
Proof.
  induction a as [|c a IH]; simpl.
  - reflexivity.
  - destruct (ingest.is_space c); [exact IH | reflexivity].
Qed.

Lemma rstrip_rev (l : list ascii) :
  rev (ingest.lstrip (rev l)) = rstrip_d l.
Proof.
  induction l as [|c l IH]; simpl.
  - reflexivity.
  - rewrite lstrip_app, <- IH.
    destruct (ingest.lstrip (rev l)) as [|x r] eqn:Hr.
    + simpl. destruct (ingest.is_space c); reflexivity.
    + rewrite rev_app_distr. simpl.
      destruct (rev r ++ [x]) eqn:Hx; [|reflexivity].
      apply app_eq_nil in Hx. destruct Hx; discriminate.
Qed.

Lemma strip_as_rstrip (l : list ascii) :
  ingest.strip l = rstrip_d (ingest.lstrip l).
Proof. unfold ingest.strip. apply rstrip_rev. Qed.

Lemma rstrip_normal (l : list ascii) :
  forall b, collapsed_from b l = true ->
            rstrip_d l = [] \/ normal_from b (rstrip_d l) = true.
Proof.
  induction l as [|c l IH]; intros b H; simpl in *.
  - now left.
  - destruct (Ascii.eqb c " ") eqn:He.
    + apply andb_prop in H. destruct H as [Hb H].
      rewrite (space_is_space c He).
      destruct (IH true H) as [Hr|Hr].
      * rewrite Hr. now left.
      * right. destruct (rstrip_d l) as [|x r]; [discriminate|].
        cbn [normal_from]. rewrite He, Hb. exact Hr.
    + apply andb_prop in H. destruct H as [Hk H].
      destruct (key_char_not_space c Hk) as [Hs _]. rewrite Hs. right.
      assert (Hn : normal_from false (rstrip_d l) = true).
      { destruct (IH false H) as [Hr|Hr]; [now rewrite Hr | exact Hr]. }
      destruct (rstrip_d l) as [|x r].
      * simpl. now rewrite He, Hk.
      * cbn [normal_from]. rewrite He, Hk. exact Hn.
Qed.

Lemma normalized_chars_normal (l : list ascii) :
  is_normal
    (ingest.strip
       (ingest.collapse_ws false
          (map ingest.strip_punct (map ingest.lower_char l)))) = true.
Proof.
  rewrite strip_as_rstrip.
  assert (Hc : collapsed_from true
                 (ingest.lstrip
                    (ingest.collapse_ws false
                       (map ingest.strip_punct (map ingest.lower_char l))))
               = true).
  { apply (lstrip_collapsed _ false), collapse_ws_collapsed.
    rewrite map_map. apply Forall_map, Forall_forall. intros c _.
    apply strip_punct_lower_kind. }
  destruct (rstrip_normal _ true Hc) as [Hr|Hr].
  - now rewrite Hr.
  - unfold is_normal. destruct (rstrip_d _); [reflexivity | exact Hr].
Qed.

(** X10: every normalized title consists of words of lower-case ASCII
    letters and digits separated by single spaces, with no space at
    either end. *)
Theorem normalize_title_shape (t : string) :
  is_normal (list_ascii_of_string (ingest.normalize_title t)) = true.
Proof.
  unfold ingest.normalize_title. destruct (String.eqb t EmptyString).
  - reflexivity.
  - rewrite list_ascii_of_string_of_list_ascii. apply normalized_chars_normal.
Qed.

Lemma normal_collapsed (l : list ascii) :
  forall b, normal_from b l = true -> collapsed_from b l = true.
Proof.
  induction l as [|c l IH]; intros b H; simpl in *.
  - reflexivity.
  - destruct (Ascii.eqb c " "); apply andb_prop in H; destruct H as [H1 H2];
      rewrite H1; simpl; now apply IH.
Qed.

Lemma collapsed_kinds (l : list ascii) :
  forall b, collapsed_from b l = true ->
  Forall (fun c => key_char c = true \/ Ascii.eqb c " " = true) l.
Proof.
  induction l as [|c l IH]; intros b H; simpl in *.
  - constructor.
  - destruct (Ascii.eqb c " ") eqn:He; apply andb_prop in H;
      destruct H as [H1 H2]; constructor; eauto.
Qed.

Lemma collapse_ws_fixed (l : list ascii) :
  forall b, collapsed_from b l = true -> ingest.collapse_ws b l = l.
Proof.
  induction l as [|c l IH]; intros b H; simpl in *.
  - reflexivity.
  - destruct (Ascii.eqb c " ") eqn:He; apply andb_prop in H;
      destruct H as [H1 H2].
    + rewrite (space_is_space c He). destruct b; [discriminate|].
      f_equal; [|now apply IH]. apply Ascii.eqb_eq in He. now subst.
    + destruct (key_char_not_space c H1) as [Hs _]. rewrite Hs.
      f_equal. now apply IH.
Qed.

Lemma rstrip_fixed (l : list ascii) :
  forall b, normal_from b l = true -> rstrip_d l = l.
Proof.
  induction l as [|c l IH]; intros b H; simpl in *.
  - reflexivity.
  - destruct (Ascii.eqb c " ") eqn:He; apply andb_prop in H;
      destruct H as [H1 H2].
    + rewrite (IH true H2). destruct l; [discriminate|reflexivity].
    + rewrite (IH false H2). destruct l; [|reflexivity].
      destruct (key_char_not_space c H1) as [Hs _]. now rewrite Hs.
Qed.

Lemma map_fixed (f : ascii -> ascii) (l : list ascii) :
  Forall (fun c => f c = c) l -> map f l = l.
Proof. induction 1; simpl; congruence. Qed.

Lemma normal_is_fixed (l : list ascii) :
  is_normal l = true ->
  ingest.normalize_title (string_of_list_ascii l) = string_of_list_ascii l.
Proof.
  intros H. destruct l as [|c l]; [reflexivity|].
  unfold is_normal in H. unfold ingest.normalize_title.
  cbn [string_of_list_ascii String.eqb].
  change (String c (string_of_list_ascii l))
    with (string_of_list_ascii (c :: l)).
  rewrite list_ascii_of_string_of_list_ascii.
  pose proof (normal_collapsed _ _ H) as Hc.
  pose proof (collapsed_kinds _ _ Hc) as Hk.
  rewrite (map_fixed ingest.lower_char), (map_fixed ingest.strip_punct).
  - rewrite (collapse_ws_fixed _ false).
    + rewrite strip_as_rstrip.
      assert (Hl : ingest.lstrip (c :: l) = c :: l).
      { simpl in *. destruct (Ascii.eqb c " "); [discriminate|].
        apply andb_prop in H. destruct H as [H1 _].
        destruct (key_char_not_space c H1) as [Hs _]. now rewrite Hs. }
      rewrite Hl. now rewrite (rstrip_fixed _ true H).
    + simpl in *. destruct (Ascii.eqb c " "); [discriminate|exact Hc].
  - eapply Forall_impl; [|exact Hk]. intros a Ha. now apply strip_punct_fixed.
  - eapply Forall_impl; [|exact Hk]. intros a Ha. now apply lower_char_fixed.
Qed.

(** X11: [normalize_title] is idempotent: normalizing a normalized title
    changes nothing, so a group key is its own normalization. *)
Theorem normalize_title_idempotent (t : string) :
  ingest.normalize_title (ingest.normalize_title t) = ingest.normalize_title t.
Proof.
  assert (Hn : is_normal (list_ascii_of_string (ingest.normalize_title t))
               = true).
  { unfold ingest.normalize_title. destruct (String.eqb t EmptyString).
    - reflexivity.
    - rewrite list_ascii_of_string_of_list_ascii.
      apply normalized_chars_normal. }
  apply normal_is_fixed in Hn.
  now rewrite string_of_list_ascii_of_string in Hn.
Qed.

(** X12: titles that differ only in the case of ASCII letters are
    normalized to the same key. *)
Theorem normalize_title_ignores_case (t1 t2 : string) :
  lower_string t1 = lower_string t2 ->
  ingest.normalize_title t1 = ingest.normalize_title t2.
Proof.
  unfold lower_string. intros H.
  apply (f_equal list_ascii_of_string) in H.
  rewrite !list_ascii_of_string_of_list_ascii in H.
  unfold ingest.normalize_title. rewrite H.
  destruct t1 as [|c1 t1]; destruct t2 as [|c2 t2]; try reflexivity;
    simpl in H; discriminate.
Qed.

End NormalizeTitle.

(** * The order of the groups *)

Section FirstOccurrences.

Lemma existsb_eqb_In (x : string) (l : list string) :
  existsb (String.eqb x) l = true <-> In x l.
Proof.
  rewrite existsb_exists. split.
  - intros [y [Hy He]]. apply String.eqb_eq in He. now subst.
  - intros H. exists x. split; [exact H | apply String.eqb_refl].
Qed.

Lemma existsb_eqb_ext (x : string) (s1 s2 : list string) :
  (forall y, In y s1 <-> In y s2) ->
  existsb (String.eqb x) s1 = existsb (String.eqb x) s2.
Proof.
  intros H.
  destruct (existsb (String.eqb x) s1) eqn:H1;
    destruct (existsb (String.eqb x) s2) eqn:H2; try reflexivity.
  - apply existsb_eqb_In, H, existsb_eqb_In in H1. congruence.
  - apply existsb_eqb_In, H, existsb_eqb_In in H2. congruence.
Qed.

Lemma firsts_from_ext (l : list string) :
  forall s1 s2, (forall y, In y s1 <-> In y s2) ->
                firsts_from s1 l = firsts_from s2 l.
Proof.
  induction l as [|x l IH]; intros s1 s2 H; simpl.
  - reflexivity.
  - rewrite (existsb_eqb_ext x s1 s2 H).
    destruct (existsb (String.eqb x) s2).
    + now apply IH.
    + f_equal. apply IH. intros y. simpl. rewrite H. tauto.
Qed.

Lemma firsts_from_not_seen (l : list string) :
  forall seen x, In x (firsts_from seen l) -> ~ In x seen /\ In x l.
Proof.
  induction l as [|y l IH]; intros seen x H; simpl in *.
  - contradiction.
  - destruct (existsb (String.eqb y) seen) eqn:He.
    + destruct (IH _ _ H). auto.
    + destruct H as [<-|H].
      * split; [|now left]. intros Hin. apply existsb_eqb_In in Hin.
        congruence.
      * destruct (IH _ _ H) as [Hn Hl]. split; [|now right].
        intros Hin. apply Hn. now right.
Qed.

Lemma firsts_from_length (l : list string) :
  forall seen, (List.length (firsts_from seen l) <= List.length l)%nat.
Proof.
  induction l as [|y l IH]; intros seen; simpl.
  - lia.
  - destruct (existsb (String.eqb y) seen); simpl.
    + specialize (IH seen). lia.
    + specialize (IH (y :: seen)). lia.
Qed.

Lemma group_by_keys_order (keyed : list (string * item)) :
  forall g,
  map fst (group_by_keys keyed g)
  = map fst g ++ firsts_from (map fst g) (map fst keyed).
Proof.
  induction keyed as [|[k it] keyed IH]; intros g; simpl.
  - now rewrite app_nil_r.
  - unfold group_by_keys in IH. rewrite IH.
    destruct (existsb (String.eqb k) (map fst g)) eqn:He.
    + apply existsb_eqb_In in He.
      now rewrite groups_append_keys_present.
    + assert (Hout : ~ In k (map fst g)).
      { intros Hin. apply existsb_eqb_In in Hin. congruence. }
      rewrite groups_append_keys_absent by exact Hout.
      rewrite <- app_assoc. simpl. do 2 f_equal.
      apply firsts_from_ext. intros y. rewrite in_app_iff. simpl. tauto.
Qed.

(** X13: the groups of [group_evidence] are listed in the order in which
    their keys first occur among the items, so there are at most as many
    groups as items, and none for an empty input. *)
Theorem groups_in_order_of_first_occurrence
    (uuid4 : nat -> string) (items : list item) :
  map fst (ingest.group_evidence uuid4 items)
  = firsts (map fst (assign_keys uuid4 0 items))
  /\ (List.length (ingest.group_evidence uuid4 items) <= List.length items)%nat
  /\ ingest.group_evidence uuid4 [] = [].
Proof.
  assert (Ho : map fst (ingest.group_evidence uuid4 items)
               = firsts (map fst (assign_keys uuid4 0 items))).
  { rewrite group_evidence_by_keys. apply group_by_keys_order. }
  split; [exact Ho|]. split; [|reflexivity].
  rewrite <- (length_map fst), Ho. unfold firsts.
  etransitivity; [apply firsts_from_length|].
  rewrite length_map, <- (length_map snd), assign_keys_items. lia.
Qed.

End FirstOccurrences.

(** * The canonical records *)

Section MostCommon.

Lemma occurrences_cons (x y : string) (l : list string) :
  occurrences (x :: l) y
  = if String.eqb x y then S (occurrences l y) else occurrences l y.
Proof.
  unfold occurrences. simpl.
  destruct (string_dec x y) as [->|Hne].
  - now rewrite String.eqb_refl.
  - apply String.eqb_neq in Hne. now rewrite Hne.
Qed.

Lemma counter_add_present (x : string) (c : list (string * nat)) :
  NoDup (map fst c) -> In x (map fst c) ->
  ingest_run.counter_add x c
  = map (fun p => if String.eqb (fst p) x then (fst p, S (snd p)) else p) c.
Proof.
  induction c as [|[y n] c IH]; simpl; intros Hnd Hin.
  - contradiction.
  - inversion Hnd as [|? ? Hy Hnd']; subst.
    destruct (String.eqb_spec y x) as [->|Hne].
    + f_equal. symmetry. rewrite <- (map_id c) at 2.
      apply map_ext_in. intros [z m] Hz. simpl.
      destruct (String.eqb_spec z x) as [->|_]; [|reflexivity].
      exfalso. apply Hy. now apply (in_map fst) in Hz.
    + f_equal. apply IH; [exact Hnd'|].
      destruct Hin; [contradiction|assumption].
Qed.

Lemma counter_add_absent (x : string) (c : list (string * nat)) :
  ~ In x (map fst c) -> ingest_run.counter_add x c = c ++ [(x, 1%nat)].
Proof.
  induction c as [|[y n] c IH]; simpl; intros Hout.
  - reflexivity.
  - destruct (String.eqb_spec y x) as [->|Hne].
    + exfalso. apply Hout. now left.
    + f_equal. apply IH. intros Hin. apply Hout. now right.
Qed.

Lemma counter_fold (l : list string) :
  forall c, NoDup (map fst c) ->
  fold_left (fun c x => ingest_run.counter_add x c) l c
  = map (fun p => (fst p, (snd p + occurrences l (fst p))%nat)) c
    ++ map (fun x => (x, occurrences l x)) (firsts_from (map fst c) l).
Proof.
  induction l as [|x l IH]; intros c Hnd; simpl.
  - rewrite app_nil_r. rewrite <- (map_id c) at 1. apply map_ext.
    intros [y n]. simpl. f_equal. unfold occurrences. simpl. lia.
  - destruct (existsb (String.eqb x) (map fst c)) eqn:He.
    + apply existsb_eqb_In in He.
      rewrite (counter_add_present x c Hnd He).
      set (upd := fun p : string * nat =>
                    if String.eqb (fst p) x then (fst p, S (snd p)) else p).
      assert (Hkeys : map fst (map upd c) = map fst c).
      { rewrite map_map. apply map_ext. intros [y n]. unfold upd.
        cbn [fst snd]. now destruct (String.eqb y x). }
      rewrite IH by (rewrite Hkeys; exact Hnd).
      rewrite Hkeys, map_map. f_equal.
      * apply map_ext. intros [y n]. unfold upd. cbn [fst snd].
        rewrite occurrences_cons, (String.eqb_sym x y).
        destruct (String.eqb y x); cbn [fst snd]; f_equal; lia.
      * apply map_ext_in. intros y Hy. rewrite occurrences_cons.
        destruct (String.eqb_spec x y) as [->|_]; [|reflexivity].
        apply firsts_from_not_seen in Hy. tauto.
    + assert (Hout : ~ In x (map fst c)).
      { intros Hin. apply existsb_eqb_In in Hin. congruence. }
      rewrite (counter_add_absent x c Hout).
      rewrite IH.
      * rewrite !map_app. simpl. rewrite <- app_assoc. simpl. f_equal.
        -- apply map_ext_in. intros [y n] Hy. cbn [fst snd].
           rewrite occurrences_cons.
           destruct (String.eqb_spec x y) as [->|_]; [|reflexivity].
           exfalso. apply Hout. now apply (in_map fst) in Hy.
        -- f_equal.
           ++ rewrite occurrences_cons, String.eqb_refl. reflexivity.
           ++ rewrite (firsts_from_ext l (map fst c ++ [x]) (x :: map fst c))
                by (intros y; rewrite in_app_iff; simpl; tauto).
              apply map_ext_in. intros y Hy. rewrite occurrences_cons.
              destruct (String.eqb_spec x y) as [->|_]; [|reflexivity].
              apply firsts_from_not_seen in Hy. exfalso. apply Hy. now left.
      * rewrite map_app. simpl. apply NoDup_app; [exact Hnd | | ].
        -- repeat constructor. intros [].
        -- intros y Hy [<-|[]]. contradiction.
Qed.

Lemma Counter_spec (l : list string) :
  ingest_run.Counter l = map (fun x => (x, occurrences l x)) (firsts l).
Proof.
  unfold ingest_run.Counter, firsts. now rewrite counter_fold by constructor.
Qed.

Lemma first_max_spec (c : list (string * nat)) :
  forall best,
  exists pre post,
    best :: c = pre ++ ingest_run.first_max best c :: post
    /\ (forall q, In q pre -> (snd q < snd (ingest_run.first_max best c))%nat)
    /\ (forall q, In q post ->
                  (snd q <= snd (ingest_run.first_max best c))%nat).
Proof.
  induction c as [|p c IH]; intros best; simpl.
  - exists [], []. repeat split; intros q [].
  - destruct (Nat.ltb_spec (snd best) (snd p)) as [Hlt|Hge].
    + destruct (IH p) as (pre & post & Heq & Hpre & Hpost).
      exists (best :: pre), post. rewrite Heq. split; [reflexivity|].
      split; [|exact Hpost]. intros q [<-|Hq]; [|now apply Hpre].
      assert (Hp : In p (pre ++ ingest_run.first_max p c :: post))
        by (rewrite <- Heq; now left).
      apply in_app_or in Hp. destruct Hp as [Hp|[Hp|Hp]].
      * specialize (Hpre p Hp). lia.
      * rewrite Hp. exact Hlt.
      * specialize (Hpost p Hp). lia.
    + destruct (IH best) as (pre & post & Heq & Hpre & Hpost).
      destruct pre as [|b pre].
      * simpl in Heq.
        assert (Hfm : ingest_run.first_max best c = best) by congruence.
        assert (Hc : c = post) by congruence.
        exists [], (p :: post).
        split; [simpl; congruence|]. split; [intros q []|].
        intros q [<-|Hq]; [rewrite Hfm; exact Hge | now apply Hpost].
      * simpl in Heq. injection Heq as Hb Hc. subst b.
        exists (best :: p :: pre), post.
        split; [simpl; congruence|]. split; [|exact Hpost].
        intros q [<-|[<-|Hq]].
        -- apply Hpre. now left.
        -- assert (snd best < snd (ingest_run.first_max best c))%nat
             by (apply Hpre; now left). lia.
        -- apply Hpre. now right.
Qed.

Lemma firsts_from_complete (l : list string) :
  forall seen x, In x l -> ~ In x seen -> In x (firsts_from seen l).
Proof.
  induction l as [|y l IH]; intros seen x Hin Hout; simpl in *.
  - contradiction.
  - destruct (existsb (String.eqb y) seen) eqn:He.
    + destruct Hin as [->|Hin]; [|now apply IH].
      apply existsb_eqb_In in He. contradiction.
    + destruct (string_dec y x) as [->|Hne]; [now left|].
      right. apply IH.
      * destruct Hin; [contradiction|assumption].
      * intros [Heq|Hs]; [contradiction|contradiction].
Qed.

(** X14: the name that [Counter(l).most_common(1)] picks from a non-empty
    list occurs in it at least as often as every other string, and
    strictly more often than every string that first occurs before it:
    among the most frequent strings the first one encountered wins.  For
    an empty list the default is used. *)
Theorem most_common_is_first_of_the_most_frequent
    (l : list string) (default : string) :
  (l <> [] ->
   exists pre post,
     firsts l = pre ++ ingest_run.most_common_or l default :: post
     /\ (forall t, In t pre ->
           (occurrences l t
            < occurrences l (ingest_run.most_common_or l default))%nat)
     /\ (forall t,
           (occurrences l t
            <= occurrences l (ingest_run.most_common_or l default))%nat))
  /\ ingest_run.most_common_or [] default = default.
Proof.
  split; [|reflexivity]. intros Hne.
  unfold ingest_run.most_common_or, ingest_run.most_common_1.
  rewrite Counter_spec.
  destruct (firsts l) as [|x0 fs] eqn:Hf.
  { destruct l as [|x l]; [contradiction|]. discriminate Hf. }
  cbn [map].
  destruct (first_max_spec (map (fun x => (x, occurrences l x)) fs)
              (x0, occurrences l x0)) as (pre & post & Heq & Hpre & Hpost).
  set (m := ingest_run.first_max (x0, occurrences l x0)
              (map (fun x => (x, occurrences l x)) fs)) in *.
  change ((x0, occurrences l x0) :: map (fun x => (x, occurrences l x)) fs)
    with (map (fun x => (x, occurrences l x)) (x0 :: fs)) in Heq.
  apply map_eq_app in Heq. destruct Heq as (l1 & l2 & Hsplit & H1 & H2).
  destruct l2 as [|x l3]; [discriminate|]. simpl in H2.
  injection H2 as Hm H3. cbn [fst].
  assert (Hname : fst m = x) by (rewrite <- Hm; reflexivity).
  assert (Hcount : snd m = occurrences l x) by (rewrite <- Hm; reflexivity).
  rewrite Hname. exists l1, l3. split; [exact Hsplit|].
  assert (Hbefore : forall t, In t l1 ->
            (occurrences l t < occurrences l x)%nat).
  { intros t Ht. rewrite <- Hcount.
    apply (Hpre (t, occurrences l t)). rewrite <- H1.
    now apply (in_map (fun x => (x, occurrences l x))). }
  split; [exact Hbefore|]. intros t.
  destruct (in_dec string_dec t l) as [Hin|Hout].
  - assert (Ht : In t (x0 :: fs)).
    { rewrite <- Hf. apply firsts_from_complete; [exact Hin | intros []]. }
    rewrite Hsplit in Ht. apply in_app_or in Ht.
    destruct Ht as [Ht|[<-|Ht]].
    + specialize (Hbefore t Ht). lia.
    + lia.
    + rewrite <- Hcount. apply (Hpost (t, occurrences l t)). rewrite <- H3.
      now apply (in_map (fun x => (x, occurrences l x))).
  - unfold occurrences at 1.
    rewrite (proj1 (count_occ_not_In string_dec l t) Hout). lia.
Qed.

Lemma most_common_or_In (l : list string) (default : string) :
  l <> [] -> In (ingest_run.most_common_or l default) l.
Proof.
  intros Hne. unfold ingest_run.most_common_or, ingest_run.most_common_1.
  rewrite Counter_spec.
  destruct (firsts l) as [|x0 fs] eqn:Hf.
  { destruct l as [|x l]; [contradiction|]. discriminate Hf. }
  cbn [map].
  destruct (first_max_spec (map (fun x => (x, occurrences l x)) fs)
              (x0, occurrences l x0)) as (pre & post & Heq & _ & _).
  set (m := ingest_run.first_max (x0, occurrences l x0)
              (map (fun x => (x, occurrences l x)) fs)) in *.
  assert (Hm : In m (map (fun x => (x, occurrences l x)) (x0 :: fs))).
  { cbn [map]. rewrite Heq. apply in_or_app. right. now left. }
  apply in_map_iff in Hm. destruct Hm as (x & Hx & Hin).
  rewrite <- Hx. cbn [fst]. rewrite <- Hf in Hin.
  apply firsts_from_not_seen in Hin. tauto.
Qed.

End MostCommon.

Section CanonicalRecords.

Variable fromisoformat : string -> option datetime.
Variable now : Z.
Variable uuid4 : nat -> string.

Lemma canonical_of_group_inv (the_id key : string) (ev : list item)
    (c : ingest_run.canonical) :
  ingest_run.canonical_of_group fromisoformat now the_id key ev = Some c ->
  exists agg rep rest,
    score_range.aggregate_workflow fromisoformat now ev None = Some agg
    /\ ev = rep :: rest
    /\ ingest_run.id c = the_id
    /\ ingest_run.workflow c
       = ingest_run.most_common_or (map ingest.title_of ev) key
    /\ ingest_run.platform c
       = ingest_run.most_common_or
           (ingest_run.truthy_strings (map ingest_run.item_platform ev))
           "mixed"
    /\ ingest_run.country c
       = match ingest_run.most_common_1
                 (ingest_run.Counter
                    (ingest_run.truthy_strings
                       (map ingest_run.item_country ev))) with
         | p :: _ => Some (fst p)
         | [] => None
         end
    /\ ingest_run.source_id c = source_id rep
    /\ ingest_run.source_url c = source_url rep
    /\ ingest_run.evidence_count c = List.length ev
    /\ ingest_run.evidence c = ev
    /\ ingest.aggregate_totals ev = Some (ingest_run.totals c)
    /\ ingest_run.popularity_score c = score.popularity_score agg
    /\ ingest_run.score_components c = score.score_components agg.
Proof.
  unfold ingest_run.canonical_of_group. intros H.
  destruct (score_range.aggregate_workflow fromisoformat now ev None)
    as [agg|]; cbn [obind] in H; [|discriminate].
  destruct (ingest.aggregate_totals ev) as [tot|]; cbn [obind] in H;
    [|discriminate].
  destruct ev as [|rep rest]; [discriminate|].
  injection H as <-. exists agg, rep, rest. cbn. repeat split; reflexivity.
Qed.

Lemma canonical_of_group_None (the_id key : string) (ev : list item) :
  ev <> [] ->
  (ingest_run.canonical_of_group fromisoformat now the_id key ev = None
   <-> score_range.aggregate_workflow fromisoformat now ev None = None
       \/ ingest.aggregate_totals ev = None).
Proof.
  intros Hne. unfold ingest_run.canonical_of_group.
  destruct (score_range.aggregate_workflow fromisoformat now ev None)
    as [agg|]; cbn [obind]; [|tauto].
  destruct (ingest.aggregate_totals ev) as [tot|]; cbn [obind]; [|tauto].
  destruct ev; [contradiction|].
  split; [discriminate | intros [H|H]; discriminate].
Qed.

Lemma ratio_None (total views : Z) :
  (0 < views)%Z ->
  ingest.ratio total views = None
  <-> (pyfloat.overflow_bound * views <=? Z.abs total)%Z = true.
Proof.
  intros Hv. unfold ingest.ratio. rewrite (Z.abs_eq views) by lia.
  destruct (Z.ltb_spec (Z.abs total) (pyfloat.overflow_bound * views));
    split; intros H'; try discriminate; try reflexivity.
  - apply Z.leb_le in H'. lia.
  - apply Z.leb_le. lia.
Qed.

(** The totals of a group raise exactly when one of the two ratios has no
    double. *)
Lemma aggregate_totals_None (ev : list item) :
  ingest.aggregate_totals ev = None <-> ratio_overflows ev = true.
Proof.
  unfold ingest.aggregate_totals, ratio_overflows.
  destruct (Z.ltb_spec 0 (ingest.total_views (ingest.group_totals ev)))
    as [Hv|Hv]; cbn [andb]; [|split; discriminate].
  pose proof (ratio_None (ingest.total_likes (ingest.group_totals ev)) _ Hv)
    as Hl.
  pose proof (ratio_None (ingest.total_comments (ingest.group_totals ev)) _ Hv)
    as Hc.
  destruct (ingest.ratio (ingest.total_likes _) _) as [l|]; cbn [obind].
  - destruct (ingest.ratio (ingest.total_comments _) _) as [c|]; cbn [obind].
    + split; [discriminate|]. intros H. apply orb_prop in H.
      destruct H as [H|H]; [apply Hl in H | apply Hc in H]; discriminate.
    + split; [|reflexivity]. intros _. apply orb_true_iff. right.
      now apply Hc.
  - split; [|reflexivity]. intros _. apply orb_true_iff. left. now apply Hl.
Qed.

Lemma canonical_loop_groups (g : ingest.groups_t) :
  forall drawn cs,
  ingest_run.canonical_loop fromisoformat now uuid4 drawn g = Some cs ->
  map ingest_run.evidence cs = map snd g
  /\ Forall (fun c =>
               ingest_run.evidence_count c
               = List.length (ingest_run.evidence c)
               /\ exists rep rest,
                    ingest_run.evidence c = rep :: rest
                    /\ ingest_run.source_id c = source_id rep
                    /\ ingest_run.source_url c = source_url rep) cs.
Proof.
  induction g as [|[key ev] g IH]; intros drawn cs H; simpl in H.
  - injection H as <-. split; constructor.
  - destruct (ingest_run.canonical_of_group fromisoformat now (uuid4 drawn)
                key ev) as [c|] eqn:Hc; cbn [obind] in H; [|discriminate].
    destruct (ingest_run.canonical_loop fromisoformat now uuid4 (S drawn) g)
      as [cs'|] eqn:Hl; cbn [obind] in H; [|discriminate].
    injection H as <-. destruct (IH _ _ Hl) as [Hev Hall].
    destruct (canonical_of_group_inv _ _ _ _ Hc)
      as (agg & rep & rest & _ & Hrep & _ & _ & _ & _ & Hsid & Hurl & Hn
          & He & _).
    split.
    + simpl. now rewrite He, Hev.
    + constructor; [|exact Hall]. rewrite He. split; [exact Hn|].
      exists rep, rest. auto.
Qed.

(** X15: when [run_ingest] builds its canonical list, there is one record
    per group, in the order of the groups; each record holds the items of
    its group, counts them in [evidence_count], and takes [source_id] and
    [source_url] from the first of them; the counts add up to the number
    of raw evidence items. *)
Theorem canonical_records_follow_the_groups
    (raw : list item) (cs : list ingest_run.canonical) :
  ingest_run.build_canonical fromisoformat now uuid4 raw = Some cs ->
  map ingest_run.evidence cs = map snd (ingest.group_evidence uuid4 raw)
  /\ Forall (fun c =>
               ingest_run.evidence_count c
               = List.length (ingest_run.evidence c)
               /\ exists rep rest,
                    ingest_run.evidence c = rep :: rest
                    /\ ingest_run.source_id c = source_id rep
                    /\ ingest_run.source_url c = source_url rep) cs
  /\ list_sum (map ingest_run.evidence_count cs) = List.length raw.
Proof.
  unfold ingest_run.build_canonical. intros H.
  destruct (canonical_loop_groups _ _ _ H) as [Hev Hall].
  change (snd (fold_left (ingest.group_step uuid4) raw (0%nat, [])))
    with (ingest.group_evidence uuid4 raw) in Hev.
  split; [exact Hev|]. split; [exact Hall|].
  assert (Hcount : map ingest_run.evidence_count cs
                   = map (@List.length item) (map ingest_run.evidence cs)).
  { rewrite map_map. clear Hev H. induction Hall as [|c cs' [Hc _] _ IH];
      simpl; congruence. }
  rewrite Hcount, Hev, <- length_concat.
  rewrite group_evidence_by_keys.
  rewrite (Permutation_length (group_by_keys_perm _ [])). simpl.
  now rewrite assign_keys_items.
Qed.

Lemma canonical_loop_None (g : ingest.groups_t) :
  Forall (fun kl => snd kl <> []) g ->
  forall drawn,
  ingest_run.canonical_loop fromisoformat now uuid4 drawn g = None
  <-> exists ev, In ev (map snd g)
                 /\ (score_range.aggregate_workflow fromisoformat now ev None
                     = None
                     \/ ingest.aggregate_totals ev = None).
Proof.
  induction 1 as [|[key ev] g Hne _ IH]; intros drawn; simpl.
  - split; [discriminate | intros [ev [[] _]]].
  - simpl in Hne.
    pose proof (canonical_of_group_None (uuid4 drawn) key ev Hne) as Hg.
    destruct (ingest_run.canonical_of_group fromisoformat now (uuid4 drawn)
                key ev) as [c|]; cbn [obind].
    + specialize (IH (S drawn)).
      destruct (ingest_run.canonical_loop fromisoformat now uuid4 (S drawn) g)
        as [cs|]; cbn [obind].
      * split; [discriminate|]. intros [ev' [[<-|Hin] Hnone]].
        -- apply Hg in Hnone. discriminate.
        -- destruct IH as [_ IH]. discriminate IH. eauto.
      * split; [|reflexivity]. intros _.
        destruct IH as [IH _]. destruct (IH eq_refl) as [ev' [Hin Hnone]].
        eauto.
    + split; [|reflexivity]. intros _. exists ev. split; [now left|].
      now apply Hg.
Qed.

(** X16: [run_ingest] has no handler around scoring or around the
    ratios of the totals: the construction of the canonical list raises
    exactly when per-item scoring raises on one of the raw evidence
    items, whatever group the item falls in, or when in one of the groups
    the total of likes or of comments, divided by a positive total of
    views, has no double. *)
Theorem ingest_aborts_iff_scoring_or_a_ratio_raises (raw : list item) :
  ingest_run.build_canonical fromisoformat now uuid4 raw = None
  <-> (exists it,
         In it raw
         /\ score_range.compute_item_scores fromisoformat now it = None)
      \/ (exists ev,
            In ev (map snd (ingest.group_evidence uuid4 raw))
            /\ ratio_overflows ev = true).
Proof.
  unfold ingest_run.build_canonical.
  change (snd (fold_left (ingest.group_step uuid4) raw (0%nat, [])))
    with (ingest.group_evidence uuid4 raw).
  rewrite canonical_loop_None
    by (rewrite group_evidence_by_keys;
        apply group_by_keys_nonempty; constructor).
  assert (Hperm : Permutation
            (List.concat (map snd (ingest.group_evidence uuid4 raw))) raw).
  { rewrite group_evidence_by_keys, group_by_keys_perm. simpl.
    now rewrite assign_keys_items. }
  split.
  - intros [ev [Hev [Hnone|Hnone]]].
    + left. apply range_aggregate_None_iff in Hnone.
      destruct Hnone as [it [Hit Hsc]]. exists it. split; [|exact Hsc].
      apply (Permutation_in _ Hperm). apply in_concat. eauto.
    + right. exists ev. split; [exact Hev|]. now apply aggregate_totals_None.
  - intros [[it [Hit Hsc]]|[ev [Hev Hover]]].
    + apply (Permutation_in _ (Permutation_sym Hperm)) in Hit.
      apply in_concat in Hit. destruct Hit as [ev [Hev Hin]].
      exists ev. split; [exact Hev|]. left.
      apply range_aggregate_None_iff. eauto.
    + exists ev. split; [exact Hev|]. right. now apply aggregate_totals_None.
Qed.

Lemma truthy_strings_In (l : list (option string)) (s : string) :
  In s (ingest_run.truthy_strings l) -> In (Some s) l /\ s <> EmptyString.
Proof.
  unfold ingest_run.truthy_strings. rewrite in_flat_map.
  intros [[x|] [Hx Hin]]; [|contradiction].
  destruct (String.eqb_spec x EmptyString) as [->|Hne]; [contradiction|].
  destruct Hin as [<-|[]]. auto.
Qed.

(** X17: the display name of a canonical record is the title (or keyword)
    of one of its items; its platform is the non-empty platform of one of
    its items, and ["mixed"] only when no item names a platform; its
    country is the non-empty country of one of its items, and [None] only
    when no item has one. *)
Theorem canonical_name_platform_country_come_from_items
    (the_id key : string) (ev : list item) (c : ingest_run.canonical) :
  ingest_run.canonical_of_group fromisoformat now the_id key ev = Some c ->
  In (ingest_run.workflow c) (map ingest.title_of ev)
  /\ (ingest_run.truthy_strings (map ingest_run.item_platform ev) = [] ->
      ingest_run.platform c = "mixed")
  /\ (ingest_run.truthy_strings (map ingest_run.item_platform ev) <> [] ->
      In (Some (ingest_run.platform c)) (map platform ev)
      /\ ingest_run.platform c <> EmptyString)
  /\ (ingest_run.truthy_strings (map ingest_run.item_country ev) = [] ->
      ingest_run.country c = None)
  /\ (ingest_run.truthy_strings (map ingest_run.item_country ev) <> [] ->
      exists x, ingest_run.country c = Some x /\ x <> EmptyString
                /\ In (Some x) (map (fun e => country (metrics e)) ev)).
Proof.
  intros H.
  destruct (canonical_of_group_inv _ _ _ _ H)
    as (agg & rep & rest & _ & Hev & _ & Hw & Hp & Hc & _).
  rewrite Hw, Hp, Hc. split; [|split; [|split; [|split]]].
  - apply most_common_or_In. rewrite Hev. discriminate.
  - intros ->. reflexivity.
  - intros Hne. apply truthy_strings_In. now apply most_common_or_In.
  - intros ->. reflexivity.
  - intros Hne.
    pose proof (most_common_or_In _ EmptyString Hne) as Hin.
    unfold ingest_run.most_common_or in Hin.
    destruct (ingest_run.most_common_1
                (ingest_run.Counter
                   (ingest_run.truthy_strings
                      (map ingest_run.item_country ev)))) as [|p ps] eqn:Hm.
    + exfalso. unfold ingest_run.most_common_1 in Hm.
      rewrite Counter_spec in Hm.
      destruct (ingest_run.truthy_strings (map ingest_run.item_country ev))
        as [|y ys]; [contradiction|].
      unfold firsts in Hm. simpl in Hm. discriminate.
    + exists (fst p). split; [reflexivity|].
      apply truthy_strings_In in Hin.
      unfold ingest_run.item_country in Hin. tauto.
Qed.

End CanonicalRecords.

(** * Further properties of the upsert *)

Section UpsertInvariants.

Variable json : Type.
Variable json_truthy : json -> bool.
Variable empty_list empty_dict : json.
Variable fromisoformat : string -> option datetime.
Variable uuid4 : nat -> string.
Variable accepts : Workflow.row json -> bool.


Lemma upd_keeps_keys (r x : Workflow.row json) :
  Workflow.id (conflict_update r x) = Workflow.id x
  /\ Workflow.source_id (conflict_update r x) = Workflow.source_id x.
Proof.
  unfold conflict_update. destruct (Workflow.opt_str_eqb _ _); [|auto].
  rewrite do_update_update_cols. auto.
Qed.

Lemma upd_not_null (r x : Workflow.row json) :
  Workflow.not_null_ok r = true -> Workflow.not_null_ok x = true ->
  Workflow.not_null_ok (conflict_update r x) = true.
Proof.
  intros Hr Hx. unfold conflict_update. destruct (Workflow.opt_str_eqb _ _); [|exact Hx].
  rewrite do_update_update_cols. unfold Workflow.not_null_ok in *. cbn.
  apply andb_prop in Hr. destruct Hr as [Hr _].
  apply andb_prop in Hr. destruct Hr as [Hw Hp].
  apply andb_prop in Hx. destruct Hx as [_ Hs].
  now rewrite Hw, Hp, Hs.
Qed.

Lemma opt_str_eqb_eq (a b : option string) :
  Workflow.opt_str_eqb a b = true <-> exists s, a = Some s /\ b = Some s.
Proof.
  destruct a as [x|], b as [y|]; simpl; split;
    try discriminate; try (intros [s [? ?]]; discriminate).
  - intros H. apply String.eqb_eq in H. subst. eauto.
  - intros [s [[= ->] [= ->]]]. apply String.eqb_refl.
Qed.

Lemma not_null_source_id (r : Workflow.row json) :
  Workflow.not_null_ok r = true -> exists s, Workflow.source_id r = Some s.
Proof.
  unfold Workflow.not_null_ok. intros H. apply andb_prop in H.
  destruct H as [_ H]. destruct (Workflow.source_id r); [eauto|discriminate].
Qed.

Lemma insert_cases (server_now : Z) (r : Workflow.row json)
    (t t' : Workflow.table json) :
  Workflow.insert_on_conflict_do_update server_now Workflow.update_cols r t
  = Some t' ->
  Workflow.not_null_ok r = true
  /\ ((existsb (fun x => Workflow.opt_str_eqb (Workflow.source_id x)
                           (Workflow.source_id r)) t = true
       /\ t' = map (conflict_update r) t)
      \/ (existsb (fun x => Workflow.opt_str_eqb (Workflow.source_id x)
                              (Workflow.source_id r)) t = false
          /\ existsb (fun x => String.eqb (Workflow.id x) (Workflow.id r)) t
             = false
          /\ t' = t ++ [Workflow.Build_row (Workflow.id r)
                          (Workflow.workflow r) (Workflow.platform r)
                          (Workflow.source_id r) (Workflow.source_url r)
                          (Workflow.keywords r) (Workflow.country r)
                          (Workflow.popularity_metrics r)
                          (Workflow.popularity_score r)
                          (Workflow.score_components r)
                          (Workflow.last_updated r)
                          (Workflow.evidence_count r) (Some server_now)])).
Proof.
  unfold Workflow.insert_on_conflict_do_update. intros H.
  destruct (Workflow.not_null_ok r); [|discriminate]. cbn [negb] in H.
  split; [reflexivity|].
  destruct (existsb _ t) eqn:Hs.
  - left. injection H as <-. auto.
  - right.
    destruct (existsb (fun x => String.eqb (Workflow.id x) (Workflow.id r)) t)
      eqn:Hi; [discriminate|].
    injection H as <-. auto.
Qed.

(** X18: a successful upsert statement keeps the constraints of the
    table: [id] stays a key, [source_id] stays unique and the mandatory
    columns stay set; the table keeps its rows or gains exactly one, and
    afterwards holds a row with the [source_id] of the new one. *)
Theorem upsert_statement_keeps_table_constraints
    (server_now : Z) (r : Workflow.row json) (t t' : Workflow.table json) :
  table_ok t ->
  Workflow.insert_on_conflict_do_update server_now Workflow.update_cols r t
  = Some t' ->
  table_ok t'
  /\ (List.length t' = List.length t \/ List.length t' = S (List.length t))
  /\ In (Workflow.source_id r) (map Workflow.source_id t').
Proof.
  intros (Hid & Hsid & Hnn) H.
  destruct (insert_cases _ _ _ _ H) as [Hr [[Hex ->]|(Hs & Hi & ->)]].
  - assert (Hk1 : map Workflow.id (map (conflict_update r) t) = map Workflow.id t).
    { rewrite map_map. apply map_ext. intros x. apply upd_keeps_keys. }
    assert (Hk2 : map Workflow.source_id (map (conflict_update r) t)
                  = map Workflow.source_id t).
    { rewrite map_map. apply map_ext. intros x. apply upd_keeps_keys. }
    split; [|split].
    + unfold table_ok. rewrite Hk1, Hk2. repeat split; try assumption.
      apply Forall_map. eapply Forall_impl; [|exact Hnn].
      intros x Hx. now apply upd_not_null.
    + left. apply length_map.
    + rewrite Hk2. apply existsb_exists in Hex.
      destruct Hex as [x [Hx He]]. apply opt_str_eqb_eq in He.
      destruct He as [s [Hxs Hrs]]. rewrite Hrs, <- Hxs.
      now apply in_map.
  - split; [|split].
    + unfold table_ok. rewrite !map_app. cbn [map Workflow.id
        Workflow.source_id]. repeat split.
      * apply NoDup_app; [exact Hid | repeat constructor; intros [] |].
        intros x Hx [<-|[]]. apply in_map_iff in Hx.
        destruct Hx as [y [Hy Hin]].
        assert (existsb (fun x => String.eqb (Workflow.id x) (Workflow.id r))
                  t = true).
        { apply existsb_exists. exists y. split; [exact Hin|].
          rewrite Hy. apply String.eqb_refl. }
        congruence.
      * apply NoDup_app; [exact Hsid | repeat constructor; intros [] |].
        intros x Hx [<-|[]]. apply in_map_iff in Hx.
        destruct Hx as [y [Hy Hin]].
        destruct (not_null_source_id r Hr) as [s Hsr].
        assert (existsb (fun x => Workflow.opt_str_eqb (Workflow.source_id x)
                                    (Workflow.source_id r)) t = true).
        { apply existsb_exists. exists y. split; [exact Hin|].
          apply opt_str_eqb_eq. exists s. split; congruence. }
        congruence.
      * apply Forall_app. split; [exact Hnn|]. constructor; [|constructor].
        exact Hr.
    + right. rewrite length_app. simpl. lia.
    + rewrite map_app, in_app_iff. right. now left.
Qed.

(** X19: an upsert statement is idempotent: executing it a second time on
    the table it produced succeeds and leaves that table as it is. *)
Theorem upsert_statement_idempotent
    (server_now later : Z) (r : Workflow.row json)
    (t t' : Workflow.table json) :
  Workflow.insert_on_conflict_do_update server_now Workflow.update_cols r t
  = Some t' ->
  Workflow.insert_on_conflict_do_update later Workflow.update_cols r t'
  = Some t'.
Proof.
  intros H.
  destruct (insert_cases _ _ _ _ H) as [Hr [[Hex ->]|(Hs & Hi & ->)]].
  - unfold Workflow.insert_on_conflict_do_update. rewrite Hr. cbn [negb].
    assert (Hex' : existsb
              (fun x => Workflow.opt_str_eqb (Workflow.source_id x)
                          (Workflow.source_id r)) (map (conflict_update r) t) = true).
    { apply existsb_exists in Hex. destruct Hex as [x [Hx He]].
      apply existsb_exists. exists (conflict_update r x). split; [now apply in_map|].
      now rewrite (proj2 (upd_keeps_keys r x)). }
    rewrite Hex'. f_equal. rewrite map_map. apply map_ext. intros x.
    fold (conflict_update r (conflict_update r x)). unfold conflict_update at 1.
    rewrite (proj2 (upd_keeps_keys r x)). unfold conflict_update.
    destruct (Workflow.opt_str_eqb _ _); [|reflexivity].
    now rewrite !do_update_update_cols.
  - unfold Workflow.insert_on_conflict_do_update. rewrite Hr. cbn [negb].
    destruct (not_null_source_id r Hr) as [s Hsr].
    rewrite existsb_app. cbn [existsb Workflow.source_id].
    assert (Hself : Workflow.opt_str_eqb (Workflow.source_id r)
                      (Workflow.source_id r) = true).
    { apply opt_str_eqb_eq. eauto. }
    rewrite Hself, Hs. cbn [orb]. f_equal.
    rewrite map_app. cbn [map Workflow.source_id]. rewrite Hself.
    rewrite map_update_only.
    + now rewrite do_update_update_cols.
    + intros x Hx.
      destruct (Workflow.opt_str_eqb (Workflow.source_id x)
                  (Workflow.source_id r)) eqn:He; [|reflexivity].
      assert (existsb (fun x => Workflow.opt_str_eqb (Workflow.source_id x)
                                  (Workflow.source_id r)) t = true).
      { apply existsb_exists. eauto. }
      congruence.
Qed.

Lemma upsert_loop_missing_column
    (server_now : Z) (items : list (Workflow.canonical_item json))
    (item : Workflow.canonical_item json) :
  In item items ->
  Workflow.c_workflow item = None \/ Workflow.c_platform item = None
  \/ Workflow.c_source_id item = None ->
  forall drawn t,
    Workflow.upsert_loop json_truthy empty_list empty_dict fromisoformat
      uuid4 accepts server_now drawn items t = None.
Proof.
  intros Hin Hnull. induction items as [|x items IH]; intros drawn t.
  - contradiction.
  - cbn [Workflow.upsert_loop].
    destruct (Workflow.build_row json_truthy empty_list empty_dict
                fromisoformat uuid4 drawn x) as [drawn' r] eqn:Hb.
    destruct Hin as [->|Hin].
    + assert (Hr : Workflow.not_null_ok r = false).
      { unfold Workflow.build_row in Hb.
        destruct (match Workflow.c_id item with Some _ => _ | None => _ end).
        injection Hb as _ <-. unfold Workflow.not_null_ok. cbn.
        destruct Hnull as [-> | [-> | ->]]; cbn;
          rewrite ?andb_false_r; reflexivity. }
      destruct (accepts r); [|reflexivity].
      unfold Workflow.insert_on_conflict_do_update. now rewrite Hr.
    + destruct (accepts r); [|reflexivity].
      destruct (Workflow.insert_on_conflict_do_update _ _ r t);
        [now apply IH | reflexivity].
Qed.

(** X20: the upsert is all or nothing: when one canonical item of the
    batch, wherever it stands, lacks [workflow], [platform] or
    [source_id], [upsert_to_db] reports failure and the table keeps the
    content it had before the batch. *)
Theorem upsert_batch_fails_as_a_whole
    (server_now : Z) (items : list (Workflow.canonical_item json))
    (item : Workflow.canonical_item json) (t : Workflow.table json) :
  In item items ->
  Workflow.c_workflow item = None \/ Workflow.c_platform item = None
  \/ Workflow.c_source_id item = None ->
  Workflow.upsert_to_db json_truthy empty_list empty_dict fromisoformat
    uuid4 accepts server_now items t = (false, t).
Proof.
  intros Hin Hnull. unfold Workflow.upsert_to_db.
  now rewrite (upsert_loop_missing_column server_now items item Hin Hnull).
Qed.

End UpsertInvariants.

(** * Further properties of the fetch helpers *)

Section FetchBudget.

Variable YOUTUBE_API_KEYS : list string.
Variable transport : nat -> outcome.
Variable jitter : nat -> Q.

Lemma youtube_step_not_200 (remaining attempt : nat) (backoff : Q)
    (st : youtube_collector.state) :
  has_status 200 (transport attempt) = false ->
  exists backoff' st',
    youtube_collector.get_loop YOUTUBE_API_KEYS transport (S remaining)
      attempt backoff st
    = youtube_collector.get_loop YOUTUBE_API_KEYS transport remaining
        (S attempt) backoff' st'.
Proof.
  intros H. simpl. destruct (transport attempt) as [c b|]; [|eauto].
  simpl in H. rewrite H.
  destruct ((c =? 429)%Z || (c =? 403)%Z); [eauto|].
  destruct (status_raises c); eauto.
Qed.

Lemma discourse_step_not_200 (remaining attempt : nat) (backoff : Q)
    (sleeps : list Q) :
  has_status 200 (transport attempt) = false ->
  exists backoff' sleeps',
    discourse_collector.get_loop transport jitter (S remaining) attempt
      backoff sleeps
    = discourse_collector.get_loop transport jitter remaining (S attempt)
        backoff' sleeps'.
Proof.
  intros H. simpl. destruct (transport attempt) as [c b|]; [|eauto].
  simpl in H. rewrite H.
  destruct ((c =? 429)%Z || (c =? 503)%Z); [eauto|].
  destruct (status_raises c); eauto.
Qed.

Lemma youtube_first_200 (body : option json_value) (k : nat) :
  forall remaining attempt backoff st,
  (k < remaining)%nat ->
  (forall i, (i < k)%nat -> has_status 200 (transport (attempt + i)) = false) ->
  transport (attempt + k) = Response 200 body ->
  fst (youtube_collector.get_loop YOUTUBE_API_KEYS transport
         remaining attempt backoff st) = youtube_result body.
Proof.
  induction k as [|k IH]; intros remaining attempt backoff st Hlt Hno H200;
    (destruct remaining as [|remaining]; [lia|]).
  - simpl. rewrite Nat.add_0_r in H200. rewrite H200. simpl.
    destruct body; reflexivity.
  - destruct (youtube_step_not_200 remaining attempt backoff st)
      as (b' & st' & ->).
    { rewrite <- (Nat.add_0_r attempt). apply Hno. lia. }
    apply IH.
    + lia.
    + intros i Hi. rewrite Nat.add_succ_l, <- Nat.add_succ_r. apply Hno. lia.
    + now rewrite Nat.add_succ_l, <- Nat.add_succ_r.
Qed.

Lemma discourse_first_200 (body : option json_value) (k : nat) :
  forall remaining attempt backoff sleeps,
  (k < remaining)%nat ->
  (forall i, (i < k)%nat -> has_status 200 (transport (attempt + i)) = false) ->
  transport (attempt + k) = Response 200 body ->
  fst (discourse_collector.get_loop transport jitter
         remaining attempt backoff sleeps) = discourse_result body.
Proof.
  induction k as [|k IH]; intros remaining attempt backoff sleeps Hlt Hno H200;
    (destruct remaining as [|remaining]; [lia|]).
  - simpl. rewrite Nat.add_0_r in H200. rewrite H200. simpl.
    destruct body; reflexivity.
  - destruct (discourse_step_not_200 remaining attempt backoff sleeps)
      as (b' & sl' & ->).
    { rewrite <- (Nat.add_0_r attempt). apply Hno. lia. }
    apply IH.
    + lia.
    + intros i Hi. rewrite Nat.add_succ_l, <- Nat.add_succ_r. apply Hno. lia.
    + now rewrite Nat.add_succ_l, <- Nat.add_succ_r.
Qed.

(** X21: whatever failures come first (rate limits, error statuses,
    transport errors), both clients act on the first 200 response among
    the [retries] requests of the call: the video client returns its
    parsed body, or raises when the body does not parse; the forum
    client returns its parsed body, or the empty mapping when the body
    does not parse. *)
Theorem get_acts_on_the_first_200
    (retries k : nat) (body : option json_value)
    (st : youtube_collector.state) :
  (k < retries)%nat ->
  (forall i, (i < k)%nat -> has_status 200 (transport i) = false) ->
  transport k = Response 200 body ->
  fst (youtube_collector._get YOUTUBE_API_KEYS transport retries st)
    = youtube_result body
  /\ fst (discourse_collector._get transport jitter retries)
    = discourse_result body.
Proof.
  intros Hk Hno H200. split.
  - apply (youtube_first_200 body k); auto.
  - apply (discourse_first_200 body k); auto.
Qed.

Lemma youtube_no_200 :
  forall remaining attempt backoff st,
  (forall i, (i < remaining)%nat ->
             has_status 200 (transport (attempt + i)) = false) ->
  fst (youtube_collector.get_loop YOUTUBE_API_KEYS transport
         remaining attempt backoff st) = Raised RuntimeError.
Proof.
  induction remaining as [|remaining IH]; intros attempt backoff st Hno.
  - reflexivity.
  - destruct (youtube_step_not_200 remaining attempt backoff st)
      as (b' & st' & ->).
    { rewrite <- (Nat.add_0_r attempt). apply Hno. lia. }
    apply IH. intros i Hi. rewrite Nat.add_succ_l, <- Nat.add_succ_r.
    apply Hno. lia.
Qed.

Lemma discourse_no_200 :
  forall remaining attempt backoff sleeps,
  (forall i, (i < remaining)%nat ->
             has_status 200 (transport (attempt + i)) = false) ->
  fst (discourse_collector.get_loop transport jitter
         remaining attempt backoff sleeps) = Returned (JObj []).
Proof.
  induction remaining as [|remaining IH]; intros attempt backoff sleeps Hno.
  - reflexivity.
  - destruct (discourse_step_not_200 remaining attempt backoff sleeps)
      as (b' & sl' & ->).
    { rewrite <- (Nat.add_0_r attempt). apply Hno. lia. }
    apply IH. intros i Hi. rewrite Nat.add_succ_l, <- Nat.add_succ_r.
    apply Hno. lia.
Qed.

Lemma first_200_or_none (n : nat) :
  (forall i, (i < n)%nat -> has_status 200 (transport i) = false)
  \/ exists k body,
       (k < n)%nat
       /\ (forall i, (i < k)%nat -> has_status 200 (transport i) = false)
       /\ transport k = Response 200 body.
Proof.
  induction n as [|n IH].
  - left. intros i Hi. lia.
  - destruct IH as [Hno|(k & body & Hk & Hno & H200)].
    + destruct (has_status 200 (transport n)) eqn:Hn.
      * right. destruct (has_status_inv _ _ Hn) as [body Hb].
        exists n, body. auto.
      * left. intros i Hi.
        destruct (Nat.eq_dec i n) as [->|Hne]; [exact Hn | apply Hno; lia].
    + right. exists k, body. repeat split; auto.
Qed.

(** X22: a payload is never made up.  What the video client returns is
    the parsed body of a 200 response it received within its budget, and
    it raises [RuntimeError] exactly when none of its [retries] requests
    got a 200 response; what the forum client returns is such a body or
    the empty mapping. *)
Theorem get_returns_only_what_was_served
    (retries : nat) (st : youtube_collector.state) :
  (forall p,
     fst (youtube_collector._get YOUTUBE_API_KEYS transport retries st)
       = Returned p ->
     exists k, (k < retries)%nat /\ transport k = Response 200 (Some p))
  /\ (fst (youtube_collector._get YOUTUBE_API_KEYS transport retries st)
        = Raised RuntimeError
      <-> forall i, (i < retries)%nat ->
                    has_status 200 (transport i) = false)
  /\ (forall p,
        fst (discourse_collector._get transport jitter retries) = Returned p ->
        p = JObj []
        \/ exists k, (k < retries)%nat /\ transport k = Response 200 (Some p)).
Proof.
  destruct (first_200_or_none retries)
    as [Hno|(k & body & Hk & Hno & H200)].
  - assert (Hy : fst (youtube_collector._get YOUTUBE_API_KEYS transport
                        retries st) = Raised RuntimeError)
      by (apply youtube_no_200; exact Hno).
    assert (Hd : fst (discourse_collector._get transport jitter retries)
                 = Returned (JObj []))
      by (apply discourse_no_200; exact Hno).
    rewrite Hy, Hd. split; [discriminate|]. split; [tauto|].
    intros p [= <-]. now left.
  - assert (Hy : fst (youtube_collector._get YOUTUBE_API_KEYS transport
                        retries st) = youtube_result body)
      by (apply (youtube_first_200 body k); auto).
    assert (Hd : fst (discourse_collector._get transport jitter retries)
                 = discourse_result body)
      by (apply (discourse_first_200 body k); auto).
    rewrite Hy, Hd. split; [|split].
    + intros p Hp. destruct body as [q|]; [|discriminate].
      injection Hp as ->. eauto.
    + split.
      * destruct body; discriminate.
      * intros Hall. specialize (Hall k Hk). rewrite H200 in Hall.
        discriminate.
    + intros p Hp. destruct body as [q|]; injection Hp as <-; eauto.
Qed.

Lemma rotate_valid (st : youtube_collector.state) :
  YOUTUBE_API_KEYS <> [] ->
  let st' := youtube_collector.rotate YOUTUBE_API_KEYS st in
  youtube_collector._yt_key_index st'
    = ((youtube_collector._yt_key_index st + 1)
       mod List.length YOUTUBE_API_KEYS)%nat
  /\ (youtube_collector._yt_key_index st' < List.length YOUTUBE_API_KEYS)%nat
  /\ youtube_collector.params_key st'
     = nth_error YOUTUBE_API_KEYS (youtube_collector._yt_key_index st').
Proof.
  intros Hne. unfold youtube_collector.rotate.
  destruct YOUTUBE_API_KEYS as [|key keys] eqn:Hkeys; [contradiction|].
  cbn [youtube_collector._yt_key_index youtube_collector.params_key].
  set (i := ((youtube_collector._yt_key_index st + 1)
             mod List.length (key :: keys))%nat).
  assert (Hi : (i < List.length (key :: keys))%nat).
  { apply Nat.mod_upper_bound. simpl. lia. }
  split; [reflexivity|]. split; [exact Hi|].
  destruct (nth_error (key :: keys) i) eqn:Hn; [reflexivity|].
  apply nth_error_None in Hn. lia.
Qed.

Lemma youtube_rate_limited_loop :
  forall remaining attempt backoff st,
  (forall i, (i < remaining)%nat ->
             rate_limited (transport (attempt + i)) = true) ->
  let final :=
    snd (youtube_collector.get_loop YOUTUBE_API_KEYS transport
           remaining attempt backoff st) in
  youtube_collector.sleeps final
    = youtube_collector.sleeps st ++ backoffs backoff remaining
  /\ (YOUTUBE_API_KEYS <> [] ->
      (youtube_collector._yt_key_index final
       mod List.length YOUTUBE_API_KEYS
       = (youtube_collector._yt_key_index st + remaining)
         mod List.length YOUTUBE_API_KEYS)%nat
      /\ ((0 < remaining)%nat ->
          (youtube_collector._yt_key_index final
           < List.length YOUTUBE_API_KEYS)%nat
          /\ youtube_collector.params_key final
             = nth_error YOUTUBE_API_KEYS
                 (youtube_collector._yt_key_index final)))
  /\ (YOUTUBE_API_KEYS = [] ->
      youtube_collector._yt_key_index final
      = youtube_collector._yt_key_index st
      /\ youtube_collector.params_key final = youtube_collector.params_key st).
Proof.
  induction remaining as [|remaining IH]; intros attempt backoff st Hrl.
  - simpl. rewrite app_nil_r, Nat.add_0_r. repeat split; auto; lia.
  - assert (H0 : rate_limited (transport attempt) = true).
    { rewrite <- (Nat.add_0_r attempt). apply Hrl. lia. }
    cbn [youtube_collector.get_loop].
    destruct (transport attempt) as [c b|]; [|discriminate].
    unfold rate_limited in H0. simpl in H0.
    assert (Hc200 : (c =? 200)%Z = false).
    { apply orb_prop in H0. destruct H0 as [H|H]; apply Z.eqb_eq in H;
        subst; reflexivity. }
    rewrite Hc200, H0.
    specialize (IH (S attempt) (backoff * 2)%Q
                  (youtube_collector.sleep backoff
                     (youtube_collector.rotate YOUTUBE_API_KEYS st))).
    destruct IH as (Hs & Hk & He).
    { intros i Hi. rewrite Nat.add_succ_l, <- Nat.add_succ_r.
      apply Hrl. lia. }
    cbv zeta in *. split; [|split].
    + rewrite Hs. cbn. rewrite <- app_assoc.
      unfold youtube_collector.rotate.
      destruct YOUTUBE_API_KEYS; reflexivity.
    + intros Hne. destruct (Hk Hne) as [Hidx Hpos].
      destruct (rotate_valid st Hne) as (Hr1 & Hr2 & Hr3).
      cbn [youtube_collector.sleep youtube_collector._yt_key_index
           youtube_collector.params_key] in Hidx, Hpos.
      split.
      * rewrite Hidx, Hr1, Nat.Div0.add_mod_idemp_l. f_equal. lia.
      * intros _. destruct remaining as [|remaining].
        -- cbn. auto.
        -- apply Hpos. lia.
    + intros Hnil. destruct (He Hnil) as [Hi Hp]. rewrite Hi, Hp.
      unfold youtube_collector.rotate. rewrite Hnil. cbn. auto.
Qed.

(** X23: when each of the [retries] requests of the video client is
    answered by a 429 or a 403, the client sleeps [retries] times, for 1,
    2, 4, ... seconds, and advances the shared key cursor once per
    response, modulo the size of the key pool, leaving in the request
    the key the cursor points to; with an empty pool the cursor and the
    request key stay as they are. *)
Theorem youtube_backoff_doubles_and_keys_rotate
    (retries : nat) (st : youtube_collector.state) :
  (forall i, (i < retries)%nat -> rate_limited (transport i) = true) ->
  let final :=
    snd (youtube_collector._get YOUTUBE_API_KEYS transport retries st) in
  youtube_collector.sleeps final
    = youtube_collector.sleeps st ++ backoffs 1 retries
  /\ (YOUTUBE_API_KEYS <> [] ->
      (youtube_collector._yt_key_index final
       mod List.length YOUTUBE_API_KEYS
       = (youtube_collector._yt_key_index st + retries)
         mod List.length YOUTUBE_API_KEYS)%nat
      /\ ((0 < retries)%nat ->
          (youtube_collector._yt_key_index final
           < List.length YOUTUBE_API_KEYS)%nat
          /\ youtube_collector.params_key final
             = nth_error YOUTUBE_API_KEYS
                 (youtube_collector._yt_key_index final)))
  /\ (YOUTUBE_API_KEYS = [] ->
      youtube_collector._yt_key_index final
      = youtube_collector._yt_key_index st
      /\ youtube_collector.params_key final = youtube_collector.params_key st).
Proof.
  intros Hrl final. subst final. unfold youtube_collector._get.
  apply youtube_rate_limited_loop. exact Hrl.
Qed.

End FetchBudget.

(** * The forum collector: de-duplication, country inference *)

Section SeedQueries.

Variable search_topics : string -> nat -> option (list item).
Variable collect_recent_topics : nat -> option (list item).

Lemma sid_eqb_eq (a b : option string) :
  discourse_queries.sid_eqb a b = true <-> a = b.
Proof.
  destruct a as [x|], b as [y|]; simpl; split; try discriminate;
    try reflexivity.
  - intros H. apply String.eqb_eq in H. now subst.
  - intros [= ->]. apply String.eqb_refl.
Qed.

Lemma seen_spec (sid : option string) (seen : list (option string)) :
  existsb (discourse_queries.sid_eqb sid) seen = true <-> In sid seen.
Proof.
  rewrite existsb_exists. split.
  - intros [y [Hy He]]. apply sid_eqb_eq in He. now subst.
  - intros H. exists sid. split; [exact H | now apply sid_eqb_eq].
Qed.

Lemma dedup_In (items : list item) :
  forall seen x,
  In x (discourse_queries.dedup seen items) ->
  ~ In (source_id x) seen
  /\ exists pre post,
       items = pre ++ x :: post
       /\ forall y, In y pre -> source_id y <> source_id x.
Proof.
  induction items as [|i items IH]; intros seen x H; simpl in H.
  - contradiction.
  - destruct (existsb (discourse_queries.sid_eqb (source_id i)) seen) eqn:He.
    + destruct (IH _ _ H) as (Hout & pre & post & -> & Hpre).
      split; [exact Hout|]. exists (i :: pre), post.
      split; [reflexivity|]. intros y [<-|Hy]; [|now apply Hpre].
      apply seen_spec in He. congruence.
    + assert (Hi : ~ In (source_id i) seen).
      { intros Hin. apply seen_spec in Hin. congruence. }
      destruct H as [<-|H].
      * split; [exact Hi|]. exists [], items. split; [reflexivity|].
        intros y [].
      * destruct (IH _ _ H) as (Hout & pre & post & -> & Hpre).
        split; [intros Hin; apply Hout; now right|].
        exists (i :: pre), post. split; [reflexivity|].
        intros y [<-|Hy]; [|now apply Hpre].
        intros Heq. apply Hout. left. exact Heq.
Qed.

Lemma dedup_NoDup (items : list item) :
  forall seen, NoDup (map source_id (discourse_queries.dedup seen items)).
Proof.
  induction items as [|i items IH]; intros seen; simpl.
  - constructor.
  - destruct (existsb (discourse_queries.sid_eqb (source_id i)) seen).
    + apply IH.
    + simpl. constructor; [|apply IH].
      intros Hin. apply in_map_iff in Hin. destruct Hin as (x & Hx & Hin).
      apply dedup_In in Hin. destruct Hin as [Hout _].
      apply Hout. left. now rewrite Hx.
Qed.

Lemma option_eq_dec_string (a b : option string) : {a = b} + {a <> b}.
Proof. decide equality. apply string_dec. Qed.

Lemma dedup_complete (items : list item) :
  forall seen x,
  In x items -> ~ In (source_id x) seen ->
  In (source_id x) (map source_id (discourse_queries.dedup seen items)).
Proof.
  induction items as [|i items IH]; intros seen x Hin Hout; simpl.
  - contradiction.
  - destruct (existsb (discourse_queries.sid_eqb (source_id i)) seen) eqn:He.
    + destruct Hin as [->|Hin]; [|now apply IH].
      apply seen_spec in He. contradiction.
    + simpl.
      destruct (option_eq_dec_string (source_id i) (source_id x))
        as [Heq|Hne]; [now left|].
      right. apply IH.
      * destruct Hin as [->|Hin]; [contradiction|exact Hin].
      * intros [Heq|Hs]; contradiction.
Qed.

End SeedQueries.

Section SeedQueriesResult.

Variable search_topics : string -> nat -> option (list item).
Variable collect_recent_topics : nat -> option (list item).

(** X24: the items that [collect_seed_queries] returns carry pairwise
    distinct [source_id]s.  When the searches found anything, the result
    is drawn from the search results alone, holds every [source_id] they
    contain, and keeps for each the first item that carries it; the
    recent topics are consulted only when the searches found nothing, and
    then only topics whose title contains a seed query, case ignored, are
    returned. *)
Theorem seed_queries_deduplicated_first_seen_wins
    (seed_queries : list string) (max_pages : nat) :
  let found :=
    discourse_queries.search_all search_topics seed_queries max_pages in
  let out :=
    discourse_queries.collect_seed_queries search_topics
      collect_recent_topics seed_queries max_pages in
  NoDup (map source_id out)
  /\ (found <> [] ->
      (forall x, In x found -> In (source_id x) (map source_id out))
      /\ (forall x, In x out ->
            exists pre post,
              found = pre ++ x :: post
              /\ forall y, In y pre -> source_id y <> source_id x))
  /\ (found = [] ->
      forall x, In x out ->
        exists recent q,
          collect_recent_topics (max_pages * 2) = Some recent
          /\ In x recent /\ In q seed_queries
          /\ discourse_queries.title_matches q x = true).
Proof.
  intros found out. subst out. unfold discourse_queries.collect_seed_queries.
  fold found. split; [apply dedup_NoDup|]. split.
  - intros Hne. destruct found as [|f fs] eqn:Hf; [contradiction|].
    split.
    + intros x Hx. apply dedup_complete; [exact Hx | intros []].
    + intros x Hx. apply dedup_In in Hx. tauto.
  - intros ->. intros x Hx. apply dedup_In in Hx.
    destruct Hx as (_ & pre & post & Heq & _).
    assert (Hin : In x (discourse_queries.recent_matches
                          collect_recent_topics seed_queries max_pages)).
    { rewrite Heq. apply in_or_app. right. now left. }
    unfold discourse_queries.recent_matches in Hin.
    destruct (collect_recent_topics (max_pages * 2)) as [recent|];
      [|contradiction].
    apply in_flat_map in Hin. destruct Hin as (q & Hq & Hin).
    apply filter_In in Hin. destruct Hin as [Hr Hm].
    exists recent, q. auto.
Qed.

End SeedQueriesResult.

Section CountryInference.

Lemma cache_get_set_same (u : string) (v : option string)
    (cache : discourse_queries.cache_t) :
  discourse_queries.cache_get u (discourse_queries.cache_set u v cache)
  = Some v.
Proof.
  induction cache as [|[w x] cache IH]; simpl.
  - now rewrite String.eqb_refl.
  - destruct (String.eqb w u) eqn:He; simpl; rewrite He; auto.
Qed.

Lemma cache_get_set_other (u u' : string) (v : option string)
    (cache : discourse_queries.cache_t) :
  u' <> u ->
  discourse_queries.cache_get u' (discourse_queries.cache_set u v cache)
  = discourse_queries.cache_get u' cache.
Proof.
  intros Hne. induction cache as [|[w x] cache IH]; simpl.
  - destruct (String.eqb_spec u u') as [->|_]; [contradiction|reflexivity].
  - destruct (String.eqb_spec w u) as [->|Hw]; simpl.
    + destruct (String.eqb_spec u u') as [->|_]; [contradiction|reflexivity].
    + destruct (String.eqb w u'); auto.
Qed.

(** X25: [infer_user_country] memoizes per user name, failures included:
    after a call for a non-empty user name, every later call for that
    name returns the same answer without requesting the profile and
    without changing the cache, whatever the profile has become; the
    entries of the other users are untouched. *)
Theorem inferred_country_is_cached
    (fetch fetch' : string -> discourse_queries.profile)
    (cache : discourse_queries.cache_t) (username : string) :
  username <> EmptyString ->
  let '(found, cache', _) :=
    discourse_queries.infer_user_country fetch cache username in
  discourse_queries.infer_user_country fetch' cache' username
    = (found, cache', false)
  /\ forall other, other <> username ->
       discourse_queries.cache_get other cache'
       = discourse_queries.cache_get other cache.
Proof.
  intros Hne. unfold discourse_queries.infer_user_country.
  apply String.eqb_neq in Hne. rewrite Hne.
  destruct (discourse_queries.cache_get username cache) as [v|] eqn:Hc.
  - cbv beta iota. rewrite ?Hne, Hc. auto.
  - cbv beta iota zeta. rewrite ?Hne, cache_get_set_same.
    split; [reflexivity|].
    intros other Ho. now apply cache_get_set_other.
Qed.

Lemma country_of_text_cases (cand : string) :
  discourse_queries.country_of_text cand = Some "IN"
  \/ discourse_queries.country_of_text cand = Some "US"
  \/ discourse_queries.country_of_text cand = None.
Proof.
  unfold discourse_queries.country_of_text.
  repeat match goal with
         | |- context [if ?b then _ else _] => destruct b
         end; auto.
Qed.

(** X26: the country heuristics answer ["IN"], ["US"] or nothing.  A text
    that mentions "india", in any case, is assigned ["IN"]; a text in
    which the letters "us" occur anywhere, and that mentions none of
    india, delhi, mumbai, bharat, bangalore and bengal, is assigned
    ["US"]. *)
Theorem country_heuristics_match_substrings (cand : string) :
  let s := discourse_queries.lower cand in
  (discourse_queries.country_of_text cand = Some "IN"
   \/ discourse_queries.country_of_text cand = Some "US"
   \/ discourse_queries.country_of_text cand = None)
  /\ (discourse_queries.contains "india" s = true ->
      discourse_queries.country_of_text cand = Some "IN")
  /\ (discourse_queries.contains "us" s = true ->
      discourse_queries.contains "india" s = false ->
      discourse_queries.contains "delhi" s = false ->
      discourse_queries.contains "mumbai" s = false ->
      discourse_queries.contains "bharat" s = false ->
      discourse_queries.contains "bangalore" s = false ->
      discourse_queries.contains "bengal" s = false ->
      discourse_queries.country_of_text cand = Some "US").
Proof.
  intros s. split; [apply country_of_text_cases|]. split.
  - intros H. unfold discourse_queries.country_of_text. fold s.
    now rewrite H.
  - intros Hus Hi Hd Hm Hb Hba Hbe.
    unfold discourse_queries.country_of_text. fold s.
    rewrite Hi, Hd, Hm, Hb, Hba, Hbe, Hus.
    rewrite andb_false_r. cbn [orb]. rewrite orb_true_r. reflexivity.
Qed.

End CountryInference.

(** * Properties of the file fallback of the API *)

Section ApiFallback.

Lemma mapM_firstn {A B : Type} (f : A -> option B) (n : nat) :
  forall l bs, mapM f l = Some bs -> mapM f (firstn n l) = Some (firstn n bs).
Proof.
  induction n as [|n IH]; intros [|a l] bs H; simpl in *;
    try (injection H as <-); try reflexivity.
  destruct (f a) as [b|]; cbn [obind] in *; [|discriminate].
  destruct (mapM f l) as [bs'|] eqn:Hl; cbn [obind] in *; [|discriminate].
  injection H as <-. rewrite (IH l bs' Hl). reflexivity.
Qed.

Lemma mapM_skipn {A B : Type} (f : A -> option B) (n : nat) :
  forall l bs, mapM f l = Some bs -> mapM f (skipn n l) = Some (skipn n bs).
Proof.
  induction n as [|n IH]; intros [|a l] bs H; simpl in *;
    try (injection H as <-); try reflexivity; try assumption.
  destruct (f a) as [b|]; cbn [obind] in *; [|discriminate].
  destruct (mapM f l) as [bs'|] eqn:Hl; cbn [obind] in *; [|discriminate].
  injection H as <-. apply (IH l bs' Hl).
Qed.

Lemma mapM_length {A B : Type} (f : A -> option B) :
  forall l bs, mapM f l = Some bs -> List.length bs = List.length l.
Proof.
  induction l as [|a l IH]; intros bs H; simpl in *.
  - injection H as <-. reflexivity.
  - destruct (f a) as [b|]; cbn [obind] in *; [|discriminate].
    destruct (mapM f l) as [bs'|] eqn:Hl; cbn [obind] in *; [|discriminate].
    injection H as <-. simpl. now rewrite (IH bs').
Qed.

Lemma firstn_add {A : Type} (a b : nat) :
  forall l : list A, firstn (a + b) l = firstn a l ++ firstn b (skipn a l).
Proof.
  induction a as [|a IH]; intros l; simpl; [reflexivity|].
  destruct l as [|x l]; simpl.
  - now rewrite firstn_nil.
  - now rewrite IH.
Qed.

Lemma pages_concat {A : Type} (outs : list A) (limit n : nat) :
  List.concat
    (map (fun page => firstn limit (skipn ((page - 1) * limit) outs))
         (seq 1 n))
  = firstn (n * limit) outs.
Proof.
  induction n as [|n IH]; [reflexivity|].
  rewrite seq_S, map_app, concat_app, IH. simpl.
  rewrite app_nil_r, Nat.sub_0_r.
  replace (limit + n * limit)%nat with (n * limit + limit)%nat by lia.
  now rewrite firstn_add.
Qed.

(** X27: when every entry of the data file can be shaped, the pages
    [list_workflows] serves from the file partition it: page [p] holds
    at most [limit] records, and pages 1 to [n] laid end to end are the
    first [n * limit] records of the file, in the order of the file,
    hence all its records once [n * limit] reaches their number. *)
Theorem fallback_pages_partition_the_file
    (items : list json_value) (outs : list api_workflows.out_item)
    (limit n : nat) :
  mapM api_workflows.shape items = Some outs ->
  exists pages,
    Forall2 (fun page served =>
               api_workflows.list_workflows_fallback (Some items) limit page
               = Some served
               /\ (List.length served <= limit)%nat)
            (seq 1 n) pages
    /\ List.concat pages = firstn (n * limit) outs
    /\ ((List.length items <= n * limit)%nat -> List.concat pages = outs).
Proof.
  intros H.
  exists (map (fun page => firstn limit (skipn ((page - 1) * limit) outs))
              (seq 1 n)).
  split; [|split].
  - generalize (seq 1 n) as ps. induction ps as [|p ps IH]; simpl;
      constructor; [|exact IH].
    split.
    + unfold api_workflows.list_workflows_fallback,
        api_workflows._load_fallback.
      apply mapM_firstn, mapM_skipn, H.
    + apply firstn_le_length.
  - apply pages_concat.
  - intros Hlen. rewrite pages_concat. apply firstn_all2.
    rewrite (mapM_length _ _ _ H). exact Hlen.
Qed.

Lemma shape_source_id (it : json_value) (o : api_workflows.out_item) :
  api_workflows.shape it = Some o ->
  exists kvs, it = JObj kvs
    /\ api_workflows.source_id o = api_workflows.get kvs "source_id" JNull.
Proof.
  destruct it as [| | | | |kvs]; try discriminate. simpl.
  destruct (api_workflows.country_of kvs) as [c|]; cbn [obind];
    [|discriminate].
  intros H. injection H as <-. exists kvs. split; reflexivity.
Qed.

Lemma shape_None_iff (it : json_value) :
  api_workflows.shape it = None <-> malformed_entry it.
Proof.
  destruct it as [| | | | |kvs]; simpl; try (split; [trivial|reflexivity]).
  unfold api_workflows.country_of.
  destruct (api_workflows.truthy (api_workflows.get kvs "country" JNull))
    eqn:Hc; cbn [obind].
  - split; [discriminate | intros [H _]; discriminate].
  - unfold api_workflows.get at 1.
    destruct (api_workflows.lookup "metrics" kvs) as [v|] eqn:Hm.
    + destruct v; cbn [obind]; split; intros H; try discriminate;
        try (split; [reflexivity|]; eexists; split; [reflexivity|reflexivity]);
        try reflexivity.
      destruct H as [_ [v [Hv Ho]]]. injection Hv as <-. discriminate.
    + cbn [obind]. split; [discriminate|].
      intros [_ [v [Hv _]]]. discriminate.
Qed.

Lemma Forall2_In_r {A B : Type} (P : A -> B -> Prop) (l : list A)
    (l' : list B) (b : B) :
  Forall2 P l l' -> In b l' -> exists a, In a l /\ P a b.
Proof.
  induction 1 as [|a b' l l' Hab _ IH]; simpl; [contradiction|].
  intros [<-|Hin].
  - exists a. auto.
  - destruct (IH Hin) as [a' [Ha' Hp]]. exists a'. auto.
Qed.

Lemma matches_true (w : string) (o : api_workflows.out_item) :
  api_workflows.matches w o = true <-> api_workflows.source_id o = JStr w.
Proof.
  unfold api_workflows.matches.
  destruct (api_workflows.source_id o) as [| | |s| |];
    try (split; discriminate).
  rewrite String.eqb_eq. split; [now intros -> | now intros [= ->]].
Qed.

(** X28: the file search of [get_workflow] reads the first 1000 entries
    of the data file only, and compares [source_id] only: what it finds
    is the shaped form of one of those entries and carries the requested
    [source_id]; when the first 1000 entries are well formed and none of
    them has that [source_id], whatever their [id], it answers 404. *)
Theorem fallback_lookup_reads_source_ids_of_first_1000
    (items : list json_value) (workflow_id : string) :
  api_workflows.get_workflow_fallback (Some items) workflow_id
  = api_workflows.get_workflow_fallback (Some (firstn 1000 items)) workflow_id
  /\ (forall o,
        api_workflows.get_workflow_fallback (Some items) workflow_id
        = Some (Some o) ->
        api_workflows.source_id o = JStr workflow_id
        /\ exists it, In it (firstn 1000 items)
                      /\ api_workflows.shape it = Some o)
  /\ ((forall it, In it (firstn 1000 items) ->
         ~ malformed_entry it
         /\ forall kvs, it = JObj kvs ->
              api_workflows.get kvs "source_id" JNull <> JStr workflow_id) ->
      api_workflows.get_workflow_fallback (Some items) workflow_id
      = Some None).
Proof.
  unfold api_workflows.get_workflow_fallback, api_workflows._load_fallback.
  cbn [skipn]. split; [|split].
  - now rewrite firstn_firstn, Nat.min_id.
  - intros o H.
    destruct (mapM api_workflows.shape (firstn 1000 items)) as [outs|] eqn:Hm;
      cbn [obind] in H; [|discriminate].
    injection H as H. apply find_some in H. destruct H as [Hin Hmatch].
    split; [now apply matches_true|].
    apply mapM_Forall2 in Hm.
    exact (Forall2_In_r _ _ _ _ Hm Hin).
  - intros Hall.
    destruct (mapM api_workflows.shape (firstn 1000 items)) as [outs|] eqn:Hm;
      cbn [obind].
    + f_equal.
      destruct (find (api_workflows.matches workflow_id) outs) as [o|] eqn:Hf;
        [|reflexivity].
      apply find_some in Hf. destruct Hf as [Hin Hmatch].
      apply mapM_Forall2 in Hm.
      destruct (Forall2_In_r _ _ _ _ Hm Hin) as [it [Hit Hs]].
      destruct (shape_source_id _ _ Hs) as [kvs [-> Hsid]].
      destruct (Hall _ Hit) as [_ Hne].
      apply matches_true in Hmatch. rewrite Hsid in Hmatch.
      now elim (Hne kvs eq_refl).
    + apply mapM_None_iff in Hm. destruct Hm as [it [Hit Hs]].
      apply shape_None_iff in Hs. now elim (proj1 (Hall _ Hit)).
Qed.

(** X29: [_load_fallback] raises exactly when the data file exists and
    one of the entries it reads is not an object, or has no usable
    [country] and a [metrics] that is present and not an object; with no
    data file it returns the empty list. *)
Theorem fallback_raises_iff_an_entry_is_malformed
    (data : option (list json_value)) (limit offset : nat) :
  (api_workflows._load_fallback data limit offset = None
   <-> exists items it,
         data = Some items
         /\ In it (window limit offset items)
         /\ malformed_entry it)
  /\ api_workflows._load_fallback None limit offset = Some [].
Proof.
  split; [|reflexivity].
  unfold api_workflows._load_fallback, window.
  destruct data as [items|].
  - rewrite mapM_None_iff. split.
    + intros [it [Hin Hs]]. exists items, it.
      repeat split; [exact Hin | now apply shape_None_iff].
    + intros [items' [it [[= <-] [Hin Hm]]]]. exists it.
      split; [exact Hin | now apply shape_None_iff].
  - split; [discriminate | intros [items [it [H _]]]; discriminate].
Qed.

End ApiFallback.

(** * Properties of the growth figures of the trends collector *)

Section TrendGrowth.

Lemma growth_of_same (x : Q) : trends_collector.growth_of x x == 0.
Proof.
  unfold trends_collector.growth_of.
  destruct (Qeq_bool x 0); [reflexivity|].
  unfold Qdiv. setoid_replace (x - x) with 0 by ring. ring.
Qed.

Lemma growth_of_prev_zero (x p : Q) :
  p == 0 -> trends_collector.growth_of x p = 0.
Proof.
  intros H. unfold trends_collector.growth_of.
  apply Qeq_bool_iff in H. now rewrite H.
Qed.

Lemma max1_ge_1 (x : Q) : 1 <= trends_collector.max1 x.
Proof.
  unfold trends_collector.max1.
  destruct (Qlt_le_dec 1 x); [now apply Qlt_le_weak | apply Qle_refl].
Qed.

Lemma max1_ge (x : Q) : x <= trends_collector.max1 x.
Proof.
  unfold trends_collector.max1.
  destruct (Qlt_le_dec 1 x); [apply Qle_refl | assumption].
Qed.

Lemma growth_of_lower (l p : Q) :
  0 <= l -> - (1) <= trends_collector.growth_of l p.
Proof.
  intros Hl. unfold trends_collector.growth_of.
  destruct (Qeq_bool p 0); [discriminate|].
  pose proof (max1_ge_1 p) as H1. pose proof (max1_ge p) as H2.
  apply Qle_shift_div_l.
  - eapply Qlt_le_trans; [|exact H1]. reflexivity.
  - apply Qle_trans with (- p).
    + setoid_replace (- (1) * trends_collector.max1 p)
        with (- trends_collector.max1 p) by ring.
      now apply Qopp_le_compat.
    + setoid_replace (- p) with (0 - p) by ring.
      unfold Qminus. apply Qplus_le_compat; [exact Hl | apply Qle_refl].
Qed.

Lemma fold_Qplus_nonneg (l : list Q) :
  Forall (fun v => 0 <= v) l ->
  forall acc, 0 <= acc -> 0 <= fold_left Qplus l acc.
Proof.
  induction 1 as [|v l Hv _ IH]; simpl; intros acc Hacc; [exact Hacc|].
  apply IH. setoid_replace 0 with (0 + 0) by ring.
  now apply Qplus_le_compat.
Qed.

Lemma Qsum_nonneg (l : list Q) :
  Forall (fun v => 0 <= v) l -> 0 <= trends_collector.Qsum l.
Proof. intros H. apply fold_Qplus_nonneg; [exact H | apply Qle_refl]. Qed.

Lemma Forall_skipn {A : Type} (P : A -> Prop) (n : nat) (l : list A) :
  Forall P l -> Forall P (skipn n l).
Proof.
  intros H. rewrite <- (firstn_skipn n l) in H.
  now apply Forall_app in H.
Qed.

Lemma Qdiv_nonneg (a b : Q) : 0 <= a -> 0 < b -> 0 <= a / b.
Proof.
  intros Ha Hb. apply Qle_shift_div_l; [exact Hb|].
  now setoid_replace (0 * b) with 0 by ring.
Qed.

Lemma last30_nonneg (vals : list Q) :
  Forall (fun v => 0 <= v) vals ->
  0 <= trends_collector.last30 (trends_collector.windows_of vals)
  /\ 0 <= trends_collector.last60 (trends_collector.windows_of vals).
Proof.
  intros H. unfold trends_collector.windows_of.
  assert (H30 : 0 <= trends_collector.Qsum (trends_collector.last_ 30 vals)
                     / inject_Z 30).
  { apply Qdiv_nonneg; [|reflexivity].
    apply Qsum_nonneg. now apply Forall_skipn. }
  assert (H60 : 0 <= trends_collector.Qsum (trends_collector.last_ 60 vals)
                     / inject_Z 60).
  { apply Qdiv_nonneg; [|reflexivity].
    apply Qsum_nonneg. now apply Forall_skipn. }
  destruct (60 <=? List.length vals)%nat; [now split|].
  destruct (30 <=? List.length vals)%nat; [now split|].
  destruct vals as [|v vals]; cbn [trends_collector.last30
    trends_collector.last60]; [split; apply Qle_refl|].
  assert (0 <= trends_collector.Qsum (v :: vals)
               / inject_Z (Z.of_nat (List.length (v :: vals)))); [|now split].
  apply Qdiv_nonneg; [now apply Qsum_nonneg|].
  unfold Qlt. simpl. lia.
Qed.

(** X30: the growth figures of the trends collector need an earlier
    window.  With at most 30 values both are 0; with fewer than 60 values
    the 60-day growth is the 30-day growth; with exactly 60 values the
    60-day growth is 0; and for values that are not negative neither
    growth is below -1. *)
Theorem trend_growth_needs_an_earlier_window (vals : list Q) :
  let n := List.length vals in
  ((n <= 30)%nat ->
     trends_collector.growth_pct_30d vals == 0
     /\ trends_collector.growth_pct_60d vals == 0)
  /\ ((n < 60)%nat ->
      trends_collector.growth_pct_60d vals
      = trends_collector.growth_pct_30d vals)
  /\ (n = 60%nat -> trends_collector.growth_pct_60d vals == 0)
  /\ (Forall (fun v => 0 <= v) vals ->
      - (1) <= trends_collector.growth_pct_30d vals
      /\ - (1) <= trends_collector.growth_pct_60d vals).
Proof.
  intros n. unfold trends_collector.growth_pct_30d,
    trends_collector.growth_pct_60d.
  split; [|split; [|split]].
  - intros Hn. unfold trends_collector.windows_of. fold n.
    destruct (60 <=? n)%nat eqn:H60; [apply Nat.leb_le in H60; lia|].
    destruct (30 <=? n)%nat eqn:H30.
    + apply Nat.leb_le in H30. assert (Hn30 : n = 30%nat) by lia.
      cbn [trends_collector.last30 trends_collector.prev30
           trends_collector.last60 trends_collector.prev60].
      assert (Hb : trends_collector.but_last 30 vals = []).
      { unfold trends_collector.but_last. fold n. rewrite Hn30.
        reflexivity. }
      rewrite Hb. split; rewrite growth_of_prev_zero; reflexivity.
    + destruct vals; cbn [trends_collector.last30 trends_collector.prev30
           trends_collector.last60 trends_collector.prev60];
        split; apply growth_of_same.
  - intros Hn. unfold trends_collector.windows_of. fold n.
    destruct (60 <=? n)%nat eqn:H60; [apply Nat.leb_le in H60; lia|].
    destruct (30 <=? n)%nat; [reflexivity|].
    destruct vals; reflexivity.
  - intros Hn. unfold trends_collector.windows_of. fold n. rewrite Hn.
    cbn [Nat.leb Nat.ltb trends_collector.last60 trends_collector.prev60].
    apply growth_of_same.
  - intros Hpos. destruct (last30_nonneg vals Hpos) as [H30 H60].
    split; now apply growth_of_lower.
Qed.

End TrendGrowth.

(** * The properties at sample inputs *)

Lemma normalize_title_ignores_case_witness :
  ingest.normalize_title "Build a SLACK Bot!"
  = ingest.normalize_title "build a slack bot!".
Proof. apply normalize_title_ignores_case. reflexivity. Defined.

Lemma most_common_is_first_of_the_most_frequent_witness :
  let l := ["Slack bot"; "Build a bot"; "Slack bot"; "Build a bot"] in
  exists pre post,
    firsts l = pre ++ ingest_run.most_common_or l "x" :: post
    /\ (forall t, In t pre ->
          (occurrences l t < occurrences l (ingest_run.most_common_or l "x"))%nat)
    /\ (forall t,
          (occurrences l t <= occurrences l (ingest_run.most_common_or l "x"))%nat).
Proof.
  intros l.
  apply (proj1 (most_common_is_first_of_the_most_frequent l "x")).
  discriminate.
Defined.

Lemma ingest_aborts_iff_scoring_or_a_ratio_raises_witness :
  (forall it,
     In it lopsided_group ->
     score_range.compute_item_scores iso8601.fromisoformat sample_now it
     <> None)
  /\ ingest_run.build_canonical iso8601.fromisoformat sample_now
       (sample_uuid4 "run") lopsided_group = None.
Proof.
  split.
  - intros it [<-|[<-|[]]]; discriminate.
  - apply (proj2 (ingest_aborts_iff_scoring_or_a_ratio_raises
                    iso8601.fromisoformat sample_now (sample_uuid4 "run")
                    lopsided_group)).
    right. exists lopsided_group. split; [left; reflexivity | reflexivity].
Defined.

Lemma canonical_records_follow_the_groups_witness :
  exists cs,
    ingest_run.build_canonical iso8601.fromisoformat sample_now
      (sample_uuid4 "run") sample_raw = Some cs
    /\ map ingest_run.evidence cs
       = map snd (ingest.group_evidence (sample_uuid4 "run") sample_raw)
    /\ list_sum (map ingest_run.evidence_count cs) = 3%nat.
Proof.
  assert (Hc : exists cs,
    ingest_run.build_canonical iso8601.fromisoformat sample_now
      (sample_uuid4 "run") sample_raw = Some cs)
    by (eexists; reflexivity).
  destruct Hc as [cs Hc]. exists cs. split; [exact Hc|].
  destruct (canonical_records_follow_the_groups iso8601.fromisoformat
              sample_now (sample_uuid4 "run") sample_raw cs Hc)
    as (Hev & _ & Hsum).
  split; assumption.
Defined.

Lemma canonical_name_platform_country_come_from_items_witness :
  exists c,
    ingest_run.canonical_of_group iso8601.fromisoformat sample_now
      "id-1" "build a slack bot" [video_item PNone; forum_item] = Some c
    /\ In (ingest_run.workflow c)
          (map ingest.title_of [video_item PNone; forum_item]).
Proof.
  assert (Hc : exists c,
    ingest_run.canonical_of_group iso8601.fromisoformat sample_now
      "id-1" "build a slack bot" [video_item PNone; forum_item] = Some c)
    by (eexists; reflexivity).
  destruct Hc as [c Hc]. exists c. split; [exact Hc|].
  exact (proj1 (canonical_name_platform_country_come_from_items
                  iso8601.fromisoformat sample_now _ _ _ c Hc)).
Defined.

Lemma sample_table_ok :
  table_ok [sample_row "id-1" "Old name" "youtube:abc" 1;
            sample_row "id-2" "Other" "youtube:xyz" 5].
Proof.
  repeat split.
  - constructor; [intros [H|[]]; discriminate|].
    constructor; [intros []|constructor].
  - constructor; [intros [H|[]]; discriminate|].
    constructor; [intros []|constructor].
  - repeat constructor.
Defined.

Lemma upsert_statement_keeps_table_constraints_witness :
  let t := [sample_row "id-1" "Old name" "youtube:abc" 1;
            sample_row "id-2" "Other" "youtube:xyz" 5] in
  let r := sample_row "id-3" "New name" "youtube:abc" 4 in
  exists t',
    Workflow.insert_on_conflict_do_update sample_now Workflow.update_cols r t
    = Some t'
    /\ table_ok t'
    /\ In (Some "youtube:abc") (map Workflow.source_id t').
Proof.
  intros t r.
  assert (Ht : exists t',
    Workflow.insert_on_conflict_do_update sample_now Workflow.update_cols r t
    = Some t') by (eexists; reflexivity).
  destruct Ht as [t' Ht]. exists t'. split; [exact Ht|].
  destruct (upsert_statement_keeps_table_constraints json_value sample_now
              r t t' sample_table_ok Ht) as (Hok & _ & Hin).
  split; assumption.
Defined.

Lemma upsert_statement_idempotent_witness :
  let t := [sample_row "id-1" "Old name" "youtube:abc" 1] in
  let r := sample_row "id-3" "New name" "youtube:new" 4 in
  exists t',
    Workflow.insert_on_conflict_do_update sample_now Workflow.update_cols r t
    = Some t'
    /\ Workflow.insert_on_conflict_do_update (sample_now + 1)
         Workflow.update_cols r t' = Some t'.
Proof.
  intros t r.
  assert (Ht : exists t',
    Workflow.insert_on_conflict_do_update sample_now Workflow.update_cols r t
    = Some t') by (eexists; reflexivity).
  destruct Ht as [t' Ht]. exists t'. split; [exact Ht|].
  exact (upsert_statement_idempotent json_value sample_now (sample_now + 1)
           r t t' Ht).
Defined.

Lemma upsert_batch_fails_as_a_whole_witness :
  let t := [sample_row "id-1" "Old name" "youtube:abc" 1] in
  Workflow.upsert_to_db json_value_truthy (JArr []) (JObj [])
    iso8601.fromisoformat (sample_uuid4 "id") sample_accepts sample_now
    [sample_canonical "New name" "youtube:abc" 4; nameless_canonical] t
  = (false, t).
Proof.
  intros t.
  apply (upsert_batch_fails_as_a_whole json_value json_value_truthy
           (JArr []) (JObj []) iso8601.fromisoformat (sample_uuid4 "id")
           sample_accepts sample_now _ nameless_canonical t).
  - right. left. reflexivity.
  - left. reflexivity.
Defined.

Lemma get_acts_on_the_first_200_witness :
  let transport :=
    script [RequestError; Response 500 None; Response 200 None] in
  fst (youtube_collector._get ["k0"; "k1"] transport 3 first_state)
    = Raised JSONDecodeError
  /\ fst (discourse_collector._get transport (fun _ => 0%Q) 3)
    = Returned (JObj []).
Proof.
  intros transport.
  apply (get_acts_on_the_first_200 ["k0"; "k1"] transport (fun _ => 0%Q)
           3 2 None first_state).
  - lia.
  - intros i Hi. destruct i as [|[|i]]; [reflexivity | reflexivity | lia].
  - reflexivity.
Defined.

Lemma youtube_backoff_doubles_and_keys_rotate_witness :
  let transport :=
    script [Response 429 None; Response 403 None; Response 429 None] in
  let final :=
    snd (youtube_collector._get ["k0"; "k1"] transport 3 first_state) in
  youtube_collector.sleeps final = backoffs 1 3
  /\ youtube_collector.params_key final
     = nth_error ["k0"; "k1"] (youtube_collector._yt_key_index final).
Proof.
  intros transport final.
  destruct (youtube_backoff_doubles_and_keys_rotate ["k0"; "k1"] transport
              3 first_state) as (Hs & Hk & _).
  - intros i Hi.
    destruct i as [|[|[|i]]]; [reflexivity | reflexivity | reflexivity | lia].
  - split; [exact Hs|].
    destruct (Hk ltac:(discriminate)) as [_ Hp].
    apply Hp. lia.
Defined.

Lemma inferred_country_is_cached_witness :
  exists cache',
    discourse_queries.infer_user_country sample_profile [] "asha"
    = (Some "IN", cache', true)
    /\ discourse_queries.infer_user_country
         (fun _ => discourse_queries.Build_profile None None None)
         cache' "asha"
       = (Some "IN", cache', false).
Proof.
  pose proof (inferred_country_is_cached sample_profile
                (fun _ => discourse_queries.Build_profile None None None)
                [] "asha" ltac:(discriminate)) as H.
  eexists. split; [reflexivity|]. exact (proj1 H).
Defined.

Lemma country_heuristics_match_substrings_witness :
  discourse_queries.country_of_text "Sydney, Australia" = Some "US".
Proof.
  apply (proj2 (proj2 (country_heuristics_match_substrings
                         "Sydney, Australia"))); reflexivity.
Defined.

Lemma fallback_pages_partition_the_file_witness :
  exists outs pages,
    mapM api_workflows.shape sample_entries = Some outs
    /\ Forall2 (fun page served =>
                  api_workflows.list_workflows_fallback (Some sample_entries)
                    2 page = Some served
                  /\ (List.length served <= 2)%nat)
               [1%nat; 2%nat] pages
    /\ List.concat pages = outs.
Proof.
  assert (Ho : exists outs,
    mapM api_workflows.shape sample_entries = Some outs)
    by (eexists; reflexivity).
  destruct Ho as [outs Ho]. exists outs.
  destruct (fallback_pages_partition_the_file sample_entries outs 2 2 Ho)
    as (pages & Hp & _ & Hall).
  exists pages. split; [exact Ho|]. split; [exact Hp|].
  apply Hall. simpl. lia.
Defined.
